(** * market-sim: the matching and settlement engine

    A shallow embedding of [src/environment/order_book.py],
    [src/environment/instrument.py], [src/environment/environment.py] and of
    [MarketServer.process_message] from [src/server/market_server.py],
    followed by the properties of the engine.  Of [OrderBook], all but
    the formatting methods is embedded; of [Instrument],
    all but [random_walk]; of [Environment], all but [run_continuous]; of
    the server, the request dispatch and [settle_trade], without sockets
    and threads; of [BaseAgent], the accounting helpers.

    Conventions of the embedding.
    - Prices and timestamps are Python floats that the engine only compares
      and copies: they are written as the integers [Z] whose values they
      have.  Where the code does arithmetic on floats (cash, the cost and
      the average price of a market order) the model does it on IEEE 754
      binary64 values, with the rounding of the code; a price that enters
      such arithmetic is the double of its value, and an [int] that enters
      it is converted as Python converts it.  NaN prices are outside the
      model, and so are integers too large to convert to a float (Python
      raises [OverflowError] for them).
    - [uuid.uuid4()] and [time.time()] are inputs: every call that builds an
      order receives the identifier and the timestamp drawn for it.
    - A [heapq] heap is kept as the list of its items in priority order, the
      order in which successive [heappop] calls return them; [heap[0]] is the
      head.  The array layout inside the heap is not modelled.
    - Objects mutated in place are threaded through explicitly; a function
      that mutates an argument returns its new value.  An exception leaves
      the state as it is at the [raise].
    - A dictionary with string keys is a [gmap string _]; [get_state] lists
      the instrument symbols in the order of the map, not in insertion
      order.  The order request dictionaries are records.
    - [print] is not modelled. *)

From stdpp Require Import gmap strings list fin_maps lexico sorting.
From Stdlib Require Import ZArith Lia SpecFloat.

Local Open Scope Z_scope.

(** ** Python results *)

Inductive exn : Type :=
  | ValueError (msg : string)
  | KeyError (key : string).

(** What a call does: return a value, raise, or exhaust the iteration budget
    of a [while] loop (shown below never to happen). *)
Inductive outcome (A : Type) : Type :=
  | Ret (a : A)
  | Raise (e : exn)
  | OutOfFuel.

Arguments Ret {A} a.
Arguments Raise {A} e.
Arguments OutOfFuel {A}.

Definition outcome_map {A B} (f : A → B) (r : outcome A) : outcome B :=
  match r with
  | Ret a => Ret (f a)
  | Raise e => Raise e
  | OutOfFuel => OutOfFuel
  end.

Notation "f <$$> r" := (outcome_map f r) (at level 61, left associativity).

(** ** Python floats *)

(** A [float] is an IEEE 754 binary64 value, and the operations are the
    ones of the Standard Library's specification of binary64: they compute,
    and they round to the nearest double, ties to even, as the hardware
    does. *)
Module Float.

Definition t : Type := spec_float.

Definition prec : Z := 53.
Definition emax : Z := 1024.

Definition add : t → t → t := SFadd prec emax.
Definition sub : t → t → t := SFsub prec emax.
Definition mul : t → t → t := SFmul prec emax.
Definition truediv : t → t → t := SFdiv prec emax.
Definition neg : t → t := SFopp.

(** [float(n)], the conversion Python applies to an [int] operand of mixed
    arithmetic: the nearest double.  Where this is an infinity Python raises
    [OverflowError] instead. *)
Definition of_int (n : Z) : t := binary_normalize prec emax n 0 false.


End Float.

(** ** Ordering of strings, as Python compares [str] values *)

Global Instance string_lexico : Lexico string :=
  λ s1 s2, String.compare s1 s2 = Lt.

Lemma string_compare_refl (s : string) : String.compare s s = Eq.
Proof.
  induction s as [|a s IH]; simpl; [done|].
  unfold Ascii.compare. by rewrite N.compare_refl.
Qed.

Lemma string_compare_gt_lt (s1 s2 : string) :
  String.compare s1 s2 = Gt → String.compare s2 s1 = Lt.
Proof. intros H. rewrite String.compare_antisym, H. done. Qed.

Global Instance string_lexico_po : StrictOrder (@lexico string _).
Proof.
  split.
  - intros s. unfold complement, lexico, string_lexico.
    by rewrite string_compare_refl.
  - intros s1 s2 s3. unfold lexico, string_lexico. intros H12 H23.
    assert (Hle : String.le s1 s3).
    { transitivity s2; unfold String.le, String.leb.
      - by rewrite H12.
      - by rewrite H23. }
    unfold String.le, String.leb in Hle.
    destruct (String.compare s1 s3) eqn:H13; [|done|done].
    apply String.compare_eq_iff in H13 as ->.
    rewrite String.compare_antisym, H12 in H23. done.
Qed.

Global Instance string_lexico_trichotomy : TrichotomyT (@lexico string _).
Proof.
  red; refine (λ s1 s2,
    match String.compare s1 s2 as c return String.compare s1 s2 = c → _ with
    | Lt => λ H, inleft (left H)
    | Eq => λ H, inleft (right (String.compare_eq_iff _ _ H))
    | Gt => λ H, inright (string_compare_gt_lt _ _ H)
    end eq_refl).
Defined.

(** ** Data structures of [order_book.py] *)

Module Order.

(** [@dataclass(order=True) class Order].  The field [sort_index] is set
    once by [__post_init__] from [side], [price] and [timestamp], none of
    which is assigned afterwards, so it is a function of them. *)
Record t : Type := mk {
  order_id : string;
  agent_id : string;
  side : string;
  price : Z;
  quantity : Z;
  order_type : string;
  timestamp : Z
}.

Definition sort_index (self : t) : Z * Z :=
  if decide (side self = "buy") then (- price self, timestamp self)
  else (price self, timestamp self).

(** The tuple of fields [order=True] compares, in declaration order. *)
Definition astuple (self : t) :=
  (sort_index self, order_id self, agent_id self, side self, price self,
   quantity self, order_type self, timestamp self).

(** [__lt__] *)
Definition lt (self other : t) : Prop := lexico (astuple self) (astuple other).

(** [self.quantity = q] *)
Definition set_quantity (q : Z) (self : t) : t :=
  mk (order_id self) (agent_id self) (side self) (price self) q
     (order_type self) (timestamp self).

End Order.

Global Instance Order_eq_dec : EqDecision Order.t.
Proof. solve_decision. Defined.

Global Instance Order_lt_dec : RelDecision Order.lt.
Proof.
  intros a b. unfold Order.lt.
  destruct (trichotomyT lexico (Order.astuple a) (Order.astuple b))
    as [[H|H]|H].
  - left. exact H.
  - right. rewrite H. apply irreflexivity, _.
  - right. intros H'. exact (irreflexivity lexico _ (transitivity H H')).
Defined.

Module Trade.

(** [@dataclass class Trade] *)
Record t : Type := mk {
  price : Z;
  volume : Z;
  symbol : string;
  buyer : string;
  seller : string;
  buyer_order : string;
  seller_order : string;
  time : option Z
}.

(** [self.time = tm] *)
Definition set_time (tm : Z) (self : t) : t :=
  mk (price self) (volume self) (symbol self) (buyer self) (seller self)
     (buyer_order self) (seller_order self) (Some tm).

End Trade.

Global Instance Trade_eq_dec : EqDecision Trade.t.
Proof. solve_decision. Defined.

(** ** [heapq] on lists of orders *)

(** [heapq.heappush(heap, item)] *)
Fixpoint heappush (heap : list Order.t) (item : Order.t) : list Order.t :=
  match heap with
  | [] => [item]
  | o :: heap' =>
      if decide (Order.lt item o) then item :: heap
      else o :: heappush heap' item
  end.

(** [heapq.heappop(heap)] on a non-empty heap: the item and the heap left. *)
Definition heappop (heap : list Order.t) : option (Order.t * list Order.t) :=
  match heap with
  | [] => None
  | o :: heap' => Some (o, heap')
  end.

(** The dictionary [OrderBook._trade_to_dict] builds from a trade; it is
    also what [BaseAgent.handle_trade] reads. *)
Module TradeDict.

Record t : Type := mk {
  price : Z;
  volume : Z;
  symbol : string;
  buyer : string;
  seller : string;
  buyer_order : string;
  seller_order : string;
  time : option Z
}.

End TradeDict.

(** ** [class OrderBook] *)

Module OrderBook.

Record t : Type := mk {
  symbol : string;
  bids : list Order.t;
  asks : list Order.t;
  trades : list Trade.t;
  current_tick : option Z
}.

Definition set_bids (v : list Order.t) (self : t) : t :=
  mk (symbol self) v (asks self) (trades self) (current_tick self).
Definition set_asks (v : list Order.t) (self : t) : t :=
  mk (symbol self) (bids self) v (trades self) (current_tick self).
Definition set_trades (v : list Trade.t) (self : t) : t :=
  mk (symbol self) (bids self) (asks self) v (current_tick self).

(** [__init__]: [symbol if symbol else "UNKNOWN"] *)
Definition init (symbol : option string) : t :=
  mk (match symbol with
      | Some s => if decide (s = "") then "UNKNOWN" else s
      | None => "UNKNOWN"
      end) [] [] [] None.

Definition _add_to_book (order : Order.t) (self : t) : t :=
  if decide (Order.side order = "buy")
  then set_bids (heappush (bids self) order) self
  else set_asks (heappush (asks self) order) self.

(** The [Trade(...)] expression shared by [_match_against] and
    [_execute_market_order]; [order] is the incoming order. *)
Definition new_trade (self_symbol : string) (tick : option Z)
    (trade_price traded_vol : Z) (order best : Order.t) : Trade.t :=
  let is_buy := bool_decide (Order.side order = "buy") in
  Trade.mk trade_price traded_vol self_symbol
    (if is_buy then Order.agent_id order else Order.agent_id best)
    (if is_buy then Order.agent_id best else Order.agent_id order)
    (if is_buy then Order.order_id order else Order.order_id best)
    (if is_buy then Order.order_id best else Order.order_id order)
    tick.

(** [incoming.agent_id and best.agent_id and
     best.agent_id == incoming.agent_id] *)
Definition same_agent (incoming best : Order.t) : bool :=
  bool_decide (Order.agent_id incoming ≠ "")
  && bool_decide (Order.agent_id best ≠ "")
  && bool_decide (Order.agent_id best = Order.agent_id incoming).

(** The [while] loop of [_match_against]; the locals [incoming],
    [opposite], [skipped] and [trades] are its state. *)
Fixpoint match_loop (fuel : nat) (self_symbol : string) (tick : option Z)
    (incoming : Order.t) (opposite skipped : list Order.t)
    (trades : list Trade.t)
  : option (Order.t * list Order.t * list Order.t * list Trade.t) :=
  match fuel with
  | O => None
  | S fuel =>
      if decide (0 < Order.quantity incoming) then
        match opposite with
        | [] => Some (incoming, opposite, skipped, trades)
        | best :: rest =>
            if same_agent incoming best then
              match_loop fuel self_symbol tick incoming rest
                (skipped ++ [best]) trades
            else if decide (Order.side incoming = "buy"
                            ∧ Order.price incoming < Order.price best)
            then Some (incoming, opposite, skipped, trades)
            else if decide (Order.side incoming = "sell"
                            ∧ Order.price incoming > Order.price best)
            then Some (incoming, opposite, skipped, trades)
            else
              let traded_vol :=
                Z.min (Order.quantity incoming) (Order.quantity best) in
              let trade_price := Order.price incoming in
              let trade :=
                new_trade self_symbol tick trade_price traded_vol
                  incoming best in
              let incoming' :=
                Order.set_quantity (Order.quantity incoming - traded_vol)
                  incoming in
              let best' :=
                Order.set_quantity (Order.quantity best - traded_vol) best in
              let opposite' :=
                if decide (0 < Order.quantity best')
                then heappush rest best' else rest in
              match_loop fuel self_symbol tick incoming' opposite' skipped
                (trades ++ [trade])
        end
      else Some (incoming, opposite, skipped, trades)
  end.

(** Returns the trades, the incoming order as the loop left it, and the
    book. *)
Definition _match_against (incoming : Order.t) (self : t)
  : option (list Trade.t * Order.t * t) :=
  let opposite :=
    if decide (Order.side incoming = "buy") then asks self else bids self in
  match match_loop (S (length opposite)) (symbol self) (current_tick self)
          incoming opposite [] [] with
  | None => None
  | Some (incoming', opposite', skipped, trades') =>
      let opposite'' := foldl heappush opposite' skipped in
      let self' :=
        if decide (Order.side incoming = "buy")
        then set_asks opposite'' self else set_bids opposite'' self in
      Some (trades', incoming', set_trades (trades self ++ trades') self')
  end.

(** The dictionary [_execute_market_order] returns. *)
Record MarketResult : Type := mkMarketResult {
  mr_trades : list Trade.t;
  filled : Z;
  unfilled : Z;
  avg_price : option Float.t
}.

(** The [while] loop of [_execute_market_order]. *)
Fixpoint market_loop (fuel : nat) (self_symbol : string) (tick : option Z)
    (order : Order.t) (opposite : list Order.t) (trades : list Trade.t)
    (total_filled : Z) (total_cost : Float.t)
  : option (Order.t * list Order.t * list Trade.t * Z * Float.t) :=
  match fuel with
  | O => None
  | S fuel =>
      if decide (0 < Order.quantity order) then
        match heappop opposite with
        | None => Some (order, opposite, trades, total_filled, total_cost)
        | Some (best, rest) =>
            let traded_vol :=
              Z.min (Order.quantity order) (Order.quantity best) in
            let trade_price := Order.price best in
            let trade :=
              new_trade self_symbol tick trade_price traded_vol order best in
            let order' :=
              Order.set_quantity (Order.quantity order - traded_vol) order in
            let best' :=
              Order.set_quantity (Order.quantity best - traded_vol) best in
            let opposite' :=
              if decide (0 < Order.quantity best')
              then heappush rest best' else rest in
            market_loop fuel self_symbol tick order' opposite'
              (trades ++ [trade]) (total_filled + traded_vol)
              (Float.add total_cost
                 (Float.mul (Float.of_int traded_vol)
                    (Float.of_int trade_price)))
        end
      else Some (order, opposite, trades, total_filled, total_cost)
  end.

Definition _execute_market_order (order : Order.t) (self : t)
  : option (MarketResult * t) :=
  let opposite :=
    if decide (Order.side order = "buy") then asks self else bids self in
  match market_loop (S (length opposite)) (symbol self) (current_tick self)
          order opposite [] 0 (Float.of_int 0) with
  | None => None
  | Some (order', opposite', trades', total_filled, total_cost) =>
      let self' :=
        if decide (Order.side order = "buy")
        then set_asks opposite' self else set_bids opposite' self in
      let avg :=
        if decide (total_filled = 0) then None
        else Some (Float.truediv total_cost (Float.of_int total_filled)) in
      Some (mkMarketResult trades' total_filled (Order.quantity order') avg,
            set_trades (trades self ++ trades') self')
  end.

Definition _place_limit_order (order : Order.t) (self : t)
  : t * outcome (list Trade.t) :=
  match _match_against order self with
  | None => (self, OutOfFuel)
  | Some (trades', order', self') =>
      if decide (0 < Order.quantity order')
      then (_add_to_book order' self', Ret trades')
      else (self', Ret trades')
  end.

Definition _place_market_order (order : Order.t) (self : t)
  : option (MarketResult * t) :=
  _execute_market_order order self.

(** [order_id] and [timestamp] are the values [uuid.uuid4()] and
    [time.time()] give to the new [Order]. *)
Definition place_order (price volume : Z) (side order_type agent_id : string)
    (order_id : string) (timestamp : Z) (self : t)
  : t * outcome (list Trade.t) :=
  let order :=
    Order.mk order_id agent_id side price volume order_type timestamp in
  if decide (order_type = "limit") then _place_limit_order order self
  else if decide (order_type = "market") then
    match _place_market_order order self with
    | None => (self, OutOfFuel)
    | Some (result, self') => (self', Ret (mr_trades result))
    end
  else (self, Raise (ValueError ("Unknown order type: " +:+ order_type))).

(** [max(self.bids, key=lambda o: o.price, default=None)]: the first item
    of greatest price. *)
Definition best_bid (self : t) : option Order.t :=
  foldl (λ best o,
           match best with
           | None => Some o
           | Some b => if decide (Order.price b < Order.price o)
                       then Some o else Some b
           end) None (bids self).

(** [min(self.asks, key=lambda o: o.price, default=None)]: the first item
    of least price. *)
Definition best_ask (self : t) : option Order.t :=
  foldl (λ best o,
           match best with
           | None => Some o
           | Some b => if decide (Order.price o < Order.price b)
                       then Some o else Some b
           end) None (asks self).

Definition _trade_to_dict (trade : Trade.t) : TradeDict.t :=
  TradeDict.mk (Trade.price trade) (Trade.volume trade) (Trade.symbol trade)
    (Trade.buyer trade) (Trade.seller trade) (Trade.buyer_order trade)
    (Trade.seller_order trade) (Trade.time trade).

(** The [while] loop of [_match_orders]; it works on the book itself. *)
Fixpoint match_orders_loop (fuel : nat) (self : t) : option t :=
  match fuel with
  | O => None
  | S fuel =>
      match bids self, asks self with
      | best_bid :: bids', best_ask :: asks' =>
          if decide (Order.price best_bid < Order.price best_ask)
          then Some self
          else
            let bid := best_bid in
            let ask := best_ask in
            let traded_vol :=
              Z.min (Order.quantity bid) (Order.quantity ask) in
            let trade_price := Order.price ask in
            let trade :=
              Trade.mk trade_price traded_vol (symbol self)
                (Order.agent_id bid) (Order.agent_id ask)
                (Order.order_id bid) (Order.order_id ask)
                (current_tick self) in
            let bid' :=
              Order.set_quantity (Order.quantity bid - traded_vol) bid in
            let ask' :=
              Order.set_quantity (Order.quantity ask - traded_vol) ask in
            let bids'' :=
              if decide (0 < Order.quantity bid')
              then heappush bids' bid' else bids' in
            let asks'' :=
              if decide (0 < Order.quantity ask')
              then heappush asks' ask' else asks' in
            match_orders_loop fuel
              (mk (symbol self) bids'' asks'' (trades self ++ [trade])
                 (current_tick self))
      | _, _ => Some self
      end
  end.

(** Matches the resting orders with each other, then hands out and empties
    the trade buffer. *)
Definition _match_orders (self : t) : t * outcome (list TradeDict.t) :=
  match match_orders_loop (S (length (bids self) + length (asks self)))
          self with
  | None => (self, OutOfFuel)
  | Some self' =>
      let matched_trades := trades self' in
      (set_trades [] self', Ret (_trade_to_dict <$> matched_trades))
  end.

End OrderBook.

(** ** [class Instrument] *)

Module Instrument.

Record t : Type := mk {
  symbol : string;
  price : Z;
  order_book : OrderBook.t
}.

Definition set_price (v : Z) (self : t) : t :=
  mk (symbol self) v (order_book self).
Definition set_order_book (v : OrderBook.t) (self : t) : t :=
  mk (symbol self) (price self) v.

(** [__init__] *)
Definition init (symbol : string) (initial_price : Z) : t :=
  mk symbol initial_price (OrderBook.init (Some symbol)).

Definition update_price (self : t) : t :=
  match last (OrderBook.trades (order_book self)) with
  | Some trade => set_price (Trade.price trade) self
  | None => self
  end.

End Instrument.

(** ** [class Environment] *)

(** The value [add_account] stores: [{"cash": ..., "portfolio": {}}]. *)
Module Account.

Record t : Type := mk {
  cash : Float.t;
  portfolio : gmap string Z
}.

Definition set_cash (v : Float.t) (self : t) : t := mk v (portfolio self).
Definition set_portfolio (v : gmap string Z) (self : t) : t :=
  mk (cash self) v.

End Account.

(** The dictionary handed to [submit_order].  [process_orders] reads
    ["symbol"], ["price"], ["volume"] and ["side"] by subscript and
    ["order_type"] and ["agent_id"] with [get]; the type gives the first four
    always and the last two optionally. *)
Module OrderRequest.

Record t : Type := mk {
  symbol : string;
  price : Z;
  volume : Z;
  side : string;
  order_type : option string;
  agent_id : option string
}.

End OrderRequest.

(** The dictionary [get_state] returns; [account] is present when a
    participant is given. *)
Module Snapshot.

Record t : Type := mk {
  time : Z;
  instruments : list string;
  order_books : gmap string (nat * nat);
  prices : gmap string Z;
  account : option Account.t
}.

End Snapshot.

Module Environment.

Record t : Type := mk {
  instruments : gmap string Instrument.t;
  time : Z;
  trade_log : list Trade.t;
  pending_orders : list OrderRequest.t;
  agent_accounts : gmap string Account.t
}.

Definition set_instruments (v : gmap string Instrument.t) (self : t) : t :=
  mk v (time self) (trade_log self) (pending_orders self)
     (agent_accounts self).
Definition set_time (v : Z) (self : t) : t :=
  mk (instruments self) v (trade_log self) (pending_orders self)
     (agent_accounts self).
Definition set_trade_log (v : list Trade.t) (self : t) : t :=
  mk (instruments self) (time self) v (pending_orders self)
     (agent_accounts self).
Definition set_pending_orders (v : list OrderRequest.t) (self : t) : t :=
  mk (instruments self) (time self) (trade_log self) v
     (agent_accounts self).
Definition set_agent_accounts (v : gmap string Account.t) (self : t) : t :=
  mk (instruments self) (time self) (trade_log self) (pending_orders self) v.

(** [__init__] *)
Definition init (instruments : gmap string Instrument.t) : t :=
  mk instruments 0 [] [] ∅.

(** [1_000_000.0] *)
Definition starting_cash : Float.t := Float.of_int 1000000.

Definition add_account (agent_id : string) (self : t) : t :=
  set_agent_accounts
    (<[agent_id := Account.mk starting_cash ∅]> (agent_accounts self)) self.

Definition submit_order (order : OrderRequest.t) (self : t) : t :=
  set_pending_orders (pending_orders self ++ [order]) self.

(** [self.agent_accounts[agent]["cash"] += delta] *)
Definition add_cash (agent : string) (delta : Float.t) (self : t) : t :=
  set_agent_accounts
    (alter (λ acc, Account.set_cash (Float.add (Account.cash acc) delta) acc)
       agent (agent_accounts self)) self.

(** [self.agent_accounts[agent]["cash"] -= delta] *)
Definition sub_cash (agent : string) (delta : Float.t) (self : t) : t :=
  set_agent_accounts
    (alter (λ acc, Account.set_cash (Float.sub (Account.cash acc) delta) acc)
       agent (agent_accounts self)) self.

(** [self.agent_accounts[agent]["portfolio"].get(symbol, 0)] *)
Definition position (agent symbol : string) (self : t) : Z :=
  default 0 (agent_accounts self !! agent
             ≫= λ acc, Account.portfolio acc !! symbol).

(** [self.agent_accounts[agent]["portfolio"][symbol] = v] *)
Definition set_position (agent symbol : string) (v : Z) (self : t) : t :=
  set_agent_accounts
    (alter (λ acc,
              Account.set_portfolio (<[symbol := v]> (Account.portfolio acc))
                acc) agent (agent_accounts self)) self.

(** [trade.price * volume]: a [float], as [Trade.price] is annotated, times
    an [int], which Python converts to a float first. *)
Definition trade_value (trade : Trade.t) : Float.t :=
  Float.mul (Float.of_int (Trade.price trade))
    (Float.of_int (Trade.volume trade)).

(** [buyer_acc] and [seller_acc] are references into [agent_accounts]
    (the same object when buyer and seller coincide), so every statement
    through them reads and writes the table at that key. *)
Definition update_accounts (trade : Trade.t) (self : t) : t :=
  let buyer := Trade.buyer trade in
  let seller := Trade.seller trade in
  let symbol := Trade.symbol trade in
  let volume := Trade.volume trade in
  let value := trade_value trade in
  let self :=
    if decide (agent_accounts self !! buyer = None)
    then add_account buyer self else self in
  let self :=
    if decide (agent_accounts self !! seller = None)
    then add_account seller self else self in
  let self := sub_cash buyer value self in
  let buyer_pos := position buyer symbol self in
  let self := set_position buyer symbol (buyer_pos + volume) self in
  let self := add_cash seller value self in
  let seller_pos := position seller symbol self in
  set_position seller symbol (seller_pos - volume) self.

(** The inner [for t in trades] of [process_orders]: stamp, collect,
    settle. *)
Fixpoint settle_trades (trades : list Trade.t) (all_trades : list Trade.t)
    (self : t) : list Trade.t * t :=
  match trades with
  | [] => (all_trades, self)
  | trade :: trades' =>
      let trade := Trade.set_time (time self) trade in
      settle_trades trades' (all_trades ++ [trade])
        (update_accounts trade self)
  end.

(** The trades a [place_order] call returns are the objects it appended
    to the book's own buffer: stamping them stamps the last [n] entries of
    that buffer. *)
Definition stamp_last (n : nat) (tm : Z) (buffer : list Trade.t)
  : list Trade.t :=
  let k := (length buffer - n)%nat in
  take k buffer ++ (Trade.set_time tm <$> drop k buffer).

(** The [for order in self.pending_orders] of [process_orders].  [fresh i]
    is the identifier and the timestamp drawn for the order that the
    [i]-th request of the tick creates. *)
Fixpoint process_loop (fresh : nat → string * Z) (i : nat)
    (pending : list OrderRequest.t) (all_trades : list Trade.t) (self : t)
  : t * outcome (list Trade.t) :=
  match pending with
  | [] => (self, Ret all_trades)
  | order :: pending' =>
      let symbol := OrderRequest.symbol order in
      match instruments self !! symbol with
      | None => (self, Raise (KeyError symbol))
      | Some inst =>
          let '(book, result) :=
            OrderBook.place_order
              (OrderRequest.price order) (OrderRequest.volume order)
              (OrderRequest.side order)
              (default "limit" (OrderRequest.order_type order))
              (default "unknown" (OrderRequest.agent_id order))
              (fresh i).1 (fresh i).2 (Instrument.order_book inst) in
          let store (book : OrderBook.t) : t :=
            set_instruments
              (<[symbol := Instrument.set_order_book book inst]>
                 (instruments self)) self in
          match result with
          | Ret trades =>
              let book :=
                OrderBook.set_trades
                  (stamp_last (length trades) (time self)
                     (OrderBook.trades book)) book in
              let '(all_trades, self) :=
                settle_trades trades all_trades (store book) in
              process_loop fresh (S i) pending' all_trades self
          | Raise e => (store book, Raise e)
          | OutOfFuel => (store book, OutOfFuel)
          end
      end
  end.

Definition process_orders (fresh : nat → string * Z) (self : t)
  : t * outcome (list Trade.t) :=
  match process_loop fresh 0 (pending_orders self) [] self with
  | (self, Ret all_trades) =>
      let self := set_pending_orders [] self in
      let self :=
        if decide (all_trades = []) then self
        else set_trade_log (trade_log self ++ all_trades) self in
      (self, Ret all_trades)
  | (self, Raise e) => (self, Raise e)
  | (self, OutOfFuel) => (self, OutOfFuel)
  end.

(** [get_state] changes nothing; only its result is given.  [if addr:]
    holds for an address other than [None] and the empty string. *)
Definition get_state (addr : option string) (self : t)
  : outcome Snapshot.t :=
  let snapshot :=
    Snapshot.mk (time self) (map_to_list (instruments self)).*1
      ((λ inst, (length (OrderBook.bids (Instrument.order_book inst)),
                 length (OrderBook.asks (Instrument.order_book inst))))
         <$> instruments self)
      (Instrument.price <$> instruments self) in
  match addr with
  | Some a =>
      if decide (a = "") then Ret (snapshot None)
      else match agent_accounts self !! a with
           | Some acc => Ret (snapshot (Some acc))
           | None => Raise (KeyError a)
           end
  | None => Ret (snapshot None)
  end.

Definition reset (self : t) : t * outcome Snapshot.t :=
  let self := set_time 0 self in
  let self := set_trade_log [] self in
  let clear (instrument : Instrument.t) : Instrument.t :=
    let book := Instrument.order_book instrument in
    Instrument.set_order_book
      (OrderBook.set_trades []
         (OrderBook.set_asks [] (OrderBook.set_bids [] book))) instrument in
  let self := set_instruments (clear <$> instruments self) self in
  (self, get_state None self).

Definition update_prices (self : t) : t :=
  set_instruments
    (map_imap (λ sym inst,
       let trades :=
         filter (λ t, Trade.symbol t = sym ∧ Trade.time t = Some (time self))
           (trade_log self) in
       match last trades with
       | Some trade => Some (Instrument.set_price (Trade.price trade) inst)
       | None => Some inst
       end) (instruments self)) self.

(** The dictionary [tick] returns. *)
Record TickResult : Type := mkTickResult {
  r_time : Z;
  r_trades : list Trade.t;
  r_state : Snapshot.t
}.

Definition tick (fresh : nat → string * Z) (self : t)
  : t * outcome TickResult :=
  let self := set_time (time self + 1) self in
  match process_orders fresh self with
  | (self, Ret trades) =>
      let self := update_prices self in
      match get_state None self with
      | Ret state => (self, Ret (mkTickResult (time self) trades state))
      | Raise e => (self, Raise e)
      | OutOfFuel => (self, OutOfFuel)
      end
  | (self, Raise e) => (self, Raise e)
  | (self, OutOfFuel) => (self, OutOfFuel)
  end.

End Environment.

(** ** [MarketServer.process_message] *)

Module MarketServer.

(** A decoded JSON request; an absent key is [None]. *)
Record Message : Type := mkMessage {
  type : option string;
  symbol : option string;
  price : option Z;
  volume : option Z;
  side : option string;
  order_type : option string;
  agent_id : option string
}.

Inductive Response : Type :=
  | ACK (status : string)
  | BOOK (bids asks : list Order.t)
  | STATE (state : Snapshot.t)
  | TIME (time : Z)
  | Error (error : string).

(** [str(x)] for an optional string. *)
Definition str (x : option string) : string := default "None" x.

(** The server's state is its [env]; [agent_id] is the connection address
    the handler passes, as the string that names it.  A subscript
    [msg[key]] of an absent key raises [KeyError]. *)
Definition process_message (msg : Message) (agent_id : option string)
    (env : Environment.t) : Environment.t * outcome Response :=
  let mtype := type msg in
  if decide (mtype = Some "PLACE_ORDER") then
    match symbol msg, price msg, volume msg, side msg with
    | None, _, _, _ => (env, Raise (KeyError "symbol"))
    | Some _, None, _, _ => (env, Raise (KeyError "price"))
    | Some _, Some _, None, _ => (env, Raise (KeyError "volume"))
    | Some _, Some _, Some _, None => (env, Raise (KeyError "side"))
    | Some sym, Some p, Some v, Some sd =>
        let order :=
          OrderRequest.mk sym p v sd
            (Some (default "limit" (order_type msg)))
            (Some (default (str agent_id) (MarketServer.agent_id msg))) in
        (Environment.submit_order order env, Ret (ACK "queued"))
    end
  else if decide (mtype = Some "GET_BOOK") then
    match symbol msg with
    | None => (env, Raise (KeyError "symbol"))
    | Some sym =>
        match Environment.instruments env !! sym with
        | Some inst =>
            let ob := Instrument.order_book inst in
            (env, Ret (BOOK (OrderBook.bids ob) (OrderBook.asks ob)))
        | None => (env, Raise (KeyError sym))
        end
    end
  else if decide (mtype = Some "GET_STATE") then
    (env, STATE <$$> Environment.get_state agent_id env)
  else if decide (mtype = Some "GET_TIME") then
    (env, Ret (TIME (Environment.time env)))
  else (env, Ret (Error ("Unknown message type: " +:+ str mtype))).

(** [settle_trade] works on the server's own table [self.agents], whose
    entries it reads as accounts; [if buyer:] holds for an entry that is
    there.  [settle_leg] is the body of such an [if]: the cash and the
    holding of one participant, written through the table; [new_cash] is
    the [-= cost] of the buyer or the [+= cost] of the seller. *)
Definition settle_leg (agent symbol : string) (new_cash : Float.t → Float.t)
    (d_qty : Z) (agents : gmap string Account.t) : gmap string Account.t :=
  let agents :=
    alter (λ acc, Account.set_cash (new_cash (Account.cash acc)) acc)
      agent agents in
  alter (λ acc,
           Account.set_portfolio
             (<[symbol := default 0 (Account.portfolio acc !! symbol)
                          + d_qty]> (Account.portfolio acc)) acc)
    agent agents.

Definition settle_trade (trade : Trade.t) (agents : gmap string Account.t)
  : gmap string Account.t :=
  let cost :=
    Float.mul (Float.of_int (Trade.price trade))
      (Float.of_int (Trade.volume trade)) in
  let buyer_known := bool_decide (is_Some (agents !! Trade.buyer trade)) in
  let seller_known := bool_decide (is_Some (agents !! Trade.seller trade)) in
  let agents :=
    if buyer_known
    then settle_leg (Trade.buyer trade) (Trade.symbol trade)
           (λ cash, Float.sub cash cost) (Trade.volume trade) agents
    else agents in
  if seller_known
  then settle_leg (Trade.seller trade) (Trade.symbol trade)
         (λ cash, Float.add cash cost) (- Trade.volume trade) agents
  else agents.

End MarketServer.

(** ** [class BaseAgent]: the accounting helpers *)

(** The account dictionary an agent receives in a state response. *)
Module AccountDict.

Record t : Type := mk {
  cash : option Float.t;
  portfolio : option (gmap string Z)
}.

End AccountDict.

Module BaseAgent.

(** The fields the accounting helpers use; host, port and socket are left
    out. *)
Record t : Type := mk {
  agent_id : string;
  cash : Float.t;
  portfolio : gmap string Z
}.

(** [__init__], with its default [cash=100_000.0] *)
Definition init (agent_id : string) (cash : option Float.t) : t :=
  mk agent_id (default (Float.of_int 100000) cash) ∅.

(** Returns the agent and [delta_cash].  [if not account:] holds for no
    dictionary and for the empty one. *)
Definition update_account (account : option AccountDict.t) (self : t)
  : t * Float.t :=
  match account with
  | None => (self, Float.of_int 0)
  | Some (AccountDict.mk None None) => (self, Float.of_int 0)
  | Some account =>
      let new_cash := default (cash self) (AccountDict.cash account) in
      let new_portfolio :=
        default (portfolio self) (AccountDict.portfolio account) in
      let delta_cash := Float.sub new_cash (cash self) in
      (mk (agent_id self) new_cash new_portfolio, delta_cash)
  end.

Definition update_portfolio (symbol : string) (delta_qty : Z)
    (delta_cash : Float.t) (self : t) : t :=
  mk (agent_id self) (Float.add (cash self) delta_cash)
    (<[symbol := default 0 (portfolio self !! symbol) + delta_qty]>
       (portfolio self)).

(** [-price * qty] is [(-price) * qty]. *)
Definition handle_trade (trade : TradeDict.t) (self : t) : t :=
  let sym := TradeDict.symbol trade in
  let qty := TradeDict.volume trade in
  let price := Float.of_int (TradeDict.price trade) in
  if decide (TradeDict.buyer trade = agent_id self)
  then update_portfolio sym qty
         (Float.mul (Float.neg price) (Float.of_int qty)) self
  else if decide (TradeDict.seller trade = agent_id self)
  then update_portfolio sym (- qty) (Float.mul price (Float.of_int qty)) self
  else self.

End BaseAgent.

(** * Vocabulary of the properties *)

(** ** Priority order *)

(** [a] is not behind [b]: what [heappush] tests before it steps over an
    item. *)
Definition Order_le (a b : Order.t) : Prop := ¬ Order.lt b a.

Definition is_heap (heap : list Order.t) : Prop := StronglySorted Order_le heap.

(** ** Runs of the matching loop *)

(** The crossing test fails: one of the two [break]s is taken. *)
Definition no_cross (incoming best : Order.t) : Prop :=
  (Order.side incoming = "buy" ∧ Order.price incoming < Order.price best)
  ∨ (Order.side incoming = "sell" ∧ Order.price incoming > Order.price best).

(** [match_run sym tick incoming opposite skipped trades final]: the loop of
    [_match_against], entered with these locals, leaves them as [final].
    One constructor per path through the body; [run_partial] is the
    iteration that pushes the partly filled order back, after which the loop
    test fails. *)
Inductive match_run (sym : string) (tick : option Z) :
  Order.t → list Order.t → list Order.t → list Trade.t →
  Order.t * list Order.t * list Order.t * list Trade.t → Prop :=
  | run_filled incoming opposite skipped trades :
      Order.quantity incoming ≤ 0 →
      match_run sym tick incoming opposite skipped trades
        (incoming, opposite, skipped, trades)
  | run_empty incoming skipped trades :
      0 < Order.quantity incoming →
      match_run sym tick incoming [] skipped trades
        (incoming, [], skipped, trades)
  | run_skip incoming best rest skipped trades final :
      0 < Order.quantity incoming →
      OrderBook.same_agent incoming best = true →
      match_run sym tick incoming rest (skipped ++ [best]) trades final →
      match_run sym tick incoming (best :: rest) skipped trades final
  | run_break incoming best rest skipped trades :
      0 < Order.quantity incoming →
      OrderBook.same_agent incoming best = false →
      no_cross incoming best →
      match_run sym tick incoming (best :: rest) skipped trades
        (incoming, best :: rest, skipped, trades)
  | run_fill incoming best rest skipped trades final :
      0 < Order.quantity incoming →
      OrderBook.same_agent incoming best = false →
      ¬ no_cross incoming best →
      let traded_vol := Z.min (Order.quantity incoming) (Order.quantity best) in
      Order.quantity best - traded_vol ≤ 0 →
      match_run sym tick
        (Order.set_quantity (Order.quantity incoming - traded_vol) incoming)
        rest skipped
        (trades ++ [OrderBook.new_trade sym tick (Order.price incoming)
                      traded_vol incoming best]) final →
      match_run sym tick incoming (best :: rest) skipped trades final
  | run_partial incoming best rest skipped trades :
      0 < Order.quantity incoming →
      OrderBook.same_agent incoming best = false →
      ¬ no_cross incoming best →
      let traded_vol := Z.min (Order.quantity incoming) (Order.quantity best) in
      0 < Order.quantity best - traded_vol →
      match_run sym tick incoming (best :: rest) skipped trades
        (Order.set_quantity (Order.quantity incoming - traded_vol) incoming,
         heappush rest
           (Order.set_quantity (Order.quantity best - traded_vol) best),
         skipped,
         trades ++ [OrderBook.new_trade sym tick (Order.price incoming)
                      traded_vol incoming best]).

(** ** Books and sequences of calls *)

(** Each side is in priority order and holds orders of its own side. *)
Definition wf (b : OrderBook.t) : Prop :=
  is_heap (OrderBook.bids b) ∧ is_heap (OrderBook.asks b)
  ∧ Forall (λ o, Order.side o = "buy") (OrderBook.bids b)
  ∧ Forall (λ o, Order.side o ≠ "buy") (OrderBook.asks b).

(** A resting bid and a resting ask cross only when they belong to one
    participant, whose orders are never matched with each other. *)
Definition crossing_free (b : OrderBook.t) : Prop :=
  ∀ bid ask, bid ∈ OrderBook.bids b → ask ∈ OrderBook.asks b →
    Order.price ask ≤ Order.price bid →
    Order.agent_id bid = Order.agent_id ask ∧ Order.agent_id bid ≠ "".

(** The arguments of one call [place_order(price, volume, side, order_type,
    agent_id)], with the identifier and the timestamp its order draws. *)
Record Call : Type := mkCall {
  c_price : Z;
  c_volume : Z;
  c_side : string;
  c_order_type : string;
  c_agent_id : string;
  c_order_id : string;
  c_timestamp : Z
}.

Definition call (c : Call) (b : OrderBook.t) : OrderBook.t * outcome (list Trade.t) :=
  OrderBook.place_order (c_price c) (c_volume c) (c_side c) (c_order_type c)
    (c_agent_id c) (c_order_id c) (c_timestamp c) b.

(** The book after the calls, made one after the other; a call that raises
    leaves the book as it is at the [raise]. *)
Definition place_all (calls : list Call) (b : OrderBook.t) : OrderBook.t :=
  foldl (λ b c, (call c b).1) b calls.

Definition self_cross_calls : list Call :=
  [mkCall 100 5 "buy" "limit" "A" "u1" 1;
   mkCall 99 5 "sell" "limit" "A" "u2" 2].

(** ** Trades of a limit order *)

(** [fills sym tick incoming trades matched]: [trades] are the trades of
    [incoming] against the resting orders [matched], one after the other,
    each for the lesser of what is left of the incoming order and the
    quantity of the resting order, at the price of the incoming order.  Each
    trade is the record [_match_against] builds from these two orders, and
    no resting order is matched that same-participant avoidance skips. *)
Fixpoint fills (sym : string) (tick : option Z) (incoming : Order.t)
    (trades : list Trade.t) (matched : list Order.t) : Prop :=
  match trades, matched with
  | [], [] => True
  | trade :: trades', best :: matched' =>
      let traded_vol :=
        Z.min (Order.quantity incoming) (Order.quantity best) in
      Trade.price trade = Order.price incoming
      ∧ Trade.volume trade = traded_vol
      ∧ trade = OrderBook.new_trade sym tick (Order.price incoming) traded_vol
                  incoming best
      ∧ OrderBook.same_agent incoming best = false
      ∧ fills sym tick
          (Order.set_quantity (Order.quantity incoming - traded_vol) incoming)
          trades' matched'
  | _, _ => False
  end.

(** The orders of the incoming participant on the opposite side. *)
Definition own_orders (incoming : Order.t) (side : list Order.t)
  : list Order.t :=
  filter (λ o, OrderBook.same_agent incoming o = true) side.

(** A side of the book with the remaining quantities left out: who is
    resting, at what price, in priority order. *)
Definition priorities (side : list Order.t) : list Order.t :=
  Order.set_quantity 0 <$> side.

Definition anonymous_calls : list Call :=
  [mkCall 100 5 "buy" "limit" "" "u1" 1].

Definition skip_book : OrderBook.t :=
  place_all [mkCall 99 3 "sell" "limit" "A" "u1" 1;
             mkCall 100 4 "sell" "limit" "B" "u2" 2] (OrderBook.init None).

(** ** Environments of the examples *)

Definition example_fresh (i : nat) : string * Z :=
  (if decide (i = 0%nat) then "order-1" else "order-2", Z.of_nat i).

Definition example_env (initial_price : Z) : Environment.t :=
  Environment.init {[ "X" := Instrument.init "X" initial_price ]}.

Definition example_submitted (initial_price : Z) : Environment.t :=
  Environment.submit_order (OrderRequest.mk "X" 100 5 "sell" None (Some "B"))
    (Environment.submit_order
       (OrderRequest.mk "X" 101 5 "buy" None (Some "A"))
       (example_env initial_price)).

Definition unknown_symbol_message : MarketServer.Message :=
  MarketServer.mkMessage (Some "PLACE_ORDER") (Some "Y") (Some 10) (Some 1)
    (Some "buy") None (Some "A").

(** ** Accounts *)

(** The balance a participant has to settle with: that of the account, or
    the starting cash an account is opened with when there is none. *)
Definition cash_of (agent : string) (self : Environment.t) : Float.t :=
  from_option Account.cash Environment.starting_cash
    (Environment.agent_accounts self !! agent).

Definition has_account (agent : string) (self : Environment.t) : Prop :=
  is_Some (Environment.agent_accounts self !! agent).

(** [if agent not in self.agent_accounts: self.add_account(agent)] *)
Definition ensure (self : Environment.t) (agent : string) : Environment.t :=
  if decide (Environment.agent_accounts self !! agent = None)
  then Environment.add_account agent self else self.


(** ** Quantities, and the trades of a market order *)

(** The quantity resting on a side. *)
Definition total_quantity (side : list Order.t) : Z :=
  foldr (λ o s, Order.quantity o + s) 0 side.

(** The volume and the value of a list of trades. *)
Definition sum_volume (trades : list Trade.t) : Z :=
  foldr (λ t s, Trade.volume t + s) 0 trades.

(** The cost of a list of trades as [_execute_market_order] adds it up:
    onto [total_cost], trade after trade, [traded_vol * trade_price] in
    double arithmetic. *)
Definition add_costs (total_cost : Float.t) (trades : list Trade.t)
  : Float.t :=
  foldl (λ cost t,
           Float.add cost
             (Float.mul (Float.of_int (Trade.volume t))
                (Float.of_int (Trade.price t)))) total_cost trades.

Definition sum_cost (trades : list Trade.t) : Float.t :=
  add_costs (Float.of_int 0) trades.

(** [market_fills sym tick order trades matched]: [trades] are the trades
    of the market order [order] against the resting orders [matched], one
    after the other, each at the price of the resting order. *)
Fixpoint market_fills (sym : string) (tick : option Z) (order : Order.t)
    (trades : list Trade.t) (matched : list Order.t) : Prop :=
  match trades, matched with
  | [], [] => True
  | trade :: trades', best :: matched' =>
      let traded_vol := Z.min (Order.quantity order) (Order.quantity best) in
      Trade.price trade = Order.price best
      ∧ Trade.volume trade = traded_vol
      ∧ trade = OrderBook.new_trade sym tick (Order.price best) traded_vol
                  order best
      ∧ market_fills sym tick
          (Order.set_quantity (Order.quantity order - traded_vol) order)
          trades' matched'
  | _, _ => False
  end.

(** Every resting order is a limit order with something left to fill. *)
Definition resting_ok (b : OrderBook.t) : Prop :=
  Forall (λ o, 0 < Order.quantity o ∧ Order.order_type o = "limit")
    (OrderBook.bids b ++ OrderBook.asks b).

(** Every resting bid is priced below every resting ask. *)
Definition strictly_uncrossed (b : OrderBook.t) : Prop :=
  ∀ bid ask, bid ∈ OrderBook.bids b → ask ∈ OrderBook.asks b →
    Order.price bid < Order.price ask.

(** [top] comes before [o] on the bid side: a higher price, or the same
    price and a timestamp that is not later; and likewise on the ask side
    with a lower price. *)
Definition bid_priority (top o : Order.t) : Prop :=
  Order.price o < Order.price top
  ∨ (Order.price o = Order.price top
     ∧ Order.timestamp top ≤ Order.timestamp o).

Definition ask_priority (top o : Order.t) : Prop :=
  Order.price top < Order.price o
  ∨ (Order.price o = Order.price top
     ∧ Order.timestamp top ≤ Order.timestamp o).

(** ** Trades of [_match_orders] *)

(** [trade] is a trade between a bid and an ask that rest in [b] and cross,
    at the price of the ask. *)
Definition crossing_trade (b : OrderBook.t) (trade : Trade.t) : Prop :=
  ∃ bid ask,
    bid ∈ priorities (OrderBook.bids b) ∧ ask ∈ priorities (OrderBook.asks b)
    ∧ Order.price ask ≤ Order.price bid
    ∧ trade = Trade.mk (Order.price ask) (Trade.volume trade)
                (OrderBook.symbol b) (Order.agent_id bid)
                (Order.agent_id ask) (Order.order_id bid)
                (Order.order_id ask) (OrderBook.current_tick b).

(** A trade of a participant with itself. *)
Definition self_trade (trade : Trade.t) : Prop :=
  Trade.buyer trade = Trade.seller trade ∧ Trade.buyer trade ≠ "".

(** ** Environments *)

(** Every book of the environment is in priority order, holds only limit
    orders with something left to fill, and has no crossing orders of
    different participants. *)
Definition books_ok (self : Environment.t) : Prop :=
  ∀ sym inst, Environment.instruments self !! sym = Some inst →
    wf (Instrument.order_book inst)
    ∧ crossing_free (Instrument.order_book inst)
    ∧ resting_ok (Instrument.order_book inst).

(** No logged trade is stamped with a tick that is yet to come. *)
Definition log_ok (self : Environment.t) : Prop :=
  Forall (λ t, ∃ k, Trade.time t = Some k ∧ k ≤ Environment.time self)
    (Environment.trade_log self).

(** The first request of the queue that [process_orders] cannot process,
    with the exception it raises: a symbol that is no key of [instruments],
    or an order type that [place_order] refuses. *)
Fixpoint first_error (instruments : gmap string Instrument.t)
    (pending : list OrderRequest.t) : option exn :=
  match pending with
  | [] => None
  | order :: pending' =>
      match instruments !! OrderRequest.symbol order with
      | None => Some (KeyError (OrderRequest.symbol order))
      | Some _ =>
          let order_type := default "limit" (OrderRequest.order_type order) in
          if decide (order_type = "limit") then first_error instruments pending'
          else if decide (order_type = "market")
          then first_error instruments pending'
          else Some (ValueError ("Unknown order type: " +:+ order_type))
      end
  end.

(** The environments a program can build: [Environment(instruments)] over
    new instruments, then any calls of [submit_order], [add_account],
    [tick] and [reset]. *)
Inductive reachable : Environment.t → Prop :=
  | reach_init instruments :
      (∀ sym inst, instruments !! sym = Some inst →
         Instrument.order_book inst
         = OrderBook.init (Some (Instrument.symbol inst))) →
      reachable (Environment.init instruments)
  | reach_submit_order order self :
      reachable self → reachable (Environment.submit_order order self)
  | reach_add_account agent_id self :
      reachable self → reachable (Environment.add_account agent_id self)
  | reach_tick fresh self :
      reachable self → reachable (Environment.tick fresh self).1
  | reach_reset self :
      reachable self → reachable (Environment.reset self).1.


(** * Properties *)

(** ** The order on [Order] *)

Lemma prod_lexico_fst `{Lexico A, Lexico B} (p q : A * B) :
  lexico p q → lexico p.1 q.1 ∨ p.1 = q.1.
Proof. intros [?|[? _]]; auto. Qed.

Lemma Order_astuple_inj (a b : Order.t) :
  Order.astuple a = Order.astuple b → a = b.
Proof. destruct a, b. unfold Order.astuple. simpl. intros [=]. by subst. Qed.

Global Instance Order_lt_strict : StrictOrder Order.lt.
Proof.
  split.
  - intros a H. unfold Order.lt in H. exact (irreflexivity lexico _ H).
  - intros a b c. unfold Order.lt. apply transitivity.
Qed.

Lemma Order_lt_total (a b : Order.t) : Order.lt a b ∨ a = b ∨ Order.lt b a.
Proof.
  destruct (trichotomyT lexico (Order.astuple a) (Order.astuple b))
    as [[H|H]|H]; auto using Order_astuple_inj.
Qed.

Lemma Order_le_iff (a b : Order.t) : Order_le a b ↔ Order.lt a b ∨ a = b.
Proof.
  unfold Order_le. split.
  - intros Hn. destruct (Order_lt_total a b) as [?|[?|?]]; tauto.
  - intros [H| ->] H'.
    + exact (irreflexivity Order.lt _ (transitivity H H')).
    + exact (irreflexivity Order.lt _ H').
Qed.

Global Instance Order_le_refl : Reflexive Order_le.
Proof. intros a. apply Order_le_iff. by right. Qed.

Global Instance Order_le_trans : Transitive Order_le.
Proof.
  intros a b c. rewrite !Order_le_iff. intros [H1| ->] [H2| ->]; auto.
  left. by transitivity b.
Qed.

Lemma Order_le_antisym (a b : Order.t) : Order_le a b → Order_le b a → a = b.
Proof.
  unfold Order_le. intros H1 H2.
  destruct (Order_lt_total a b) as [?|[?|?]]; tauto.
Qed.

(** The first component of [sort_index] decides first. *)
Lemma Order_lt_sort_price (a b : Order.t) :
  Order.lt a b → (Order.sort_index a).1 ≤ (Order.sort_index b).1.
Proof.
  unfold Order.lt, Order.astuple. intros H.
  do 7 (apply prod_lexico_fst in H; cbn [fst snd] in H;
        destruct H as [H|H];
        [|assert (Order.sort_index a = Order.sort_index b) as ->
            by congruence; lia]).
  apply prod_lexico_fst in H.
  destruct H as [H|H]; [|lia].
  unfold lexico, Z_lexico in H. lia.
Qed.

Lemma Order_le_sort_price (a b : Order.t) :
  Order_le a b → (Order.sort_index a).1 ≤ (Order.sort_index b).1.
Proof.
  rewrite Order_le_iff. intros [H| ->]; [by apply Order_lt_sort_price|lia].
Qed.

(** A fill moves an order forward among orders that differ from it only
    after the quantity, and never across any other order. *)
Lemma Order_lt_set_quantity (q : Z) (o : Order.t) :
  q < Order.quantity o → Order.lt (Order.set_quantity q o) o.
Proof.
  intros Hq. destruct o as [i a s p q' k ts]. simpl in Hq.
  unfold Order.lt, Order.astuple, Order.set_quantity, Order.sort_index. simpl.
  left. left. right. split; [done|]. exact Hq.
Qed.

(** ** The heap *)

Lemma heappush_perm (heap : list Order.t) (item : Order.t) :
  heappush heap item ≡ₚ item :: heap.
Proof.
  induction heap as [|o heap IH]; simpl; [done|].
  case_decide; [done|]. rewrite IH. apply Permutation_swap.
Qed.

Lemma heappush_length (heap : list Order.t) (item : Order.t) :
  length (heappush heap item) = S (length heap).
Proof. by rewrite heappush_perm. Qed.

Lemma heappush_elem_of (heap : list Order.t) (item o : Order.t) :
  o ∈ heappush heap item ↔ o = item ∨ o ∈ heap.
Proof. rewrite heappush_perm. apply elem_of_cons. Qed.

Lemma heappush_Forall (P : Order.t → Prop) (heap : list Order.t)
    (item : Order.t) :
  Forall P (heappush heap item) ↔ P item ∧ Forall P heap.
Proof. rewrite heappush_perm. apply Forall_cons. Qed.

Lemma heappush_is_heap (heap : list Order.t) (item : Order.t) :
  is_heap heap → is_heap (heappush heap item).
Proof.
  unfold is_heap. induction 1 as [|o heap Hs IH Hall]; simpl.
  - repeat constructor.
  - case_decide as Hlt.
    + constructor; [by constructor|].
      assert (Hio : Order_le item o) by (apply Order_le_iff; by left).
      constructor; [done|].
      eapply Forall_impl; [exact Hall|]. intros x Hx. by transitivity o.
    + constructor; [done|]. apply heappush_Forall. by split.
Qed.

(** An item that is behind nothing in the heap becomes its head. *)
Lemma heappush_le_all (heap : list Order.t) (item : Order.t) :
  Forall (Order_le item) heap → heappush heap item = item :: heap.
Proof.
  induction 1 as [|o heap Hle Hall IH]; simpl; [done|].
  case_decide as Hlt; [done|].
  assert (item = o) as <- by (by apply Order_le_antisym).
  by rewrite IH.
Qed.

(** Pushing an item back where it was taken from restores the heap. *)
Lemma heappush_restore (l1 l2 : list Order.t) (item : Order.t) :
  is_heap (l1 ++ item :: l2) → heappush (l1 ++ l2) item = l1 ++ item :: l2.
Proof.
  unfold is_heap. induction l1 as [|o l1 IH]; simpl; intros Hs.
  - apply heappush_le_all. by inversion Hs.
  - inversion Hs as [|? ? Hs' Hall]; subst.
    rewrite decide_False.
    + by rewrite IH.
    + apply Forall_app in Hall as [_ Hall]. by inversion Hall.
Qed.

Lemma Forall_sublist {A} (P : A → Prop) (l k : list A) :
  l `sublist_of` k → Forall P k → Forall P l.
Proof.
  induction 1 as [|x l k _ IH|x l k _ IH]; intros HP; [done|..].
  - inversion HP; subst. constructor; auto.
  - inversion HP; subst. auto.
Qed.

Lemma is_heap_sublist (l k : list Order.t) :
  l `sublist_of` k → is_heap k → is_heap l.
Proof.
  unfold is_heap. induction 1 as [|x l k Hs IH|x l k Hs IH]; intros Hk; [done|..].
  - inversion Hk; subst. constructor; [auto|]. by eapply Forall_sublist.
  - inversion Hk; subst. auto.
Qed.

(** The loop that puts the skipped orders back. *)
Lemma foldl_heappush_restore (acc skipped opposite : list Order.t) :
  is_heap (acc ++ skipped ++ opposite) →
  foldl heappush (acc ++ opposite) skipped = acc ++ skipped ++ opposite.
Proof.
  revert acc. induction skipped as [|s skipped IH]; intros acc Hs; [done|].
  simpl. rewrite heappush_restore.
  - replace (acc ++ s :: opposite) with ((acc ++ [s]) ++ opposite)
      by (by rewrite <- app_assoc).
    rewrite IH; rewrite <- app_assoc; done.
  - eapply is_heap_sublist; [|exact Hs].
    apply sublist_app; [done|]. apply sublist_skip.
    apply sublist_inserts_l. done.
Qed.

(** ** Termination of the two [while] loops *)

Lemma match_loop_terminates (fuel : nat) (sym : string) (tick : option Z)
    (incoming : Order.t) (opposite skipped : list Order.t)
    (trades : list Trade.t) :
  (length opposite < fuel)%nat
  ∨ (Order.quantity incoming ≤ 0 ∧ (0 < fuel)%nat) →
  is_Some (OrderBook.match_loop fuel sym tick incoming opposite skipped trades).
Proof.
  revert incoming opposite skipped trades.
  induction fuel as [|fuel IH]; intros incoming opposite skipped trades Hf.
  { destruct Hf as [Hf|[_ Hf]]; lia. }
  simpl. case_decide as Hq; [|done].
  destruct Hf as [Hf|[Hf _]]; [|lia].
  destruct opposite as [|best rest]; [done|]. simpl in Hf.
  destruct (OrderBook.same_agent incoming best).
  { apply IH. left. lia. }
  repeat (case_decide; [done|]).
  apply IH. simpl. case_decide as Hb.
  - right. split; [lia|]. lia.
  - left. lia.
Qed.

Lemma market_loop_terminates (fuel : nat) (sym : string) (tick : option Z)
    (order : Order.t) (opposite : list Order.t) (trades : list Trade.t)
    (total_filled : Z) (total_cost : Float.t) :
  (length opposite < fuel)%nat
  ∨ (Order.quantity order ≤ 0 ∧ (0 < fuel)%nat) →
  is_Some (OrderBook.market_loop fuel sym tick order opposite trades
             total_filled total_cost).
Proof.
  revert order opposite trades total_filled total_cost.
  induction fuel as [|fuel IH];
    intros order opposite trades total_filled total_cost Hf.
  { destruct Hf as [Hf|[_ Hf]]; lia. }
  simpl. case_decide as Hq; [|done].
  destruct Hf as [Hf|[Hf _]]; [|lia].
  destruct opposite as [|best rest]; [done|]. simpl in Hf. simpl.
  apply IH. simpl. case_decide as Hb.
  - right. split; [lia|]. lia.
  - left. lia.
Qed.

Lemma _match_against_terminates (incoming : Order.t) (self : OrderBook.t) :
  is_Some (OrderBook._match_against incoming self).
Proof.
  unfold OrderBook._match_against.
  match goal with
  | |- context [OrderBook.match_loop ?f ?s ?t ?i ?o ?k ?r] =>
      destruct (match_loop_terminates f s t i o k r) as [[[[? ?] ?] ?] ->];
        [left; lia|done]
  end.
Qed.

Lemma _execute_market_order_terminates (order : Order.t) (self : OrderBook.t) :
  is_Some (OrderBook._execute_market_order order self).
Proof.
  unfold OrderBook._execute_market_order.
  match goal with
  | |- context [OrderBook.market_loop ?f ?s ?t ?i ?o ?k ?a ?b] =>
      destruct (market_loop_terminates f s t i o k a b)
        as [[[[[? ?] ?] ?] ?] ->]; [left; lia|done]
  end.
Qed.

(** [place_order] always comes back: it returns or raises. *)
Lemma place_order_terminates (price volume : Z)
    (side order_type agent_id order_id : string) (timestamp : Z)
    (self : OrderBook.t) :
  (OrderBook.place_order price volume side order_type agent_id order_id
     timestamp self).2 ≠ OutOfFuel.
Proof.
  unfold OrderBook.place_order, OrderBook._place_limit_order,
    OrderBook._place_market_order.
  repeat case_decide; [| |done].
  - match goal with
    | |- context [OrderBook._match_against ?o ?s] =>
        destruct (_match_against_terminates o s) as [[[? ?] ?] ->]
    end.
    by case_decide.
  - match goal with
    | |- context [OrderBook._execute_market_order ?o ?s] =>
        destruct (_execute_market_order_terminates o s) as [[? ?] ->]
    end.
    done.
Qed.

(** ** The runs of the matching loop *)

Lemma match_loop_run (fuel : nat) (sym : string) (tick : option Z)
    (incoming : Order.t) (opposite skipped : list Order.t)
    (trades : list Trade.t) final :
  OrderBook.match_loop fuel sym tick incoming opposite skipped trades
    = Some final →
  match_run sym tick incoming opposite skipped trades final.
Proof.
  revert incoming opposite skipped trades.
  induction fuel as [|fuel IH]; intros incoming opposite skipped trades;
    [done|].
  simpl. case_decide as Hq.
  2:{ intros [= <-]. apply run_filled. lia. }
  destruct opposite as [|best rest].
  { intros [= <-]. by apply run_empty. }
  destruct (OrderBook.same_agent incoming best) eqn:Hsame.
  { intros H. apply run_skip; auto. }
  case_decide as Hb.
  { intros [= <-]. apply run_break; auto. by left. }
  case_decide as Hs.
  { intros [= <-]. apply run_break; auto. by right. }
  assert (Hc : ¬ no_cross incoming best) by (intros [?|?]; tauto).
  simpl. case_decide as Hp.
  - destruct fuel as [|fuel]; [done|]. simpl.
    rewrite decide_False by lia. intros [= <-].
    by apply run_partial.
  - intros H. apply run_fill; auto. lia.
Qed.

Lemma Order_set_quantity_id (o : Order.t) :
  Order.set_quantity (Order.quantity o) o = o.
Proof. by destruct o. Qed.

Lemma same_agent_agent_id (incoming a b : Order.t) :
  Order.agent_id a = Order.agent_id b →
  OrderBook.same_agent incoming a = OrderBook.same_agent incoming b.
Proof. unfold OrderBook.same_agent. by intros ->. Qed.

(** An order that is not behind [best] and belongs to another participant
    is not behind [best] after a fill either. *)
Lemma Order_le_set_quantity (s best : Order.t) (q : Z) :
  Order_le s best → Order.agent_id s ≠ Order.agent_id best →
  Order_le s (Order.set_quantity q best).
Proof.
  rewrite !Order_le_iff. intros [H| ->] Hne; [|done]. left.
  destruct best as [i a sd p q' k ts].
  unfold Order.lt, Order.astuple in *. simpl in *.
  do 3 (destruct H as [H|[Heq _]]; cbn [fst snd] in *;
        [|exfalso; apply Hne; congruence]).
  left. left. left. exact H.
Qed.

Lemma is_heap_partial_fill (skipped rest : list Order.t) (best : Order.t)
    (q : Z) :
  is_heap (skipped ++ best :: rest) → q < Order.quantity best →
  Forall (λ s, Order.agent_id s ≠ Order.agent_id best) skipped →
  heappush rest (Order.set_quantity q best) = Order.set_quantity q best :: rest
  ∧ is_heap (skipped ++ Order.set_quantity q best :: rest).
Proof.
  unfold is_heap. intros Hs Hq Hagent.
  apply StronglySorted_app in Hs as (Hcross & Hsk & Hbr).
  apply StronglySorted_cons in Hbr as [Hbest Hrest].
  assert (Hlt : Order_le (Order.set_quantity q best) best).
  { apply Order_le_iff. left. by apply Order_lt_set_quantity. }
  assert (Hall : Forall (Order_le (Order.set_quantity q best)) rest).
  { eapply Forall_impl; [exact Hbest|]. intros x Hx. by transitivity best. }
  split; [by apply heappush_le_all|].
  apply StronglySorted_app_2; [|done|by constructor].
  intros x1 x2 H1 [->|H2]%elem_of_cons.
  - apply Order_le_set_quantity.
    + apply Hcross; [done|]. by left.
    + by eapply Forall_forall in Hagent.
  - apply Hcross; [done|]. by right.
Qed.

(** What the loop leaves of the incoming order. *)
Lemma match_run_incoming sym tick incoming opposite skipped trades final :
  match_run sym tick incoming opposite skipped trades final →
  ∃ q, final.1.1.1 = Order.set_quantity q incoming.
Proof.
  induction 1 as [| | | |? ? ? ? ? ? ? ? ? ? ? _ [q IH]|]; simpl; eauto;
    eexists; by rewrite Order_set_quantity_id.
Qed.

(** How the loop can end: the incoming order is filled, or nothing is left
    opposite, or the best order left is another participant's and does not
    cross. *)
Lemma match_run_exit sym tick incoming opposite skipped trades final :
  match_run sym tick incoming opposite skipped trades final →
  Order.quantity final.1.1.1 ≤ 0
  ∨ final.1.1.2 = []
  ∨ ∃ best rest, final.1.1.2 = best :: rest ∧ no_cross incoming best.
Proof.
  induction 1 as [| | | | |? ? ? ? ? ? ? ? vol ?]; simpl; eauto.
  - right. right. eauto.
  - left. subst vol. lia.
Qed.

(** The skipped orders followed by the opposite side stay in priority
    order, and only orders of the incoming participant are skipped. *)
Lemma match_run_heap sym tick incoming opposite skipped trades final :
  match_run sym tick incoming opposite skipped trades final →
  is_heap (skipped ++ opposite) →
  Forall (λ s, OrderBook.same_agent incoming s = true) skipped →
  is_heap (final.1.2 ++ final.1.1.2)
  ∧ Forall (λ s, OrderBook.same_agent incoming s = true) final.1.2
  ∧ foldl heappush final.1.1.2 final.1.2 = final.1.2 ++ final.1.1.2.
Proof.
  assert (Hrestore : ∀ sk opp, is_heap (sk ++ opp) →
            foldl heappush opp sk = sk ++ opp).
  { intros sk opp. apply (foldl_heappush_restore []). }
  induction 1 as [| |inc best rest sk tr final Hq Hsame _ IH|
                  |inc best rest sk tr final Hq Hsame Hc vol Hv _ IH
                  |inc best rest sk tr Hq Hsame Hc vol Hv];
    simpl; intros Hheap Hsk; auto.
  - apply IH.
    + by rewrite <- app_assoc.
    + apply Forall_app. split; [done|]. by constructor.
  - apply IH.
    + eapply is_heap_sublist; [|exact Hheap].
      apply sublist_app; [done|]. by apply sublist_cons.
    + done.
  - destruct (is_heap_partial_fill sk rest best (Order.quantity best - vol))
      as [-> Hheap']; [done|subst vol; lia| |auto].
    eapply Forall_impl; [exact Hsk|]. simpl. intros s Hs Heq.
    rewrite (same_agent_agent_id inc s best Heq) in Hs. congruence.
Qed.

(** A property of orders that does not look at the quantity is kept by
    every order the loop keeps. *)
Lemma match_run_Forall (P : Order.t → Prop) sym tick incoming opposite
    skipped trades final :
  (∀ q o, P o → P (Order.set_quantity q o)) →
  match_run sym tick incoming opposite skipped trades final →
  Forall P (skipped ++ opposite) → Forall P (final.1.2 ++ final.1.1.2).
Proof.
  intros HP.
  induction 1 as [| |? ? ? ? ? ? ? ? _ IH| |? ? ? ? ? ? ? ? ? ? ? _ IH|];
    simpl; auto.
  - intros HF. apply IH. by rewrite <- app_assoc.
  - intros HF. apply IH. rewrite Forall_app, Forall_cons in HF.
    apply Forall_app. tauto.
  - rewrite !Forall_app, heappush_Forall, Forall_cons. intuition.
Qed.

Lemma match_run_keeps (P : Order.t → Prop) sym tick incoming opposite
    skipped trades incoming' opposite' skipped' trades' :
  (∀ q o, P o → P (Order.set_quantity q o)) →
  match_run sym tick incoming opposite skipped trades
    (incoming', opposite', skipped', trades') →
  Forall P (skipped ++ opposite) → Forall P (skipped' ++ opposite').
Proof. intros HP Hrun. exact (match_run_Forall P _ _ _ _ _ _ _ HP Hrun). Qed.

(** The loop of [_execute_market_order] only takes orders away from the
    opposite side or reduces their quantity. *)
Lemma market_loop_keeps (P : Order.t → Prop) fuel sym tick order opposite
    trades total_filled total_cost final :
  (∀ q o, P o → P (Order.set_quantity q o)) →
  OrderBook.market_loop fuel sym tick order opposite trades total_filled
    total_cost = Some final →
  (is_heap opposite → is_heap final.1.1.1.2)
  ∧ (Forall P opposite → Forall P final.1.1.1.2).
Proof.
  intros HP. revert order opposite trades total_filled total_cost.
  induction fuel as [|fuel IH];
    intros order opposite trades total_filled total_cost; [done|].
  simpl. case_decide as Hq; [|by intros [= <-]].
  destruct opposite as [|best rest]; simpl; [by intros [= <-]|].
  intros Hrun. apply IH in Hrun as [Hheap HForall]. split.
  - intros Hbr. apply Hheap. apply StronglySorted_cons in Hbr as [_ Hrest].
    case_decide; [by apply heappush_is_heap|done].
  - intros Hbr. apply HForall. apply Forall_cons in Hbr as [Hbest Hrest].
    case_decide; [|done]. apply heappush_Forall. auto.
Qed.

(** ** Books that [place_order] builds *)

Lemma same_agent_true (incoming best : Order.t) :
  OrderBook.same_agent incoming best = true →
  Order.agent_id best = Order.agent_id incoming
  ∧ Order.agent_id incoming ≠ "".
Proof.
  unfold OrderBook.same_agent.
  rewrite !andb_true_iff, !bool_decide_eq_true. tauto.
Qed.

Lemma same_agent_false (incoming best : Order.t) :
  OrderBook.same_agent incoming best = false →
  Order.agent_id best = Order.agent_id incoming →
  Order.agent_id incoming = "".
Proof.
  unfold OrderBook.same_agent. intros H Heq.
  destruct (decide (Order.agent_id incoming = "")) as [|Hne]; [done|].
  rewrite Heq in H. rewrite !bool_decide_eq_true_2 in H; done.
Qed.

(** The head of the asks has the lowest price, the head of the bids the
    highest. *)
Lemma asks_head_price (best : Order.t) (rest : list Order.t) (o : Order.t) :
  is_heap (best :: rest) →
  Forall (λ o, Order.side o ≠ "buy") (best :: rest) →
  o ∈ best :: rest → Order.price best ≤ Order.price o.
Proof.
  intros [Hall _]%StronglySorted_cons Hside [->|Ho]%elem_of_cons; [lia|].
  eapply Forall_forall in Hall; [|exact Ho].
  apply Order_le_sort_price in Hall.
  apply Forall_cons in Hside as [Hb Hs].
  eapply Forall_forall in Hs; [|exact Ho].
  unfold Order.sort_index in Hall. rewrite !decide_False in Hall by done.
  exact Hall.
Qed.

Lemma bids_head_price (best : Order.t) (rest : list Order.t) (o : Order.t) :
  is_heap (best :: rest) →
  Forall (λ o, Order.side o = "buy") (best :: rest) →
  o ∈ best :: rest → Order.price o ≤ Order.price best.
Proof.
  intros [Hall _]%StronglySorted_cons Hside [->|Ho]%elem_of_cons; [lia|].
  eapply Forall_forall in Hall; [|exact Ho].
  apply Order_le_sort_price in Hall.
  apply Forall_cons in Hside as [Hb Hs].
  eapply Forall_forall in Hs; [|exact Ho].
  unfold Order.sort_index in Hall. rewrite !decide_True in Hall by done.
  simpl in Hall. lia.
Qed.

(** [_match_against], described by the run of its loop. *)
Lemma _match_against_run (incoming : Order.t) (self : OrderBook.t) :
  let opposite :=
    if decide (Order.side incoming = "buy")
    then OrderBook.asks self else OrderBook.bids self in
  ∃ incoming' opposite' skipped trades,
    match_run (OrderBook.symbol self) (OrderBook.current_tick self)
      incoming opposite [] [] (incoming', opposite', skipped, trades)
    ∧ OrderBook._match_against incoming self
      = Some (trades, incoming',
              OrderBook.set_trades (OrderBook.trades self ++ trades)
                (if decide (Order.side incoming = "buy")
                 then OrderBook.set_asks (foldl heappush opposite' skipped) self
                 else OrderBook.set_bids (foldl heappush opposite' skipped) self)).
Proof.
  intros opposite. unfold OrderBook._match_against. fold opposite.
  destruct (match_loop_terminates (S (length opposite))
              (OrderBook.symbol self) (OrderBook.current_tick self)
              incoming opposite [] []) as [[[[inc' opp'] sk] tr] Hloop];
    [left; lia|].
  rewrite Hloop. apply match_loop_run in Hloop as Hrun.
  by exists inc', opp', sk, tr.
Qed.

(** On a side in priority order the skipped orders go back in front of
    what the loop left. *)
Lemma _match_against_run_heap (incoming : Order.t) (self : OrderBook.t) :
  let opposite :=
    if decide (Order.side incoming = "buy")
    then OrderBook.asks self else OrderBook.bids self in
  is_heap opposite →
  ∃ incoming' opposite' skipped trades,
    match_run (OrderBook.symbol self) (OrderBook.current_tick self)
      incoming opposite [] [] (incoming', opposite', skipped, trades)
    ∧ OrderBook._match_against incoming self
      = Some (trades, incoming',
              OrderBook.set_trades (OrderBook.trades self ++ trades)
                (if decide (Order.side incoming = "buy")
                 then OrderBook.set_asks (skipped ++ opposite') self
                 else OrderBook.set_bids (skipped ++ opposite') self)).
Proof.
  intros opposite Hheap.
  destruct (_match_against_run incoming self)
    as (inc' & opp' & sk & tr & Hrun & Heq).
  exists inc', opp', sk, tr. split; [done|]. rewrite Heq.
  destruct (match_run_heap _ _ _ _ _ _ _ Hrun) as (_ & _ & Hfold);
    [done|done|].
  simpl in Hfold. rewrite Hfold. done.
Qed.

Lemma _place_limit_order_inv (order : Order.t) (b : OrderBook.t) :
  wf b → crossing_free b →
  wf (OrderBook._place_limit_order order b).1
  ∧ crossing_free (OrderBook._place_limit_order order b).1.
Proof.
  intros (Hbids & Hasks & Hsb & Hsa) Hcf.
  unfold OrderBook._place_limit_order.
  pose proof (_match_against_run_heap order b) as Hm. simpl in Hm.
  destruct (decide (Order.side order = "buy")) as [Hbuy|Hbuy].
  - destruct (Hm Hasks) as (inc' & opp' & sk & tr & Hrun & ->). clear Hm.
    destruct (match_run_incoming _ _ _ _ _ _ _ Hrun) as [q Hinc].
    pose proof (match_run_exit _ _ _ _ _ _ _ Hrun) as Hexit.
    destruct (match_run_heap _ _ _ _ _ _ _ Hrun) as (Hheap' & Hsk & _);
      [done|done|].
    assert (Hside' : Forall (λ o, Order.side o ≠ "buy") (sk ++ opp')).
    { eapply (match_run_keeps (λ o, Order.side o ≠ "buy")); [|exact Hrun|done].
      by intros ? []. }
    assert (Hold : ∀ bid ask, bid ∈ OrderBook.bids b → ask ∈ sk ++ opp' →
              Order.price ask ≤ Order.price bid →
              Order.agent_id bid = Order.agent_id ask
              ∧ Order.agent_id bid ≠ "").
    { intros bid ask Hbid Hask.
      assert (HF : Forall
        (λ ask, Order.price ask ≤ Order.price bid →
                Order.agent_id bid = Order.agent_id ask
                ∧ Order.agent_id bid ≠ "") (sk ++ opp')).
      { eapply match_run_keeps; [|exact Hrun|]; [by intros ? []|].
        apply Forall_forall. intros a Ha. by apply Hcf. }
      eapply Forall_forall in HF; [exact HF|exact Hask]. }
    simpl in *. subst inc'.
    case_decide as Hrest; simpl;
      [|split; [by repeat split|];
        intros bid ask Hbid Hask; simpl in *; by apply Hold].
    unfold OrderBook._add_to_book. simpl. rewrite decide_True by done. simpl.
    split.
    + repeat split; simpl; auto.
      * by apply heappush_is_heap.
      * apply heappush_Forall. by split.
    + intros bid ask [->|Hbid]%heappush_elem_of Hask; simpl in *; [|by auto].
      intros Hprice. apply elem_of_app in Hask as [Hask|Hask].
      * eapply Forall_forall in Hsk; [|exact Hask].
        apply same_agent_true in Hsk as [-> ?]. done.
      * exfalso. destruct Hexit as [?|[->|(best & rest & -> & Hn)]];
          [lia|by apply elem_of_nil in Hask|].
        destruct Hn as [[_ Hn]|[Hn _]]; [|congruence].
        apply StronglySorted_app_1_r in Hheap'.
        apply Forall_app in Hside' as [_ Hside'].
        pose proof (asks_head_price best rest ask Hheap' Hside' Hask). lia.
  - destruct (Hm Hbids) as (inc' & opp' & sk & tr & Hrun & ->). clear Hm.
    destruct (match_run_incoming _ _ _ _ _ _ _ Hrun) as [q Hinc].
    pose proof (match_run_exit _ _ _ _ _ _ _ Hrun) as Hexit.
    destruct (match_run_heap _ _ _ _ _ _ _ Hrun) as (Hheap' & Hsk & _);
      [done|done|].
    assert (Hside' : Forall (λ o, Order.side o = "buy") (sk ++ opp')).
    { eapply (match_run_keeps (λ o, Order.side o = "buy")); [|exact Hrun|done].
      by intros ? []. }
    assert (Hold : ∀ bid ask, bid ∈ sk ++ opp' → ask ∈ OrderBook.asks b →
              Order.price ask ≤ Order.price bid →
              Order.agent_id bid = Order.agent_id ask
              ∧ Order.agent_id bid ≠ "").
    { intros bid ask Hbid Hask.
      assert (HF : Forall
        (λ bid, Order.price ask ≤ Order.price bid →
                Order.agent_id bid = Order.agent_id ask
                ∧ Order.agent_id bid ≠ "") (sk ++ opp')).
      { eapply match_run_keeps; [|exact Hrun|]; [by intros ? []|].
        apply Forall_forall. intros a Ha. by apply Hcf. }
      eapply Forall_forall in HF; [exact HF|exact Hbid]. }
    simpl in *. subst inc'.
    case_decide as Hrest; simpl;
      [|split; [by repeat split|];
        intros bid ask Hbid Hask; simpl in *; by apply Hold].
    unfold OrderBook._add_to_book. simpl. rewrite decide_False by done. simpl.
    split.
    + repeat split; simpl; auto.
      * by apply heappush_is_heap.
      * apply heappush_Forall. by split.
    + intros bid ask Hbid [->|Hask]%heappush_elem_of; simpl in *; [|by auto].
      intros Hprice. apply elem_of_app in Hbid as [Hbid|Hbid].
      * eapply Forall_forall in Hsk; [|exact Hbid].
        apply same_agent_true in Hsk as [-> ?]. done.
      * exfalso. destruct Hexit as [?|[->|(best & rest & -> & Hn)]];
          [lia|by apply elem_of_nil in Hbid|].
        destruct Hn as [[Hn _]|[_ Hn]]; [congruence|].
        apply StronglySorted_app_1_r in Hheap'.
        apply Forall_app in Hside' as [_ Hside'].
        pose proof (bids_head_price best rest bid Hheap' Hside' Hbid). lia.
Qed.

Lemma _execute_market_order_inv (order : Order.t) (b : OrderBook.t) result b' :
  wf b → crossing_free b →
  OrderBook._execute_market_order order b = Some (result, b') →
  wf b' ∧ crossing_free b'.
Proof.
  intros (Hbids & Hasks & Hsb & Hsa) Hcf.
  unfold OrderBook._execute_market_order.
  destruct (OrderBook.market_loop _ _ _ _ _ _ _ _)
    as [[[[[order' opp'] tr] tf] tc]|] eqn:Hloop; [|done].
  intros [= <- <-].
  assert (Hkeep : ∀ P : Order.t → Prop,
            (∀ q o, P o → P (Order.set_quantity q o)) →
            Forall P (if decide (Order.side order = "buy")
                      then OrderBook.asks b else OrderBook.bids b) →
            Forall P opp').
  { intros P HP. by apply (market_loop_keeps P _ _ _ _ _ _ _ _ _ HP Hloop). }
  assert (Hheap : is_heap opp').
  { apply (market_loop_keeps (λ _, True) _ _ _ _ _ _ _ _ _
             ltac:(done) Hloop).
    by case_decide. }
  case_decide as Hbuy.
  - assert (Forall (λ o, Order.side o ≠ "buy") opp')
      by (apply Hkeep; [by intros ? []|done]).
    split; [by repeat split|].
    intros bid ask Hbid Hask. simpl in *.
    {
      assert (HF : Forall
        (λ ask, Order.price ask ≤ Order.price bid →
                Order.agent_id bid = Order.agent_id ask
                ∧ Order.agent_id bid ≠ "") opp').
      { apply Hkeep; [by intros ? []|].
        apply Forall_forall. intros a Ha. by apply Hcf. }
      eapply Forall_forall in HF; [exact HF|exact Hask]. }
  - assert (Forall (λ o, Order.side o = "buy") opp')
      by (apply Hkeep; [by intros ? []|done]).
    split; [by repeat split|].
    intros bid ask Hbid Hask. simpl in *.
    {
      assert (HF : Forall
        (λ bid, Order.price ask ≤ Order.price bid →
                Order.agent_id bid = Order.agent_id ask
                ∧ Order.agent_id bid ≠ "") opp').
      { apply Hkeep; [by intros ? []|].
        apply Forall_forall. intros a Ha. by apply Hcf. }
      eapply Forall_forall in HF; [exact HF|exact Hbid]. }
Qed.

Lemma place_order_inv (price volume : Z)
    (side order_type agent_id order_id : string) (timestamp : Z)
    (b : OrderBook.t) :
  wf b → crossing_free b →
  wf (OrderBook.place_order price volume side order_type agent_id order_id
        timestamp b).1
  ∧ crossing_free
      (OrderBook.place_order price volume side order_type agent_id order_id
         timestamp b).1.
Proof.
  intros Hwf Hcf. unfold OrderBook.place_order.
  case_decide; [by apply _place_limit_order_inv|].
  case_decide; [|done].
  unfold OrderBook._place_market_order.
  destruct (OrderBook._execute_market_order _ _) as [[result b']|] eqn:Hm;
    [|done].
  simpl. by eapply _execute_market_order_inv.
Qed.

Lemma init_inv (symbol : option string) :
  wf (OrderBook.init symbol) ∧ crossing_free (OrderBook.init symbol).
Proof.
  split.
  - repeat split; simpl; constructor.
  - intros bid ask Hbid. simpl in Hbid. by apply elem_of_nil in Hbid.
Qed.

(** ** Sequences of [place_order] calls *)

Lemma place_all_inv (calls : list Call) (b : OrderBook.t) :
  wf b → crossing_free b →
  wf (place_all calls b) ∧ crossing_free (place_all calls b).
Proof.
  revert b. induction calls as [|c calls IH]; intros b Hwf Hcf; [done|].
  simpl. destruct (place_order_inv (c_price c) (c_volume c) (c_side c)
    (c_order_type c) (c_agent_id c) (c_order_id c) (c_timestamp c) b Hwf Hcf).
  by apply IH.
Qed.

Lemma best_bid_elem_of (b : OrderBook.t) (o : Order.t) :
  OrderBook.best_bid b = Some o → o ∈ OrderBook.bids b.
Proof.
  unfold OrderBook.best_bid.
  assert (H : ∀ l acc,
    foldl (λ best o, match best with
                     | None => Some o
                     | Some b => if decide (Order.price b < Order.price o)
                                 then Some o else Some b
                     end) acc l = Some o → acc = Some o ∨ o ∈ l).
  { induction l as [|x l IH]; intros acc; simpl; [by left|].
    intros [Hacc|Hin]%IH; [|right; by right].
    destruct acc as [a|]; [case_decide|]; simplify_eq; auto;
      right; by left. }
  intros [?|?]%H; done.
Qed.

Lemma best_ask_elem_of (b : OrderBook.t) (o : Order.t) :
  OrderBook.best_ask b = Some o → o ∈ OrderBook.asks b.
Proof.
  unfold OrderBook.best_ask.
  assert (H : ∀ l acc,
    foldl (λ best o, match best with
                     | None => Some o
                     | Some b => if decide (Order.price o < Order.price b)
                                 then Some o else Some b
                     end) acc l = Some o → acc = Some o ∨ o ∈ l).
  { induction l as [|x l IH]; intros acc; simpl; [by left|].
    intros [Hacc|Hin]%IH; [|right; by right].
    destruct acc as [a|]; [case_decide|]; simplify_eq; auto;
      right; by left. }
  intros [?|?]%H; done.
Qed.

(** ** C1: the crossing invariant *)

(** C1, as stated, fails: participant A places a buy at 100 and then a sell
    at 99.  The sell skips A's own resting bid and rests, and the book is
    left with both sides non-empty and best bid 100 above best ask 99. *)
Lemma crossing_invariant_counterexample :
  let b := place_all self_cross_calls (OrderBook.init None) in
  OrderBook.bids b ≠ [] ∧ OrderBook.asks b ≠ []
  ∧ ∃ bid ask, OrderBook.best_bid b = Some bid
      ∧ OrderBook.best_ask b = Some ask
      ∧ Order.price ask ≤ Order.price bid.
Proof.
  vm_compute. split; [done|]. split; [done|].
  eexists _, _. split; [reflexivity|]. split; [reflexivity|]. done.
Qed.

(** C1, amended: after every sequence of [place_order] calls on a new book,
    the best bid price is greater than or equal to the best ask price only
    when the best bid and the best ask are resting orders of one and the
    same participant (with a non-empty id), which self-trade avoidance
    keeps from matching each other. *)
Theorem crossing_only_within_participant (symbol : option string)
    (calls : list Call) (bid ask : Order.t) :
  let b := place_all calls (OrderBook.init symbol) in
  OrderBook.best_bid b = Some bid → OrderBook.best_ask b = Some ask →
  Order.price ask ≤ Order.price bid →
  Order.agent_id bid = Order.agent_id ask ∧ Order.agent_id bid ≠ "".
Proof.
  intros b Hbid Hask Hprice.
  destruct (init_inv symbol) as [Hwf Hcf].
  destruct (place_all_inv calls _ Hwf Hcf) as [_ Hfree].
  apply Hfree; auto using best_bid_elem_of, best_ask_elem_of.
Qed.

(** The two calls of the counterexample: the best bid and the best ask
    cross, and both are A's. *)
Lemma crossing_only_within_participant_witness :
  let b := place_all self_cross_calls (OrderBook.init None) in
  let bid := Order.mk "u1" "A" "buy" 100 5 "limit" 1 in
  let ask := Order.mk "u2" "A" "sell" 99 5 "limit" 2 in
  OrderBook.best_bid b = Some bid ∧ OrderBook.best_ask b = Some ask
  ∧ Order.price ask ≤ Order.price bid
  ∧ Order.agent_id bid = Order.agent_id ask ∧ Order.agent_id bid ≠ "".
Proof.
  intros b bid ask.
  assert (Hbid : OrderBook.best_bid b = Some bid) by (vm_compute; reflexivity).
  assert (Hask : OrderBook.best_ask b = Some ask) by (vm_compute; reflexivity).
  assert (Hprice : Order.price ask ≤ Order.price bid) by (simpl; lia).
  split; [exact Hbid|]. split; [exact Hask|]. split; [exact Hprice|].
  exact (crossing_only_within_participant None self_cross_calls bid ask
           Hbid Hask Hprice).
Defined.

(** ** C9: the invalid order kind *)

(** C9: [place_order] raises if and only if the order kind is neither
    "limit" nor "market"; it then raises [ValueError] and the book, both
    sides and the trade buffer included, is as it was before the call. *)
Theorem place_order_invalid_kind (price volume : Z)
    (side order_type agent_id order_id : string) (timestamp : Z)
    (b : OrderBook.t) :
  let r := OrderBook.place_order price volume side order_type agent_id
             order_id timestamp b in
  ((∃ e, r.2 = Raise e) ↔ (order_type ≠ "limit" ∧ order_type ≠ "market"))
  ∧ ((∃ e, r.2 = Raise e) →
     r = (b, Raise (ValueError ("Unknown order type: " +:+ order_type)))).
Proof.
  intros r.
  pose proof (place_order_terminates price volume side order_type agent_id
                order_id timestamp b) as Hterm.
  fold r in Hterm. subst r. revert Hterm.
  unfold OrderBook.place_order, OrderBook._place_limit_order,
    OrderBook._place_market_order.
  destruct (decide (order_type = "limit")) as [Hl|Hl].
  { destruct (OrderBook._match_against _ _) as [[[tr o'] b']|]; [|done].
    intros _. case_decide; simpl; split.
    all: try (split; [intros [e He]; done|intros [? _]; done]).
    all: intros [e He]; done. }
  destruct (decide (order_type = "market")) as [Hm|Hm].
  { destruct (OrderBook._execute_market_order _ _) as [[res b']|]; [|done].
    intros _. simpl. split.
    - split; [intros [e He]; done|intros [_ ?]; done].
    - intros [e He]; done. }
  intros _. simpl. split; [|done].
  split; [done|]. intros _. eauto.
Qed.

(** ** C5 and C2: the trades of a limit order *)

Lemma match_run_fills sym tick incoming opposite skipped trades final :
  match_run sym tick incoming opposite skipped trades final →
  ∃ new matched,
    final.2 = trades ++ new ∧ matched `sublist_of` opposite
    ∧ fills sym tick incoming new matched.
Proof.
  induction 1 as [| |? ? ? ? ? ? ? ? _ (new & matched & -> & Hsub & Hf)|
                  |? ? ? ? ? ? ? ? ? ? ? _ (new & matched & -> & Hsub & Hf)|];
    simpl.
  - exists [], []. rewrite app_nil_r. split_and!; [done|apply sublist_nil_l|done].
  - exists [], []. rewrite app_nil_r. split_and!; [done|apply sublist_nil_l|done].
  - exists new, matched. split_and!; [done|by apply sublist_cons|done].
  - exists [], []. rewrite app_nil_r. split_and!; [done|apply sublist_nil_l|done].
  - eexists (_ :: new), (best :: matched). rewrite <- app_assoc.
    split; [done|]. split; [by apply sublist_skip|]. simpl. by split_and!.
  - eexists [_], [best]. split; [done|].
    split; [apply sublist_skip, sublist_nil_l|]. simpl. by split_and!.
Qed.

Lemma fills_price sym tick incoming trades matched :
  fills sym tick incoming trades matched →
  Forall (λ t, Trade.price t = Order.price incoming) trades.
Proof.
  revert incoming matched.
  induction trades as [|t trades IH]; intros incoming [|r matched]; simpl;
    try done.
  intros (Hp & _ & _ & _ & Hf). constructor; [done|]. by apply IH in Hf.
Qed.

Lemma fills_no_self_trade sym tick incoming trades matched :
  fills sym tick incoming trades matched →
  Forall (λ t, Trade.buyer t = Trade.seller t → Trade.buyer t = "") trades.
Proof.
  revert incoming matched.
  induction trades as [|t trades IH]; intros incoming [|r matched]; simpl;
    try done.
  intros (_ & _ & -> & Hsame & Hf). constructor; [|by apply IH in Hf].
  unfold OrderBook.new_trade. simpl. case_bool_decide; simpl; intros Heq.
  - by apply (same_agent_false incoming r).
  - rewrite Heq. by apply (same_agent_false incoming r).
Qed.

Lemma fills_distinct sym tick incoming trades matched :
  fills sym tick incoming trades matched →
  Order.agent_id incoming ≠ "" →
  Forall (λ t, Trade.buyer t ≠ Trade.seller t) trades.
Proof.
  revert incoming matched.
  induction trades as [|t trades IH]; intros incoming [|r matched]; simpl;
    try done.
  intros (_ & _ & -> & Hsame & Hf) Hne. constructor; [|by apply IH in Hf].
  unfold OrderBook.new_trade. simpl. intros Heq. apply Hne.
  apply (same_agent_false incoming r Hsame).
  by case_bool_decide.
Qed.

(** C5: a limit order placed with [place_order] returns trades that are
    its fills against resting orders of the opposite side, taken in
    priority order: each trade has the price of the incoming order, and its
    volume is the lesser of what is left of the incoming order at that
    moment and the quantity of the resting order. *)
Theorem limit_order_trades (price volume : Z)
    (side agent_id order_id : string) (timestamp : Z) (b : OrderBook.t) :
  let incoming :=
    Order.mk order_id agent_id side price volume "limit" timestamp in
  let opposite :=
    if decide (side = "buy") then OrderBook.asks b else OrderBook.bids b in
  ∃ trades matched,
    (OrderBook.place_order price volume side "limit" agent_id order_id
       timestamp b).2 = Ret trades
    ∧ matched `sublist_of` opposite
    ∧ fills (OrderBook.symbol b) (OrderBook.current_tick b) incoming trades
        matched
    ∧ Forall (λ t, Trade.price t = price) trades.
Proof.
  intros incoming opposite.
  unfold OrderBook.place_order, OrderBook._place_limit_order. simpl.
  fold incoming.
  destruct (_match_against_run incoming b)
    as (inc' & opp' & sk & tr & Hrun & ->).
  apply match_run_fills in Hrun as (new & matched & Htr & Hsub & Hf).
  simpl in Htr. subst tr.
  exists new, matched.
  split; [by destruct (decide (0 < Order.quantity inc'))|].
  split; [done|]. split; [done|]. by apply fills_price in Hf.
Qed.

Lemma match_run_restore sym tick incoming opposite skipped trades final :
  match_run sym tick incoming opposite skipped trades final →
  is_heap (skipped ++ opposite) →
  Forall (λ s, OrderBook.same_agent incoming s = true) skipped →
  own_orders incoming (final.1.2 ++ final.1.1.2)
    = own_orders incoming (skipped ++ opposite)
  ∧ priorities (final.1.2 ++ final.1.1.2)
      `sublist_of` priorities (skipped ++ opposite).
Proof.
  unfold own_orders, priorities.
  induction 1 as [| |inc best rest sk tr final Hq Hsame _ IH|
                  |inc best rest sk tr final Hq Hsame Hc vol Hv _ IH
                  |inc best rest sk tr Hq Hsame Hc vol Hv];
    simpl; intros Hheap Hsk; auto.
  - rewrite <- app_assoc in IH. apply IH; [done|].
    apply Forall_app. split; [done|]. by constructor.
  - destruct IH as [IH1 IH2].
    + eapply is_heap_sublist; [|exact Hheap].
      apply sublist_app; [done|]. by apply sublist_cons.
    + done.
    + split.
      * etrans; [exact IH1|]. rewrite !filter_app, filter_cons_False; [done|].
        by rewrite Hsame.
      * etrans; [exact IH2|]. rewrite !fmap_app, fmap_cons.
        apply sublist_app; [done|]. by apply sublist_cons.
  - destruct (is_heap_partial_fill sk rest best (Order.quantity best - vol))
      as [-> _]; [done|subst vol; lia| |].
    { eapply Forall_impl; [exact Hsk|]. simpl. intros s Hs Heq.
      rewrite (same_agent_agent_id inc s best Heq) in Hs. congruence. }
    split.
    + rewrite !filter_app, !filter_cons_False; [done|by rewrite Hsame|].
      rewrite (same_agent_agent_id inc _ best); [by rewrite Hsame|].
      by destruct best.
    + rewrite !fmap_app, !fmap_cons. by destruct best.
Qed.

(** C2, as stated, fails: two limit orders placed without a participant id
    (the default of [place_order]) are matched with each other, and the
    trade names the same, empty, id as buyer and as seller. *)
Lemma no_self_trade_counterexample :
  ∃ trade,
    (OrderBook.place_order 99 5 "sell" "limit" "" "u2" 2
       (place_all anonymous_calls (OrderBook.init None))).2 = Ret [trade]
    ∧ Trade.buyer trade = Trade.seller trade.
Proof. eexists. vm_compute. split; reflexivity. Qed.

(** The market path makes no such test: A's market buy is filled by A's own
    resting sell. *)
Example market_order_self_trade :
  (OrderBook.place_order 0 5 "buy" "market" "A" "u2" 2
     (place_all [mkCall 100 5 "sell" "limit" "A" "u1" 1]
        (OrderBook.init None))).2
  = Ret [Trade.mk 100 5 "UNKNOWN" "A" "A" "u2" "u1" None].
Proof. vm_compute. done. Qed.

(** C2, amended: for every limit order placed with [place_order] on a book
    whose opposite side is in priority order, and every trade it produces,
    buyer and seller differ unless both are the empty id of orders placed
    without a participant (an incoming limit order never matches a resting
    order of its own non-empty participant id); the resting orders of that
    participant on the opposite side are all in the book afterwards as they
    were, and the orders that are left on that side rest in the same
    relative priority as before. *)
Theorem limit_order_no_self_trade (price volume : Z)
    (side agent_id order_id : string) (timestamp : Z) (b : OrderBook.t) :
  let incoming :=
    Order.mk order_id agent_id side price volume "limit" timestamp in
  let opposite (b : OrderBook.t) :=
    if decide (side = "buy") then OrderBook.asks b else OrderBook.bids b in
  let r := OrderBook.place_order price volume side "limit" agent_id order_id
             timestamp b in
  is_heap (opposite b) →
  ∃ trades,
    r.2 = Ret trades
    ∧ Forall (λ t, Trade.buyer t = Trade.seller t → Trade.buyer t = "")
        trades
    ∧ (agent_id ≠ "" →
       Forall (λ t, Trade.buyer t ≠ Trade.seller t) trades)
    ∧ own_orders incoming (opposite r.1) = own_orders incoming (opposite b)
    ∧ priorities (opposite r.1) `sublist_of` priorities (opposite b).
Proof.
  intros incoming opposite r Hheap. subst r.
  unfold OrderBook.place_order, OrderBook._place_limit_order. simpl.
  fold incoming.
  destruct (_match_against_run_heap incoming b)
    as (inc' & opp' & sk & tr & Hrun & ->); [done|].
  destruct (match_run_fills _ _ _ _ _ _ _ Hrun)
    as (new & matched & Htr & Hsub & Hf).
  simpl in Htr. subst tr.
  destruct (match_run_restore _ _ _ _ _ _ _ Hrun) as [Hown Hprio];
    [done|done|]. simpl in Hown, Hprio.
  destruct (match_run_incoming _ _ _ _ _ _ _ Hrun) as [q Hinc].
  simpl in Hinc. subst inc'.
  pose proof (fills_no_self_trade _ _ _ _ _ Hf) as Hself.
  assert (Hopp : opposite
            (if decide (0 < Order.quantity (Order.set_quantity q incoming))
             then (OrderBook._add_to_book (Order.set_quantity q incoming)
                     (OrderBook.set_trades (OrderBook.trades b ++ new)
                        (if decide (Order.side incoming = "buy")
                         then OrderBook.set_asks (sk ++ opp') b
                         else OrderBook.set_bids (sk ++ opp') b)), Ret new)
             else (OrderBook.set_trades (OrderBook.trades b ++ new)
                     (if decide (Order.side incoming = "buy")
                      then OrderBook.set_asks (sk ++ opp') b
                      else OrderBook.set_bids (sk ++ opp') b), Ret new)).1
            = sk ++ opp').
  { unfold opposite, OrderBook._add_to_book. simpl.
    destruct (decide (0 < q)); destruct (decide (side = "buy")); done. }
  exists new. split; [by destruct (decide (0 < _))|].
  split; [done|]. split.
  - intros Hne. by apply (fills_distinct _ _ _ _ _ Hf).
  - rewrite Hopp. done.
Qed.

(** A's buy for 5 at 100 meets a book where A asks 99 and B asks 100: A's
    ask is skipped and put back, B's is filled. *)
Lemma limit_order_no_self_trade_witness :
  let incoming := Order.mk "u3" "A" "buy" 100 5 "limit" 3 in
  let r := OrderBook.place_order 100 5 "buy" "limit" "A" "u3" 3 skip_book in
  is_heap (OrderBook.asks skip_book)
  ∧ ∃ trades,
      r.2 = Ret trades
      ∧ Forall (λ t, Trade.buyer t ≠ Trade.seller t) trades
      ∧ own_orders incoming (OrderBook.asks r.1)
        = own_orders incoming (OrderBook.asks skip_book)
      ∧ priorities (OrderBook.asks r.1)
          `sublist_of` priorities (OrderBook.asks skip_book).
Proof.
  intros incoming r.
  assert (Hheap : is_heap (OrderBook.asks skip_book)).
  { destruct (init_inv None) as [Hwf Hcf].
    destruct (place_all_inv
      [mkCall 99 3 "sell" "limit" "A" "u1" 1;
       mkCall 100 4 "sell" "limit" "B" "u2" 2] _ Hwf Hcf) as [Hwf' _].
    apply Hwf'. }
  split; [exact Hheap|].
  destruct (limit_order_no_self_trade 100 5 "buy" "A" "u3" 3 skip_book Hheap)
    as (trades & Hr & _ & Hdiff & Hown & Hprio).
  exists trades. split; [exact Hr|]. split; [by apply Hdiff|].
  split; [exact Hown|exact Hprio].
Defined.

(** ** The environment *)

Lemma update_accounts_frame (trade : Trade.t) (self : Environment.t) :
  let self' := Environment.update_accounts trade self in
  Environment.instruments self' = Environment.instruments self
  ∧ Environment.time self' = Environment.time self
  ∧ Environment.trade_log self' = Environment.trade_log self
  ∧ Environment.pending_orders self' = Environment.pending_orders self.
Proof.
  unfold Environment.update_accounts. by repeat case_decide.
Qed.

Lemma settle_trades_spec (trades all_trades : list Trade.t)
    (self : Environment.t) :
  let r := Environment.settle_trades trades all_trades self in
  r.1 = all_trades ++ (Trade.set_time (Environment.time self) <$> trades)
  ∧ Environment.instruments r.2 = Environment.instruments self
  ∧ Environment.time r.2 = Environment.time self
  ∧ Environment.trade_log r.2 = Environment.trade_log self
  ∧ Environment.pending_orders r.2 = Environment.pending_orders self.
Proof.
  revert all_trades self.
  induction trades as [|t trades IH]; intros all_trades self; simpl.
  { by rewrite app_nil_r. }
  destruct (update_accounts_frame
              (Trade.set_time (Environment.time self) t) self)
    as (Hi & Ht & Hl & Hp).
  destruct (IH (all_trades ++ [Trade.set_time (Environment.time self) t])
              (Environment.update_accounts
                 (Trade.set_time (Environment.time self) t) self))
    as (-> & -> & -> & -> & ->).
  rewrite Ht, <- app_assoc. done.
Qed.

(** The loop over the pending requests touches neither the clock, the
    queue, the trade log nor an instrument's price, keeps the set of
    instruments, and stamps every trade it collects with the clock. *)
Lemma process_loop_frame (fresh : nat → string * Z) (i : nat)
    (pending : list OrderRequest.t) (all_trades : list Trade.t)
    (self : Environment.t) :
  let r := Environment.process_loop fresh i pending all_trades self in
  Environment.time r.1 = Environment.time self
  ∧ Environment.trade_log r.1 = Environment.trade_log self
  ∧ Environment.pending_orders r.1 = Environment.pending_orders self
  ∧ Instrument.price <$> Environment.instruments r.1
    = Instrument.price <$> Environment.instruments self
  ∧ r.2 ≠ OutOfFuel
  ∧ ∀ res, r.2 = Ret res →
      ∃ new, res = all_trades ++ new
        ∧ Forall (λ t, Trade.time t = Some (Environment.time self)) new.
Proof.
  revert i all_trades self.
  induction pending as [|order pending IH]; intros i all_trades self; simpl.
  { split_and!; try done. intros res [= <-]. exists []. by rewrite app_nil_r. }
  destruct (Environment.instruments self !! OrderRequest.symbol order)
    as [inst|] eqn:Hinst; [|by split_and!].
  pose proof (place_order_terminates
    (OrderRequest.price order) (OrderRequest.volume order)
    (OrderRequest.side order)
    (default "limit" (OrderRequest.order_type order))
    (default "unknown" (OrderRequest.agent_id order))
    (fresh i).1 (fresh i).2 (Instrument.order_book inst)) as Hterm.
  destruct (OrderBook.place_order _ _ _ _ _ _ _ _) as [book result].
  assert (Hprice : ∀ book' : OrderBook.t,
    Instrument.price <$>
      <[OrderRequest.symbol order := Instrument.set_order_book book' inst]>
        (Environment.instruments self)
    = Instrument.price <$> Environment.instruments self).
  { intros book'. rewrite fmap_insert. apply insert_id.
    by rewrite lookup_fmap, Hinst. }
  destruct result as [trades|e|]; simpl in *; [|by split_and!|done].
  match goal with
  | |- context [Environment.settle_trades ?a ?b ?c] =>
      pose proof (settle_trades_spec a b c) as Hsettle;
        destruct (Environment.settle_trades a b c) as [all' self']
  end.
  simpl in Hsettle. destruct Hsettle as (-> & Hi & Ht & Hl & Hp).
  match goal with
  | |- context [Environment.process_loop ?f ?j ?p ?a ?s] =>
      destruct (IH j a s) as (IHt & IHl & IHp & IHi & IHf & IHr)
  end.
  rewrite IHt, IHl, IHp, IHi, Ht, Hl, Hp, Hi. split_and!; try done.
  intros res Hres. apply IHr in Hres as (new & -> & Hnew).
  eexists. rewrite <- app_assoc. split; [done|].
  apply Forall_app. split; [|by rewrite Ht in Hnew].
  apply Forall_fmap, Forall_true. done.
Qed.

Lemma process_orders_frame (fresh : nat → string * Z) (self : Environment.t) :
  let r := Environment.process_orders fresh self in
  Environment.time r.1 = Environment.time self
  ∧ Instrument.price <$> Environment.instruments r.1
    = Instrument.price <$> Environment.instruments self
  ∧ r.2 ≠ OutOfFuel
  ∧ (∀ res, r.2 = Ret res →
       Environment.pending_orders r.1 = []
       ∧ Environment.trade_log r.1 = Environment.trade_log self ++ res
       ∧ Forall (λ t, Trade.time t = Some (Environment.time self)) res)
  ∧ (∀ e, r.2 = Raise e →
       Environment.pending_orders r.1 = Environment.pending_orders self
       ∧ Environment.trade_log r.1 = Environment.trade_log self).
Proof.
  unfold Environment.process_orders.
  destruct (process_loop_frame fresh 0 (Environment.pending_orders self) []
              self) as (Ht & Hl & Hp & Hi & Hf & Hr).
  destruct (Environment.process_loop _ _ _ _ _) as [self' [res|e|]];
    simpl in *; [| |done].
  - destruct (Hr res eq_refl) as (new & -> & Hnew). simpl. clear Hr.
    case_decide as Hnil; simpl.
    + rewrite Hnil in *. split_and!; try done.
      intros ? [= <-]. split_and!; try done. by rewrite app_nil_r.
    + split_and!; try done.
      intros ? [= <-]. split_and!; try done. simpl. by rewrite Hl.
  - split_and!; try done.
Qed.

Lemma update_prices_lookup (self : Environment.t) (sym : string) :
  Environment.instruments (Environment.update_prices self) !! sym
  = (λ inst,
       match last (filter (λ t, Trade.symbol t = sym
                                ∧ Trade.time t = Some (Environment.time self))
                     (Environment.trade_log self)) with
       | Some trade => Instrument.set_price (Trade.price trade) inst
       | None => inst
       end) <$> Environment.instruments self !! sym.
Proof.
  unfold Environment.update_prices. simpl. rewrite map_lookup_imap.
  destruct (Environment.instruments self !! sym) as [inst|]; simpl; [|done].
  by destruct (last _).
Qed.

Lemma tick_frame (fresh : nat → string * Z) (self : Environment.t) :
  let r := Environment.tick fresh self in
  Environment.time r.1 = Environment.time self + 1
  ∧ r.2 ≠ OutOfFuel
  ∧ ∀ res, r.2 = Ret res →
      Environment.r_time res = Environment.time self + 1
      ∧ Environment.pending_orders r.1 = []
      ∧ Environment.trade_log r.1
        = Environment.trade_log self ++ Environment.r_trades res
      ∧ Forall (λ t, Trade.time t = Some (Environment.time self + 1))
          (Environment.r_trades res).
Proof.
  unfold Environment.tick.
  destruct (process_orders_frame fresh
              (Environment.set_time (Environment.time self + 1) self))
    as (Ht & Hi & Hf & Hret & Hraise).
  destruct (Environment.process_orders _ _) as [self' [trades|e|]];
    simpl in *; [| |done].
  - destruct (Hret trades eq_refl) as (Hp & Hl & Hst).
    split_and!; try done.
    intros res [= <-]. simpl. by split_and!.
  - by split_and!.
Qed.

(** ** C7: the tick counter *)

(** C7, as stated, fails: [tick] is called with the counter at 0 and the
    trade it produces is stamped 1, not 0. *)
Lemma tick_stamp_counterexample :
  Environment.time (example_submitted 100) = 0
  ∧ ∃ res trade,
      (Environment.tick example_fresh (example_submitted 100)).2 = Ret res
      ∧ Environment.r_trades res = [trade]
      ∧ Trade.time trade = Some 1.
Proof. split; [done|]. eexists _, _. vm_compute. split_and!; reflexivity. Qed.

(** C7, amended: if the tick counter equals [t] when [tick] is called, the
    counter is advanced to [t+1] as the first step, before matching and
    settlement (it is [t+1] afterwards whether [tick] returns or raises),
    and every trade produced by the call is stamped with [t+1], the number
    that [tick] also returns. *)
Theorem tick_advances_then_stamps (fresh : nat → string * Z)
    (self : Environment.t) :
  let t := Environment.time self in
  let r := Environment.tick fresh self in
  Environment.time r.1 = t + 1
  ∧ ∀ res, r.2 = Ret res →
      Environment.r_time res = t + 1
      ∧ Forall (λ trade, Trade.time trade = Some (t + 1))
          (Environment.r_trades res).
Proof.
  intros t r. destruct (tick_frame fresh self) as (Ht & _ & Hres).
  split; [exact Ht|]. intros res Hr.
  destruct (Hres res Hr) as (? & _ & _ & ?). done.
Qed.

(** ** C4: the end-to-end example *)

(** C4, as stated, fails: the trade is priced at 100, the price of the sell
    order, which is processed second, not at 101. *)
Lemma end_to_end_counterexample :
  ∃ res trade,
    (Environment.tick example_fresh (example_submitted 100)).2 = Ret res
    ∧ Environment.r_trades res = [trade]
    ∧ Trade.price trade ≠ 101.
Proof. eexists _, _. vm_compute. split_and!; [reflexivity..|done]. Qed.

(** C4, amended: starting from an empty book for instrument "X",
    submitting (buy, price 101, qty 5, participant A) then (sell, price 100,
    qty 5, participant B) and calling [tick] produces exactly one trade,
    with price 100 (the price of the order processed second), volume 5,
    buyer A, seller B; afterwards A holds +5 of X and B holds -5, A's cash
    is the starting balance less 5 x 100 and B's is the starting balance
    plus 5 x 100 (the doubles 999500.0 and 1000500.0: nothing is rounded
    here). *)
Theorem end_to_end_example (fresh : nat → string * Z) (initial_price : Z) :
  let r := Environment.tick fresh (example_submitted initial_price) in
  ∃ res,
    r.2 = Ret res
    ∧ Environment.r_trades res
      = [Trade.mk 100 5 "X" "A" "B" (fresh 0%nat).1 (fresh 1%nat).1 (Some 1)]
    ∧ Environment.agent_accounts r.1 !! "A"
      = Some (Account.mk (Float.of_int (1000000 - 5 * 100)) {[ "X" := 5 ]})
    ∧ Environment.agent_accounts r.1 !! "B"
      = Some (Account.mk (Float.of_int (1000000 + 5 * 100))
                {[ "X" := -5 ]}).
Proof.
  intros r. eexists. subst r. vm_compute. split_and!; reflexivity.
Qed.

(** ** C3: [submit_order] and unknown instruments *)

(** C3, as stated, fails: the environment has the instrument "X" only, and
    a PLACE_ORDER request for "Y" is acknowledged as queued and stands in
    the pending queue afterwards. *)
Lemma submit_order_validation_counterexample :
  Environment.instruments (example_env 100) !! "Y" = None
  ∧ ∃ env',
      MarketServer.process_message unknown_symbol_message None
        (example_env 100) = (env', Ret (MarketServer.ACK "queued"))
      ∧ Environment.pending_orders env'
        = [OrderRequest.mk "Y" 10 1 "buy" (Some "limit") (Some "A")].
Proof. split; [done|]. eexists. split; reflexivity. Qed.

(** C3, amended: [submit_order] does not look at the instrument symbol:
    every order request, one that names an unknown instrument symbol
    included, is appended to the end of the pending queue and nothing else
    changes; [process_message] acknowledges every PLACE_ORDER message that
    carries a symbol, a price, a volume and a side as queued, whatever the
    symbol. *)
Theorem submit_order_queues_unvalidated (order : OrderRequest.t)
    (env : Environment.t) :
  let env' := Environment.submit_order order env in
  Environment.pending_orders env' = Environment.pending_orders env ++ [order]
  ∧ Environment.instruments env' = Environment.instruments env
  ∧ Environment.agent_accounts env' = Environment.agent_accounts env
  ∧ Environment.time env' = Environment.time env
  ∧ Environment.trade_log env' = Environment.trade_log env
  ∧ ∀ (msg : MarketServer.Message) (addr : option string) sym p v sd,
      MarketServer.type msg = Some "PLACE_ORDER" →
      MarketServer.symbol msg = Some sym →
      MarketServer.price msg = Some p →
      MarketServer.volume msg = Some v →
      MarketServer.side msg = Some sd →
      ∃ order',
        OrderRequest.symbol order' = sym
        ∧ MarketServer.process_message msg addr env
          = (Environment.submit_order order' env,
             Ret (MarketServer.ACK "queued")).
Proof.
  intros env'. split_and!; try done.
  intros msg addr sym p v sd Ht Hs Hp Hv Hsd.
  unfold MarketServer.process_message. rewrite Ht, Hs, Hp, Hv, Hsd.
  rewrite decide_True by done. eexists. split; [|reflexivity]. done.
Qed.

(** What happens to such a request: the tick that reaches it raises, with
    the clock already advanced and the queue as it was. *)
Lemma tick_unknown_symbol (fresh : nat → string * Z) (order : OrderRequest.t)
    (pending : list OrderRequest.t) (self : Environment.t) :
  Environment.pending_orders self = order :: pending →
  Environment.instruments self !! OrderRequest.symbol order = None →
  Environment.tick fresh self
  = (Environment.set_time (Environment.time self + 1) self,
     Raise (KeyError (OrderRequest.symbol order))).
Proof.
  intros Hp Hi. unfold Environment.tick, Environment.process_orders. simpl.
  rewrite Hp. simpl. rewrite Hi. done.
Qed.

(** ** The account table *)

Section accounts.
Context (self : Environment.t).

Lemma ensure_has_account (a b : string) :
  has_account a (ensure self a)
  ∧ (has_account b self → has_account b (ensure self a)).
Proof.
  unfold has_account, ensure. case_decide as Hnone; simpl.
  - rewrite !lookup_insert_is_Some. split; [by left|].
    intros Hb. destruct (decide (a = b)); [by left|by right].
  - split; [|done]. by apply not_eq_None_Some.
Qed.


Lemma ensure_position (a b sym : string) :
  Environment.position b sym (ensure self a) = Environment.position b sym self.
Proof.
  unfold Environment.position, ensure. case_decide as Hnone; [|done]. simpl.
  destruct (decide (a = b)) as [<-|Hne].
  - by rewrite lookup_insert_eq, Hnone.
  - by rewrite lookup_insert_ne.
Qed.

Lemma add_cash_has_account (a b : string) (delta : Float.t) :
  has_account b (Environment.add_cash a delta self) ↔ has_account b self.
Proof.
  unfold has_account, Environment.add_cash. simpl.
  apply lookup_alter_is_Some.
Qed.


Lemma add_cash_position (a b sym : string) (delta : Float.t) :
  Environment.position b sym (Environment.add_cash a delta self)
  = Environment.position b sym self.
Proof.
  unfold Environment.position, Environment.add_cash. simpl.
  destruct (decide (a = b)) as [<-|Hne].
  - rewrite lookup_alter_eq.
    by destruct (Environment.agent_accounts self !! a).
  - by rewrite lookup_alter_ne.
Qed.

Lemma sub_cash_has_account (a b : string) (delta : Float.t) :
  has_account b (Environment.sub_cash a delta self) ↔ has_account b self.
Proof.
  unfold has_account, Environment.sub_cash. simpl.
  apply lookup_alter_is_Some.
Qed.


Lemma sub_cash_position (a b sym : string) (delta : Float.t) :
  Environment.position b sym (Environment.sub_cash a delta self)
  = Environment.position b sym self.
Proof.
  unfold Environment.position, Environment.sub_cash. simpl.
  destruct (decide (a = b)) as [<-|Hne].
  - rewrite lookup_alter_eq.
    by destruct (Environment.agent_accounts self !! a).
  - by rewrite lookup_alter_ne.
Qed.

Lemma set_position_has_account (a b sym : string) (v : Z) :
  has_account b (Environment.set_position a sym v self)
  ↔ has_account b self.
Proof.
  unfold has_account, Environment.set_position. simpl.
  apply lookup_alter_is_Some.
Qed.


Lemma set_position_position (a b sym sym' : string) (v : Z) :
  has_account a self →
  Environment.position b sym' (Environment.set_position a sym v self)
  = if decide (a = b ∧ sym = sym') then v
    else Environment.position b sym' self.
Proof.
  unfold has_account, Environment.position, Environment.set_position.
  simpl. intros [acc Ha].
  destruct (decide (a = b)) as [<-|Hne].
  - rewrite lookup_alter_eq, Ha. simpl.
    destruct (decide (sym = sym')) as [<-|Hs].
    + rewrite lookup_insert_eq, decide_True; done.
    + rewrite lookup_insert_ne, decide_False; [done|tauto|done].
  - rewrite lookup_alter_ne, decide_False; [done|tauto|done].
Qed.

End accounts.

(** [update_accounts], statement by statement. *)
Lemma update_accounts_steps (trade : Trade.t) (self : Environment.t) :
  let buyer := Trade.buyer trade in
  let seller := Trade.seller trade in
  let symbol := Trade.symbol trade in
  let volume := Trade.volume trade in
  let value := Environment.trade_value trade in
  let s1 := ensure (ensure self buyer) seller in
  let s2 := Environment.sub_cash buyer value s1 in
  let s3 :=
    Environment.set_position buyer symbol
      (Environment.position buyer symbol s2 + volume) s2 in
  let s4 := Environment.add_cash seller value s3 in
  Environment.update_accounts trade self
  = Environment.set_position seller symbol
      (Environment.position seller symbol s4 - volume) s4.
Proof. reflexivity. Qed.

Lemma update_accounts_has_account (trade : Trade.t) (self : Environment.t)
    (a : string) :
  (a = Trade.buyer trade ∨ a = Trade.seller trade ∨ has_account a self) →
  has_account a (Environment.update_accounts trade self).
Proof.
  rewrite update_accounts_steps. cbv zeta. intros Ha.
  apply set_position_has_account, add_cash_has_account,
    set_position_has_account, sub_cash_has_account.
  destruct (ensure_has_account self (Trade.buyer trade) a) as [Hb Hkeep].
  destruct (ensure_has_account (ensure self (Trade.buyer trade))
              (Trade.seller trade) a) as [Hs Hkeep'].
  destruct Ha as [->|[->|Ha]]; auto.
Qed.

(** ** C6: settlement *)


(** Cash is a [float], and the two updates of a trade of a participant
    with itself need not cancel: with the starting cash of 1000000.0 and a
    trade of value 1e22, the subtraction rounds to -1e22 and the addition
    gives 0.0. *)
Example settlement_rounds_self_trade :
  let trade := Trade.mk (10 ^ 22) 1 "X" "A" "A" "u1" "u2" (Some 1) in
  let self := Environment.add_account "A" (example_env 100) in
  cash_of "A" self = Float.of_int 1000000
  ∧ cash_of "A" (Environment.update_accounts trade self) = Float.of_int 0.
Proof. split; vm_compute; reflexivity. Qed.

(** A buyer with 1000000.0 who pays 10^17 + 1 is left with
    -99999999999000000.0: the [int] volume is rounded when it is converted,
    as is the difference. *)
Example settlement_rounds_value :
  let trade := Trade.mk 1 (10 ^ 17 + 1) "X" "A" "B" "u1" "u2" (Some 1) in
  cash_of "A" (Environment.update_accounts trade (example_env 100))
  = Float.of_int (-99999999999000000).
Proof. vm_compute. reflexivity. Qed.



(** ** C8: where accounts are created *)

(** C8, as stated, fails: "Z" has no account; [get_state] with "Z" raises
    instead of returning a new account, and a submission by "Z" creates
    none. *)
Lemma lazy_account_counterexample :
  Environment.agent_accounts (example_env 100) !! "Z" = None
  ∧ Environment.get_state (Some "Z") (example_env 100) = Raise (KeyError "Z")
  ∧ Environment.agent_accounts
      (Environment.submit_order
         (OrderRequest.mk "X" 1 1 "buy" None (Some "Z")) (example_env 100))
      !! "Z" = None.
Proof. split_and!; reflexivity. Qed.

(** C8, amended: neither [submit_order] nor [get_state] creates an account:
    for a participant id without an account, a submission leaves it without
    one and [get_state] (with a non-empty id) raises a key error.  An
    account with the fixed starting cash and no holdings is what
    [add_account] creates, and settlement calls it for a buyer or a seller
    that has none. *)
Theorem accounts_created_by_add_account (agent_id : string)
    (order : OrderRequest.t) (trade : Trade.t) (self : Environment.t) :
  Environment.agent_accounts self !! agent_id = None →
  agent_id ≠ "" →
  Environment.get_state (Some agent_id) self = Raise (KeyError agent_id)
  ∧ Environment.agent_accounts (Environment.submit_order order self)
      !! agent_id = None
  ∧ Environment.agent_accounts (Environment.add_account agent_id self)
      !! agent_id = Some (Account.mk Environment.starting_cash ∅)
  ∧ (Trade.buyer trade = agent_id ∨ Trade.seller trade = agent_id →
     has_account agent_id (Environment.update_accounts trade self)).
Proof.
  intros Hnone Hne. split_and!.
  - unfold Environment.get_state. by rewrite decide_False, Hnone.
  - done.
  - simpl. apply lookup_insert_eq.
  - intros [<-|<-]; apply update_accounts_has_account; auto.
Qed.

(** "Z" in the environment of the example, which has no accounts. *)
Lemma accounts_created_by_add_account_witness :
  let self := example_env 100 in
  let order := OrderRequest.mk "X" 1 1 "buy" None (Some "Z") in
  let trade := Trade.mk 100 5 "X" "Z" "B" "u1" "u2" (Some 1) in
  Environment.agent_accounts self !! "Z" = None ∧ "Z" ≠ ""
  ∧ Environment.get_state (Some "Z") self = Raise (KeyError "Z")
  ∧ Environment.agent_accounts (Environment.submit_order order self)
      !! "Z" = None
  ∧ Environment.agent_accounts (Environment.add_account "Z" self) !! "Z"
    = Some (Account.mk Environment.starting_cash ∅)
  ∧ (Trade.buyer trade = "Z" ∨ Trade.seller trade = "Z" →
     has_account "Z" (Environment.update_accounts trade self)).
Proof.
  intros self order trade.
  assert (H1 : Environment.agent_accounts self !! "Z" = None) by reflexivity.
  assert (H2 : "Z" ≠ "") by discriminate.
  split; [exact H1|]. split; [exact H2|].
  exact (accounts_created_by_add_account "Z" order trade self H1 H2).
Defined.

(** ** C10: what [reset] leaves alone *)

Lemma filter_ext_Forall {A} (P Q : A → Prop) `{!∀ x, Decision (P x)}
    `{!∀ x, Decision (Q x)} (l : list A) :
  Forall (λ x, P x ↔ Q x) l → filter P l = filter Q l.
Proof.
  induction 1 as [|x l Hx _ IH]; [done|].
  rewrite !filter_cons, IH.
  destruct (decide (P x)), (decide (Q x)); tauto.
Qed.

(** C10: [reset] leaves the pending order queue and every instrument's
    last traded price as they are (and the accounts too).  The first [tick]
    after the reset therefore runs its loop over the requests that were
    queued before the reset and empties the queue, and after it each
    instrument has the price of the last trade of that tick in its symbol,
    or, when the tick traded nothing in it, still the price it had before
    the reset. *)
Theorem reset_keeps_queue_and_prices (fresh : nat → string * Z)
    (self : Environment.t) :
  let self0 := (Environment.reset self).1 in
  Environment.pending_orders self0 = Environment.pending_orders self
  ∧ Instrument.price <$> Environment.instruments self0
    = Instrument.price <$> Environment.instruments self
  ∧ Environment.agent_accounts self0 = Environment.agent_accounts self
  ∧ ∀ res, (Environment.tick fresh self0).2 = Ret res →
      (Environment.process_loop fresh 0 (Environment.pending_orders self) []
         (Environment.set_time 1 self0)).2 = Ret (Environment.r_trades res)
      ∧ Environment.pending_orders (Environment.tick fresh self0).1 = []
      ∧ ∀ sym,
          Instrument.price
            <$> Environment.instruments (Environment.tick fresh self0).1 !! sym
          = match last (filter (λ t, Trade.symbol t = sym)
                          (Environment.r_trades res)) with
            | Some trade =>
                (λ _, Trade.price trade)
                  <$> Environment.instruments self !! sym
            | None =>
                Instrument.price <$> Environment.instruments self !! sym
            end.
Proof.
  intros self0.
  assert (Hprice : Instrument.price <$> Environment.instruments self0
                   = Instrument.price <$> Environment.instruments self).
  { unfold self0. simpl. rewrite <- map_fmap_compose. done. }
  split; [done|]. split; [exact Hprice|]. split; [done|].
  intros res. unfold Environment.tick, Environment.get_state.
  change (Environment.time self0 + 1) with 1.
  set (self1 := Environment.set_time 1 self0).
  destruct (process_orders_frame fresh self1) as (Ht & Hi & _ & Hret & _).
  revert Ht Hi Hret. unfold Environment.process_orders.
  change (Environment.pending_orders self1)
    with (Environment.pending_orders self).
  destruct (Environment.process_loop fresh 0 _ [] self1)
    as [self2 [trades|e|]]; [|done|done].
  cbn [fst snd].
  set (self3 := if decide (trades = []) then _ else _).
  intros Ht Hi Hret [= <-]. cbn [Environment.r_trades].
  destruct (Hret trades eq_refl) as (Hp & Hl & Hst).
  split; [done|]. split; [done|].
  intros sym. cbn [fst]. rewrite update_prices_lookup.
  rewrite Hl, Ht. change (Environment.trade_log self1) with (@nil Trade.t).
  change (Environment.time self1) with 1 in *. rewrite app_nil_l.
  rewrite (filter_ext_Forall _ (λ t, Trade.symbol t = sym)).
  2:{ eapply Forall_impl; [exact Hst|]. simpl. intros t Htime. tauto. }
  assert (Hsym : Instrument.price <$> Environment.instruments self3 !! sym
                 = Instrument.price <$> Environment.instruments self !! sym).
  { rewrite <- !lookup_fmap. rewrite Hi. unfold self1. simpl.
    unfold self0 in Hprice. simpl in Hprice. by rewrite Hprice. }
  destruct (last _) as [trade|]; [|by rewrite <- Hsym, <- option_fmap_compose].
  rewrite <- option_fmap_compose.
  destruct (Environment.instruments self3 !! sym) as [i3|];
    destruct (Environment.instruments self !! sym) as [i0|]; done.
Qed.



(** ** The repository's tests, on the model *)

(** [test_add_and_store_orders] *)
Example test_add_and_store_orders :
  let b := place_all [mkCall 100 5 "buy" "limit" "A1" "u1" 1;
                      mkCall 101 5 "sell" "limit" "A2" "u2" 2]
             (OrderBook.init None) in
  length (OrderBook.bids b) = 1%nat ∧ length (OrderBook.asks b) = 1%nat
  ∧ Order.price <$> head (OrderBook.bids b) = Some 100
  ∧ Order.price <$> head (OrderBook.asks b) = Some 101.
Proof. vm_compute. done. Qed.

(** [test_price_time_priority] *)
Example test_price_time_priority :
  let b := place_all [mkCall 100 5 "buy" "limit" "A1" "u1" 1;
                      mkCall 100 5 "buy" "limit" "A2" "u2" 2]
             (OrderBook.init None) in
  Order.agent_id <$> OrderBook.best_bid b = Some "A1".
Proof. vm_compute. done. Qed.

(** [test_partial_fill]: the buy for 10 meets the sell for 4 when the sell
    is placed, and rests with 6. *)
Example test_partial_fill :
  OrderBook.place_order 100 4 "sell" "limit" "Seller" "u2" 2
    (place_all [mkCall 101 10 "buy" "limit" "Buyer" "u1" 1]
       (OrderBook.init None))
  = (OrderBook.mk "UNKNOWN"
       [Order.mk "u1" "Buyer" "buy" 101 6 "limit" 1] []
       [Trade.mk 100 4 "UNKNOWN" "Buyer" "Seller" "u1" "u2" None] None,
     Ret [Trade.mk 100 4 "UNKNOWN" "Buyer" "Seller" "u1" "u2" None]).
Proof. vm_compute. done. Qed.

(** [test_best_bid_ask_and_spread] *)
Example test_best_bid_ask_and_spread :
  let b := place_all [mkCall 99 1 "buy" "limit" "A1" "u1" 1;
                      mkCall 100 1 "buy" "limit" "A2" "u2" 2;
                      mkCall 101 1 "sell" "limit" "A3" "u3" 3;
                      mkCall 102 1 "sell" "limit" "A3" "u4" 4]
             (OrderBook.init None) in
  Order.price <$> OrderBook.best_bid b = Some 100
  ∧ Order.price <$> OrderBook.best_ask b = Some 101.
Proof. vm_compute. done. Qed.

(** [test_price_updates_after_trades]: two orders placed without a
    participant trade at 99, the price of the incoming sell. *)
Example test_price_updates_after_trades :
  let inst := Instrument.init "AAPL" 100 in
  let book := place_all [mkCall 100 5 "buy" "limit" "" "u1" 1;
                         mkCall 99 5 "sell" "limit" "" "u2" 2]
                (Instrument.order_book inst) in
  Instrument.price
    (Instrument.update_price (Instrument.set_order_book book inst)) = 99.
Proof. vm_compute. done. Qed.

(** A market buy against an empty ask side trades nothing and leaves
    nothing resting. *)
Example market_order_non_resting :
  OrderBook.place_order 0 5 "buy" "market" "A" "u1" 1 (OrderBook.init None)
  = (OrderBook.init None, Ret []).
Proof. vm_compute. done. Qed.

(** A's buy for 5 at 100 on [skip_book]: A's ask at 99 is skipped and put
    back, B's ask at 100 is filled for 4, and the last unit of the buy
    rests above A's own ask. *)
Example skip_and_restore :
  OrderBook.place_order 100 5 "buy" "limit" "A" "u3" 3 skip_book
  = (OrderBook.mk "UNKNOWN"
       [Order.mk "u3" "A" "buy" 100 1 "limit" 3]
       [Order.mk "u1" "A" "sell" 99 3 "limit" 1]
       [Trade.mk 100 4 "UNKNOWN" "A" "B" "u3" "u2" None] None,
     Ret [Trade.mk 100 4 "UNKNOWN" "A" "B" "u3" "u2" None]).
Proof. vm_compute. done. Qed.

(** A market buy for 3 takes 3 of the 5 asked at 101, at 101, and the rest
    of the ask stays at the head of its side. *)
Example market_order_partial :
  OrderBook.place_order 0 3 "buy" "market" "T" "u2" 2
    (place_all [mkCall 101 5 "sell" "limit" "M" "u1" 1] (OrderBook.init None))
  = (OrderBook.mk "UNKNOWN" []
       [Order.mk "u1" "M" "sell" 101 2 "limit" 1]
       [Trade.mk 101 3 "UNKNOWN" "T" "M" "u2" "u1" None] None,
     Ret [Trade.mk 101 3 "UNKNOWN" "T" "M" "u2" "u1" None]).
Proof. vm_compute. done. Qed.

(** * Further properties of the order book *)

(** ** Quantities *)

Lemma total_quantity_app (l k : list Order.t) :
  total_quantity (l ++ k) = total_quantity l + total_quantity k.
Proof. induction l as [|o l IH]; simpl; lia. Qed.

Lemma total_quantity_heappush (heap : list Order.t) (item : Order.t) :
  total_quantity (heappush heap item)
  = Order.quantity item + total_quantity heap.
Proof.
  induction heap as [|o heap IH]; simpl; [done|].
  case_decide; simpl; lia.
Qed.

Lemma total_quantity_nonneg (l : list Order.t) :
  Forall (λ o, 0 < Order.quantity o) l → 0 ≤ total_quantity l.
Proof. induction 1; simpl; lia. Qed.

Lemma sum_volume_app (l k : list Trade.t) :
  sum_volume (l ++ k) = sum_volume l + sum_volume k.
Proof. induction l as [|t l IH]; simpl; lia. Qed.

Lemma add_costs_app (total_cost : Float.t) (l k : list Trade.t) :
  add_costs total_cost (l ++ k) = add_costs (add_costs total_cost l) k.
Proof. apply foldl_app. Qed.

(** The matching loop moves quantity from the two orders into the trade:
    what the incoming order loses and what the opposite side loses is the
    volume traded; orders with something left stay positive. *)
Lemma match_run_quantities sym tick incoming opposite skipped trades final :
  match_run sym tick incoming opposite skipped trades final →
  ∃ new,
    final.2 = trades ++ new
    ∧ Order.quantity final.1.1.1 = Order.quantity incoming - sum_volume new
    ∧ total_quantity (final.1.2 ++ final.1.1.2)
      = total_quantity (skipped ++ opposite) - sum_volume new
    ∧ (Forall (λ o, 0 < Order.quantity o) (skipped ++ opposite) →
       Forall (λ o, 0 < Order.quantity o) (final.1.2 ++ final.1.1.2)
       ∧ 0 ≤ sum_volume new).
Proof.
  induction 1 as [| |inc best rest sk tr final Hq Hsame _ IH|
                  |inc best rest sk tr final Hq Hsame Hc vol Hv _ IH
                  |inc best rest sk tr Hq Hsame Hc vol Hv]; simpl.
  - exists []. rewrite app_nil_r. simpl. split_and!; try done; lia.
  - exists []. rewrite app_nil_r. simpl. split_and!; try done; lia.
  - destruct IH as (new & Htr & Hinc & Htot & Hpos). exists new.
    rewrite <- app_assoc in Htot, Hpos. by split_and!.
  - exists []. rewrite app_nil_r. simpl. split_and!; try done; lia.
  - destruct IH as (new & Htr & Hinc & Htot & Hpos).
    eexists (_ :: new). rewrite <- app_assoc in Htr.
    split; [exact Htr|]. simpl in *.
    rewrite !total_quantity_app in *. simpl. fold vol.
    split; [lia|]. split; [lia|].
    intros HF. apply Forall_app in HF as [Hsk Hbr].
    apply Forall_cons in Hbr as [Hb Hr].
    destruct Hpos as [Hpos Hsum]; [by apply Forall_app|].
    split; [done|]. subst vol. lia.
  - eexists [_]. split; [done|]. simpl.
    rewrite !total_quantity_app, total_quantity_heappush. simpl. fold vol.
    split; [lia|]. split; [lia|].
    intros HF. apply Forall_app in HF as [Hsk Hbr].
    apply Forall_cons in Hbr as [Hb Hr].
    split; [|subst vol; lia].
    apply Forall_app. split; [done|]. apply heappush_Forall. by split.
Qed.

Lemma foldl_heappush_perm (opposite skipped : list Order.t) :
  foldl heappush opposite skipped ≡ₚ skipped ++ opposite.
Proof.
  revert opposite. induction skipped as [|s skipped IH]; intros opposite;
    simpl; [done|].
  rewrite IH, heappush_perm. by rewrite Permutation_middle.
Qed.

Lemma total_quantity_perm (l k : list Order.t) :
  l ≡ₚ k → total_quantity l = total_quantity k.
Proof. induction 1; simpl; lia. Qed.

(** The loop of [_execute_market_order], summed up: its trades are fills of
    the order against a run of the opposite side taken from the front, at
    the resting prices; the counters hold the volume and the value traded;
    quantity is moved, not made.  When the resting quantities are positive
    the order is filled as far as the side reaches. *)
Lemma market_loop_spec fuel sym tick order opposite trades total_filled
    total_cost final :
  OrderBook.market_loop fuel sym tick order opposite trades total_filled
    total_cost = Some final →
  ∃ new matched,
    final.1.1.2 = trades ++ new
    ∧ matched `sublist_of` opposite
    ∧ market_fills sym tick order new matched
    ∧ final.1.1.1.1
      = Order.set_quantity (Order.quantity order - sum_volume new) order
    ∧ final.1.2 = total_filled + sum_volume new
    ∧ final.2 = add_costs total_cost new
    ∧ total_quantity final.1.1.1.2
      = total_quantity opposite - sum_volume new
    ∧ (Order.quantity order ≤ 0 → new = [] ∧ final.1.1.1.2 = opposite)
    ∧ (Forall (λ o, 0 < Order.quantity o) opposite →
       Forall (λ o, 0 < Order.quantity o) final.1.1.1.2
       ∧ (0 ≤ Order.quantity order →
          sum_volume new
          = Z.min (Order.quantity order) (total_quantity opposite))).
Proof.
  revert order opposite trades total_filled total_cost final.
  induction fuel as [|fuel IH];
    intros order opposite trades total_filled total_cost final; [done|].
  assert (Hstop : ∀ opp : list Order.t,
    (Order.quantity order ≤ 0 ∨ opp = []) →
    ∃ new matched,
      (order, opp, trades, total_filled, total_cost).1.1.2 = trades ++ new
      ∧ matched `sublist_of` opp
      ∧ market_fills sym tick order new matched
      ∧ order
        = Order.set_quantity (Order.quantity order - sum_volume new) order
      ∧ total_filled = total_filled + sum_volume new
      ∧ total_cost = add_costs total_cost new
      ∧ total_quantity opp = total_quantity opp - sum_volume new
      ∧ (Order.quantity order ≤ 0 → new = [] ∧ opp = opp)
      ∧ (Forall (λ o, 0 < Order.quantity o) opp →
         Forall (λ o, 0 < Order.quantity o) opp
         ∧ (0 ≤ Order.quantity order →
            sum_volume new
            = Z.min (Order.quantity order) (total_quantity opp)))).
  { intros opp Hstop. exists [], []. simpl.
    rewrite app_nil_r, Z.sub_0_r, Order_set_quantity_id, !Z.add_0_r.
    split; [done|]. split; [apply sublist_nil_l|].
    do 4 (split; [done|]). split; [lia|]. split; [done|].
    intros HF. split; [done|]. intros Hnn.
    pose proof (total_quantity_nonneg opp HF).
    destruct Hstop as [?| ->]; simpl; lia. }
  simpl. case_decide as Hq.
  2:{ intros [= <-]. apply Hstop. left. lia. }
  destruct opposite as [|best rest]; simpl.
  { intros [= <-]. apply Hstop. by right. }
  clear Hstop.
  set (vol := Z.min (Order.quantity order) (Order.quantity best)).
  intros Hrun.
  apply IH in Hrun
    as (new & matched & Htr & Hsub & Hf & Hord & Htf & Htc & Htot & Hzero
        & Hpos).
  simpl in *.
  destruct (decide (0 < Order.quantity best - vol)) as [Hpush|Hpush].
  - (* the order is used up; the partly filled order goes back *)
    destruct Hzero as [-> Hopp]; [subst vol; lia|].
    destruct matched as [|? ?]; [|done].
    exists [OrderBook.new_trade sym tick (Order.price best) vol order best],
      [best].
    rewrite <- app_assoc in Htr. simpl in *.
    rewrite Hopp in *. rewrite ?total_quantity_heappush in *. simpl in *.
    split; [done|]. split; [apply sublist_skip, sublist_nil_l|].
    split; [done|].
    split; [rewrite Hord; unfold Order.set_quantity; simpl; f_equal; lia|].
    split; [lia|]. split; [done|]. split; [lia|]. split; [lia|].
    intros HF. apply Forall_cons in HF as [Hb Hr].
    split; [apply heappush_Forall; by split|].
    intros _. pose proof (total_quantity_nonneg rest Hr).
    subst vol. lia.
  - exists (OrderBook.new_trade sym tick (Order.price best) vol order best
            :: new), (best :: matched).
    rewrite <- app_assoc in Htr. simpl in *.
    split; [done|]. split; [by apply sublist_skip|].
    split; [done|].
    split; [rewrite Hord; unfold Order.set_quantity; simpl; f_equal; lia|].
    split; [lia|]. split; [done|]. split; [lia|]. split; [lia|].
    intros HF. apply Forall_cons in HF as [Hb Hr].
    destruct (Hpos Hr) as [Hpos' Hsum]. split; [done|].
    intros Hnn. rewrite Hsum by (subst vol; lia).
    pose proof (total_quantity_nonneg rest Hr). subst vol. lia.
Qed.

(** ** Market orders *)

Lemma market_fills_length sym tick order trades matched :
  market_fills sym tick order trades matched →
  length trades = length matched.
Proof.
  revert order matched.
  induction trades as [|t trades IH]; intros order [|r matched]; simpl;
    try done.
  intros (_ & _ & _ & Hf). f_equal. by eapply IH.
Qed.

Lemma fills_length sym tick incoming trades matched :
  fills sym tick incoming trades matched → length trades = length matched.
Proof.
  revert incoming matched.
  induction trades as [|t trades IH]; intros incoming [|r matched]; simpl;
    try done.
  intros (_ & _ & _ & _ & Hf). f_equal. by eapply IH.
Qed.



(** A market order for 3 that buys 1 at 1 and 2 at 2 costs 5.0, and its
    average price is the double nearest to 5/3, which is
    7505999378950827 x 2^-52. *)
Example market_order_average_rounds :
  let b := place_all [mkCall 1 1 "sell" "limit" "M" "u1" 1;
                      mkCall 2 2 "sell" "limit" "M" "u2" 2]
             (OrderBook.init None) in
  let trades := [Trade.mk 1 1 "UNKNOWN" "T" "M" "u3" "u1" None;
                 Trade.mk 2 2 "UNKNOWN" "T" "M" "u3" "u2" None] in
  fst <$> OrderBook._execute_market_order
            (Order.mk "u3" "T" "buy" 0 3 "market" 3) b
  = Some (OrderBook.mkMarketResult trades 3 0
            (Some (S754_finite false 7505999378950827 (-52))))
  ∧ sum_cost trades = Float.of_int 5.
Proof. split; vm_compute; reflexivity. Qed.



(** ** Limit orders *)

(** X4: a limit order moves quantity, it neither makes nor loses any.  The
    opposite side loses exactly the volume of the returned trades; the
    order's own side gains what is left of the order when that is positive,
    and nothing otherwise; the trades are appended to the book's buffer. *)
Theorem limit_order_conserves_quantity (price volume : Z)
    (side agent_id order_id : string) (timestamp : Z) (b : OrderBook.t) :
  let opposite (b : OrderBook.t) :=
    if decide (side = "buy") then OrderBook.asks b else OrderBook.bids b in
  let own (b : OrderBook.t) :=
    if decide (side = "buy") then OrderBook.bids b else OrderBook.asks b in
  let r := OrderBook.place_order price volume side "limit" agent_id order_id
             timestamp b in
  ∃ trades,
    r.2 = Ret trades
    ∧ total_quantity (opposite r.1)
      = total_quantity (opposite b) - sum_volume trades
    ∧ total_quantity (own r.1)
      = total_quantity (own b) + Z.max 0 (volume - sum_volume trades)
    ∧ OrderBook.trades r.1 = OrderBook.trades b ++ trades.
Proof.
  intros opposite own r. subst r.
  unfold OrderBook.place_order, OrderBook._place_limit_order. simpl.
  set (incoming := Order.mk order_id agent_id side price volume "limit"
                     timestamp).
  destruct (_match_against_run incoming b)
    as (inc' & opp' & sk & tr & Hrun & ->).
  destruct (match_run_quantities _ _ _ _ _ _ _ Hrun)
    as (new & Htr & Hinc & Htot & _).
  destruct (match_run_incoming _ _ _ _ _ _ _ Hrun) as [q Hq].
  simpl in *. subst tr inc'. simpl in Hinc. exists new.
  assert (Hfold : total_quantity (foldl heappush opp' sk)
                  = total_quantity (sk ++ opp')).
  { apply total_quantity_perm, foldl_heappush_perm. }
  rewrite Htot in Hfold.
  unfold own, opposite, OrderBook._add_to_book. simpl.
  destruct (decide (0 < q)) as [Hrest|Hrest];
    destruct (decide (side = "buy")) as [Hside|Hside]; simpl;
    rewrite ?total_quantity_heappush; simpl;
    (split; [done|]); (split; [lia|]); (split; [lia|done]).
Qed.

(** ** What rests in a book *)

Lemma place_order_resting_ok (price volume : Z)
    (side order_type agent_id order_id : string) (timestamp : Z)
    (b : OrderBook.t) :
  resting_ok b →
  resting_ok (OrderBook.place_order price volume side order_type agent_id
                order_id timestamp b).1.
Proof.
  unfold resting_ok. intros Hok.
  assert (Hsplit : ∀ l : list Order.t,
    Forall (λ o, 0 < Order.quantity o ∧ Order.order_type o = "limit") l
    ↔ Forall (λ o, 0 < Order.quantity o) l
      ∧ Forall (λ o, Order.order_type o = "limit") l).
  { intros l. rewrite !Forall_forall. split.
    - intros H. split; intros o Ho; by destruct (H o Ho).
    - intros [H1 H2] o Ho. split; auto. }
  apply Forall_app in Hok as [Hbids Hasks].
  unfold OrderBook.place_order.
  destruct (decide (order_type = "limit")) as [->|Hl].
  - unfold OrderBook._place_limit_order.
    set (incoming := Order.mk order_id agent_id side price volume "limit"
                       timestamp).
    destruct (_match_against_run incoming b)
      as (inc' & opp' & sk & tr & Hrun & ->).
    destruct (match_run_incoming _ _ _ _ _ _ _ Hrun) as [q Hq].
    simpl in Hq. subst inc'.
    assert (Hopp : ∀ opp : list Order.t,
      (if decide (Order.side incoming = "buy")
       then OrderBook.asks b else OrderBook.bids b) = opp →
      Forall (λ o, 0 < Order.quantity o ∧ Order.order_type o = "limit") opp →
      Forall (λ o, 0 < Order.quantity o ∧ Order.order_type o = "limit")
        (foldl heappush opp' sk)).
    { intros opp Heq [Hp Ht]%Hsplit. rewrite Heq in Hrun.
      rewrite foldl_heappush_perm. apply Hsplit. split.
      - by destruct (match_run_quantities _ _ _ _ _ _ _ Hrun)
          as (? & _ & _ & _ & [? _]).
      - eapply (match_run_keeps (λ o, Order.order_type o = "limit"));
          [|exact Hrun|done]. by intros ? []. }
    simpl in *.
    destruct (decide (0 < q)) as [Hrest|Hrest];
      destruct (decide (side = "buy")) as [Hside|Hside]; simpl;
      unfold OrderBook._add_to_book; simpl;
      rewrite ?(decide_True (P := side = "buy")) by done;
      rewrite ?(decide_False (P := side = "buy")) by done; simpl;
      apply Forall_app; rewrite ?heappush_Forall; simpl; eauto.
  - destruct (decide (order_type = "market")) as [->|Hm]; simpl;
      [|by apply Forall_app].
    unfold OrderBook._place_market_order, OrderBook._execute_market_order.
    match goal with
    | |- context [OrderBook.market_loop ?f ?s ?t ?o ?opp ?tr ?a ?c] =>
        destruct (OrderBook.market_loop f s t o opp tr a c)
          as [[[[[order' opp'] tr'] tf] tc]|] eqn:Hloop
    end; simpl; [|by apply Forall_app].
    destruct (market_loop_spec _ _ _ _ _ _ _ _ _ Hloop)
      as (new & matched & _ & _ & _ & _ & _ & _ & _ & _ & Hpos).
    assert (Hqi : ∀ (q : Z) (o : Order.t),
              Order.order_type o = "limit" →
              Order.order_type (Order.set_quantity q o) = "limit")
      by (by intros ? []).
    pose proof (market_loop_keeps (λ o, Order.order_type o = "limit")
                  _ _ _ _ _ _ _ _ _ Hqi Hloop) as [_ Htype].
    simpl in *.
    destruct (decide (side = "buy")); simpl; apply Forall_app.
    + apply Hsplit in Hasks as [Hp Ht]. split; [done|].
      apply Hsplit. split; [by apply Hpos|by apply Htype].
    + apply Hsplit in Hbids as [Hp Ht]. split; [|done].
      apply Hsplit. split; [by apply Hpos|by apply Htype].
Qed.

Lemma place_all_resting_ok (symbol : option string) (calls : list Call) :
  resting_ok (place_all calls (OrderBook.init symbol)).
Proof.
  assert (Hinit : resting_ok (OrderBook.init symbol))
    by (unfold resting_ok; simpl; constructor).
  revert Hinit. generalize (OrderBook.init symbol).
  induction calls as [|c calls IH]; intros b0 Hok; [done|].
  simpl. apply IH. by apply place_order_resting_ok.
Qed.

(** X5: what rests in a book.  After every sequence of [place_order] calls
    on a new book, every resting order is a limit order with a positive
    quantity (a market order never rests, and neither does a filled order
    or an order for nothing), the bid side holds the orders whose side is
    "buy" and the ask side all others. *)
Theorem resting_orders_invariant (symbol : option string)
    (calls : list Call) :
  let b := place_all calls (OrderBook.init symbol) in
  resting_ok b
  ∧ Forall (λ o, Order.side o = "buy") (OrderBook.bids b)
  ∧ Forall (λ o, Order.side o ≠ "buy") (OrderBook.asks b).
Proof.
  intros b. split.
  - apply place_all_resting_ok.
  - destruct (init_inv symbol) as [Hwf Hcf].
    destruct (place_all_inv calls _ Hwf Hcf) as [(_ & _ & Hb & Ha) _].
    done.
Qed.

(** X6: resting orders of different participants never cross.  After every
    sequence of [place_order] calls on a new book, a resting bid and a
    resting ask with bid price at or above ask price belong to one and the
    same participant, with a non-empty id. *)
Theorem resting_orders_cross_only_within_participant
    (symbol : option string) (calls : list Call) (bid ask : Order.t) :
  let b := place_all calls (OrderBook.init symbol) in
  bid ∈ OrderBook.bids b → ask ∈ OrderBook.asks b →
  Order.price ask ≤ Order.price bid →
  Order.agent_id bid = Order.agent_id ask ∧ Order.agent_id bid ≠ "".
Proof.
  intros b Hbid Hask Hprice.
  destruct (init_inv symbol) as [Hwf Hcf].
  destruct (place_all_inv calls _ Hwf Hcf) as [_ Hfree].
  by apply Hfree.
Qed.

(** The two calls of [self_cross_calls] leave A's bid at 100 and A's ask at
    99 in the book. *)
Lemma resting_orders_cross_only_within_participant_witness :
  let b := place_all self_cross_calls (OrderBook.init None) in
  let bid := Order.mk "u1" "A" "buy" 100 5 "limit" 1 in
  let ask := Order.mk "u2" "A" "sell" 99 5 "limit" 2 in
  bid ∈ OrderBook.bids b ∧ ask ∈ OrderBook.asks b
  ∧ Order.price ask ≤ Order.price bid
  ∧ Order.agent_id bid = Order.agent_id ask ∧ Order.agent_id bid ≠ "".
Proof.
  intros b bid ask.
  assert (Hbid : bid ∈ OrderBook.bids b) by (vm_compute; apply list_elem_of_here).
  assert (Hask : ask ∈ OrderBook.asks b) by (vm_compute; apply list_elem_of_here).
  assert (Hprice : Order.price ask ≤ Order.price bid) by (simpl; lia).
  split; [exact Hbid|]. split; [exact Hask|]. split; [exact Hprice|].
  exact (resting_orders_cross_only_within_participant None self_cross_calls
           bid ask Hbid Hask Hprice).
Defined.

(** ** Price protection and the number of trades *)

Lemma match_run_fills_cross sym tick incoming opposite skipped trades final :
  match_run sym tick incoming opposite skipped trades final →
  ∃ new matched,
    final.2 = trades ++ new ∧ matched `sublist_of` opposite
    ∧ fills sym tick incoming new matched
    ∧ Forall (λ r, ¬ no_cross incoming r) matched.
Proof.
  induction 1 as [| |? ? ? ? ? ? ? ? _ (new & matched & -> & Hsub & Hf & Hc)|
                  |? ? ? ? ? ? ? ? ? ? ? _ (new & matched & -> & Hsub & Hf & Hc)|];
    simpl.
  - exists [], []. rewrite app_nil_r.
    split_and!; [done|apply sublist_nil_l|done|constructor].
  - exists [], []. rewrite app_nil_r.
    split_and!; [done|apply sublist_nil_l|done|constructor].
  - exists new, matched. split_and!; [done|by apply sublist_cons|done|done].
  - exists [], []. rewrite app_nil_r.
    split_and!; [done|apply sublist_nil_l|done|constructor].
  - eexists (_ :: new), (best :: matched). rewrite <- app_assoc.
    split; [done|]. split; [by apply sublist_skip|].
    split; [simpl; by split_and!|]. by constructor.
  - eexists [_], [best]. split; [done|].
    split; [apply sublist_skip, sublist_nil_l|].
    split; [simpl; by split_and!|]. by repeat constructor.
Qed.

(** X7: price protection.  A limit buy is matched only with asks priced at
    or below its limit, and a limit sell only with bids priced at or above
    its limit; every such trade is made at the limit price of the incoming
    order. *)
Theorem limit_order_price_protection (price volume : Z)
    (side agent_id order_id : string) (timestamp : Z) (b : OrderBook.t) :
  let incoming :=
    Order.mk order_id agent_id side price volume "limit" timestamp in
  let opposite :=
    if decide (side = "buy") then OrderBook.asks b else OrderBook.bids b in
  ∃ trades matched,
    (OrderBook.place_order price volume side "limit" agent_id order_id
       timestamp b).2 = Ret trades
    ∧ matched `sublist_of` opposite
    ∧ fills (OrderBook.symbol b) (OrderBook.current_tick b) incoming trades
        matched
    ∧ (side = "buy" → Forall (λ r, Order.price r ≤ price) matched)
    ∧ (side = "sell" → Forall (λ r, price ≤ Order.price r) matched).
Proof.
  intros incoming opposite.
  unfold OrderBook.place_order, OrderBook._place_limit_order. simpl.
  fold incoming.
  destruct (_match_against_run incoming b)
    as (inc' & opp' & sk & tr & Hrun & ->).
  apply match_run_fills_cross in Hrun as (new & matched & Htr & Hsub & Hf & Hc).
  simpl in Htr. subst tr. exists new, matched.
  split; [by destruct (decide (0 < Order.quantity inc'))|].
  split; [done|]. split; [done|].
  split; intros Hside; (eapply Forall_impl; [exact Hc|]); simpl;
    intros r Hr; unfold no_cross in Hr; simpl in Hr.
  - destruct (decide (price < Order.price r)); [|lia].
    exfalso. apply Hr. by left.
  - destruct (decide (price > Order.price r)); [|lia].
    exfalso. apply Hr. by right.
Qed.

(** X8: [place_order] always comes back, and with at most one trade per
    order that rested on the opposite side.  It returns or raises for every
    book and every argument (both of its loops end), and the list of trades
    it returns is never longer than the opposite side was. *)
Theorem place_order_trades_bounded (price volume : Z)
    (side order_type agent_id order_id : string) (timestamp : Z)
    (b : OrderBook.t) :
  let opposite :=
    if decide (side = "buy") then OrderBook.asks b else OrderBook.bids b in
  let r := OrderBook.place_order price volume side order_type agent_id
             order_id timestamp b in
  r.2 ≠ OutOfFuel
  ∧ ∀ trades, r.2 = Ret trades → (length trades ≤ length opposite)%nat.
Proof.
  intros opposite r. split; [apply place_order_terminates|].
  subst r. unfold OrderBook.place_order.
  destruct (decide (order_type = "limit")) as [->|Hl].
  - unfold OrderBook._place_limit_order.
    match goal with
    | |- context [OrderBook._match_against ?o b] =>
        destruct (_match_against_run o b)
          as (inc' & opp' & sk & tr & Hrun & ->)
    end.
    apply match_run_fills in Hrun as (new & matched & Htr & Hsub & Hf).
    simpl in Htr, Hsub. subst tr. fold opposite in Hsub.
    intros trades Hr.
    assert (trades = new) as ->
      by (destruct (decide (0 < Order.quantity inc')); by simplify_eq/=).
    rewrite (fills_length _ _ _ _ _ Hf). by apply sublist_length.
  - destruct (decide (order_type = "market")) as [->|Hm]; [|done].
    unfold OrderBook._place_market_order, OrderBook._execute_market_order.
    cbn [Order.side]. fold opposite.
    match goal with
    | |- context [OrderBook.market_loop ?f ?s ?t ?o ?opp ?tr ?a ?c] =>
        destruct (OrderBook.market_loop f s t o opp tr a c)
          as [[[[[order' opp'] tr'] tf] tc]|] eqn:Hloop
    end; [|done].
    destruct (market_loop_spec _ _ _ _ _ _ _ _ _ Hloop)
      as (new & matched & Htr & Hsub & Hf & _).
    simpl in *. subst tr'. intros trades [= <-].
    rewrite (market_fills_length _ _ _ _ _ Hf). by apply sublist_length.
Qed.

(** ** Price-time priority *)

Lemma Order_le_sort_index (a b : Order.t) :
  Order_le a b →
  (Order.sort_index a).1 < (Order.sort_index b).1
  ∨ ((Order.sort_index a).1 = (Order.sort_index b).1
     ∧ (Order.sort_index a).2 ≤ (Order.sort_index b).2).
Proof.
  rewrite Order_le_iff. intros [H| ->]; [|right; lia].
  unfold Order.lt, Order.astuple in H.
  do 7 (apply prod_lexico_fst in H; cbn [fst snd] in H;
        destruct H as [H|H];
        [|assert (Order.sort_index a = Order.sort_index b) as ->
            by congruence; right; lia]).
  destruct H as [H|[H1 H2]].
  - left. exact H.
  - right. split; [done|]. unfold lexico, Z_lexico in H2. lia.
Qed.

Lemma best_bid_head (top : Order.t) (rest : list Order.t) (b : OrderBook.t) :
  OrderBook.bids b = top :: rest →
  Forall (λ o, Order.price o ≤ Order.price top) rest →
  OrderBook.best_bid b = Some top.
Proof.
  unfold OrderBook.best_bid. intros -> Hall. simpl.
  induction Hall as [|o rest Ho _ IH]; simpl; [done|].
  by rewrite decide_False by lia.
Qed.

Lemma best_ask_head (top : Order.t) (rest : list Order.t) (b : OrderBook.t) :
  OrderBook.asks b = top :: rest →
  Forall (λ o, Order.price top ≤ Order.price o) rest →
  OrderBook.best_ask b = Some top.
Proof.
  unfold OrderBook.best_ask. intros -> Hall. simpl.
  induction Hall as [|o rest Ho _ IH]; simpl; [done|].
  by rewrite decide_False by lia.
Qed.

Lemma wf_price_time_priority (b : OrderBook.t) :
  wf b →
  (∀ top rest, OrderBook.bids b = top :: rest →
     OrderBook.best_bid b = Some top ∧ Forall (bid_priority top) rest)
  ∧ (∀ top rest, OrderBook.asks b = top :: rest →
       OrderBook.best_ask b = Some top ∧ Forall (ask_priority top) rest).
Proof.
  intros (Hb & Ha & Hsb & Hsa). split; intros top rest Heq.
  - rewrite Heq in Hb, Hsb.
    apply StronglySorted_cons in Hb as [Hall _].
    apply Forall_cons in Hsb as [Htop Hrest].
    assert (Hprio : Forall (bid_priority top) rest).
    { apply Forall_forall. intros o Ho.
      eapply Forall_forall in Hall; [|exact Ho].
      eapply Forall_forall in Hrest; [|exact Ho].
      apply Order_le_sort_index in Hall. unfold Order.sort_index in Hall.
      rewrite !decide_True in Hall by done. simpl in Hall.
      unfold bid_priority. lia. }
    split; [|done]. eapply best_bid_head; [done|].
    eapply Forall_impl; [exact Hprio|]. unfold bid_priority. intros; lia.
  - rewrite Heq in Ha, Hsa.
    apply StronglySorted_cons in Ha as [Hall _].
    apply Forall_cons in Hsa as [Htop Hrest].
    assert (Hprio : Forall (ask_priority top) rest).
    { apply Forall_forall. intros o Ho.
      eapply Forall_forall in Hall; [|exact Ho].
      eapply Forall_forall in Hrest; [|exact Ho].
      apply Order_le_sort_index in Hall. unfold Order.sort_index in Hall.
      rewrite !decide_False in Hall by done. simpl in Hall.
      unfold ask_priority. lia. }
    split; [|done]. eapply best_ask_head; [done|].
    eapply Forall_impl; [exact Hprio|]. unfold ask_priority. intros; lia.
Qed.

(** X9: price-time priority.  In a book built by [place_order] calls the
    order at the front of the bid heap, the one matching takes first, is the
    one [best_bid] returns, and it has a higher price than any other bid or
    the same price and a timestamp that is not later; likewise the front of
    the ask heap is [best_ask], with the lowest price and then the earliest
    timestamp. *)
Theorem price_time_priority (symbol : option string) (calls : list Call) :
  let b := place_all calls (OrderBook.init symbol) in
  (∀ top rest, OrderBook.bids b = top :: rest →
     OrderBook.best_bid b = Some top ∧ Forall (bid_priority top) rest)
  ∧ (∀ top rest, OrderBook.asks b = top :: rest →
       OrderBook.best_ask b = Some top ∧ Forall (ask_priority top) rest).
Proof.
  intros b. apply wf_price_time_priority.
  destruct (init_inv symbol) as [Hwf Hcf].
  by destruct (place_all_inv calls _ Hwf Hcf) as [? _].
Qed.

(** ** Orders that cannot trade *)

Lemma OrderBook_eta (b : OrderBook.t) :
  OrderBook.mk (OrderBook.symbol b) (OrderBook.bids b) (OrderBook.asks b)
    (OrderBook.trades b) (OrderBook.current_tick b) = b.
Proof. by destruct b. Qed.

(** X10: an order for a volume that is not positive does nothing.  As a limit
    or as a market order, on either side, it leaves the book exactly as it
    was (nothing rests, nothing is matched, the trade buffer is the same)
    and returns no trade; no error is raised for it. *)
Theorem nonpositive_volume_is_noop (price volume : Z)
    (side order_type agent_id order_id : string) (timestamp : Z)
    (b : OrderBook.t) :
  volume ≤ 0 → order_type = "limit" ∨ order_type = "market" →
  OrderBook.place_order price volume side order_type agent_id order_id
    timestamp b = (b, Ret []).
Proof.
  intros Hv Hk. destruct b as [sym bids asks trades tick].
  unfold OrderBook.place_order.
  destruct Hk as [-> | ->].
  - rewrite decide_True by done.
    unfold OrderBook._place_limit_order, OrderBook._match_against.
    cbn [OrderBook.match_loop Order.quantity Order.side OrderBook.asks
         OrderBook.bids OrderBook.symbol OrderBook.current_tick
         OrderBook.trades].
    rewrite decide_False by lia.
    cbn [foldl Order.quantity]. rewrite decide_False by lia.
    unfold OrderBook.set_trades, OrderBook.set_asks, OrderBook.set_bids.
    simpl. rewrite app_nil_r. by destruct (decide (side = "buy")).
  - rewrite decide_False by done. rewrite decide_True by done.
    unfold OrderBook._place_market_order, OrderBook._execute_market_order.
    cbn [OrderBook.market_loop Order.quantity Order.side OrderBook.asks
         OrderBook.bids OrderBook.symbol OrderBook.current_tick
         OrderBook.trades].
    rewrite decide_False by lia.
    unfold OrderBook.set_trades, OrderBook.set_asks, OrderBook.set_bids.
    simpl. rewrite app_nil_r. by destruct (decide (side = "buy")).
Qed.

Lemma nonpositive_volume_is_noop_witness :
  OrderBook.place_order 99 0 "sell" "limit" "B" "u3" 3 skip_book
  = (skip_book, Ret []).
Proof.
  apply (nonpositive_volume_is_noop 99 0 "sell" "limit" "B" "u3" 3 skip_book).
  - lia.
  - by left.
Defined.

Lemma match_run_passive sym tick incoming opposite skipped trades final :
  match_run sym tick incoming opposite skipped trades final →
  Forall (λ r, no_cross incoming r ∨ OrderBook.same_agent incoming r = true)
    opposite →
  final.1.1.1 = incoming ∧ final.2 = trades
  ∧ final.1.2 ++ final.1.1.2 = skipped ++ opposite.
Proof.
  induction 1 as [| |inc best rest sk tr final Hq Hsame _ IH|
                  |inc best rest sk tr final Hq Hsame Hc vol Hv _ _
                  |inc best rest sk tr Hq Hsame Hc vol Hv];
    intros Hall; simpl; try done.
  - apply Forall_cons in Hall as [_ Hall].
    destruct (IH Hall) as (-> & -> & ->). by rewrite <- app_assoc.
  - apply Forall_cons in Hall as [[?|?] _]; [done|congruence].
  - apply Forall_cons in Hall as [[?|?] _]; [done|congruence].
Qed.

(** X11: a limit order that cannot trade rests in full.  When every order on
    the opposite side either does not cross the incoming limit order or
    belongs to the participant who places it, [place_order] makes no trade
    and leaves the book as it was but for the new order, which joins its own
    side with its whole volume; the orders passed over by same-participant
    avoidance are back in their places. *)
Theorem passive_limit_order_rests (price volume : Z)
    (side agent_id order_id : string) (timestamp : Z) (b : OrderBook.t) :
  let order :=
    Order.mk order_id agent_id side price volume "limit" timestamp in
  let opposite :=
    if decide (side = "buy") then OrderBook.asks b else OrderBook.bids b in
  is_heap opposite → 0 < volume →
  Forall (λ r, no_cross order r ∨ OrderBook.same_agent order r = true)
    opposite →
  OrderBook.place_order price volume side "limit" agent_id order_id
    timestamp b = (OrderBook._add_to_book order b, Ret []).
Proof.
  intros order opposite Hheap Hv Hall.
  unfold OrderBook.place_order, OrderBook._place_limit_order. simpl.
  fold order.
  destruct (_match_against_run_heap order b Hheap)
    as (inc' & opp' & sk & tr & Hrun & ->).
  destruct (match_run_passive _ _ _ _ _ _ _ Hrun Hall) as (Hinc & Htr & Hopp).
  simpl in Hinc, Htr, Hopp. subst inc' tr. rewrite Hopp.
  rewrite decide_True by (simpl; lia).
  f_equal. f_equal. subst opposite. simpl.
  unfold OrderBook.set_trades, OrderBook.set_asks, OrderBook.set_bids.
  destruct b as [sym bids asks trades tick]. simpl. rewrite app_nil_r.
  by destruct (decide (side = "buy")).
Qed.

Lemma skip_book_wf : wf skip_book.
Proof.
  destruct (init_inv None) as [Hwf Hcf].
  by destruct (place_all_inv
    [mkCall 99 3 "sell" "limit" "A" "u1" 1;
     mkCall 100 4 "sell" "limit" "B" "u2" 2] _ Hwf Hcf) as [? _].
Qed.

(** Participant A bids 99 for 5 against its own ask at 99 and B's ask at
    100. *)
Lemma passive_limit_order_rests_witness :
  OrderBook.place_order 99 5 "buy" "limit" "A" "u3" 3 skip_book
  = (OrderBook._add_to_book (Order.mk "u3" "A" "buy" 99 5 "limit" 3)
       skip_book, Ret []).
Proof.
  apply (passive_limit_order_rests 99 5 "buy" "A" "u3" 3 skip_book).
  - destruct skip_book_wf as (_ & Ha & _). exact Ha.
  - lia.
  - change (Forall
      (λ r, no_cross (Order.mk "u3" "A" "buy" 99 5 "limit" 3) r
            ∨ OrderBook.same_agent (Order.mk "u3" "A" "buy" 99 5 "limit" 3) r
              = true)
      [Order.mk "u1" "A" "sell" 99 3 "limit" 1;
       Order.mk "u2" "B" "sell" 100 4 "limit" 2]).
    apply Forall_cons. split; [right; reflexivity|].
    apply Forall_cons. split; [|constructor].
    left. left. split; [reflexivity|simpl; lia].
Defined.

(** * [_match_orders] *)

(** Every turn of the loop takes at least one order off the book. *)
Lemma match_orders_loop_terminates (fuel : nat) (b : OrderBook.t) :
  (length (OrderBook.bids b) + length (OrderBook.asks b) < fuel)%nat →
  is_Some (OrderBook.match_orders_loop fuel b).
Proof.
  revert b. induction fuel as [|fuel IH]; intros b Hf; [lia|].
  destruct b as [sym bids asks trades tick]. simpl in *.
  destruct bids as [|bid bids]; [by eexists|].
  destruct asks as [|ask asks]; [by eexists|].
  case_decide; [by eexists|].
  apply IH. simpl in *.
  repeat case_decide; rewrite ?heappush_length; simpl in *; lia.
Qed.

Lemma priorities_heappush (heap : list Order.t) (q : Z) (o x : Order.t) :
  x ∈ priorities (heappush heap (Order.set_quantity q o)) →
  x ∈ priorities (o :: heap).
Proof.
  unfold priorities. rewrite !list_elem_of_fmap.
  intros (y & -> & [->|Hy]%heappush_elem_of).
  - exists o. split; [by destruct o|]. by left.
  - exists y. split; [done|]. by right.
Qed.

Lemma priorities_tail (heap : list Order.t) (o x : Order.t) :
  x ∈ priorities heap → x ∈ priorities (o :: heap).
Proof. unfold priorities. simpl. by right. Qed.

Lemma match_orders_loop_spec (fuel : nat) (b b' : OrderBook.t) :
  OrderBook.match_orders_loop fuel b = Some b' →
  OrderBook.symbol b' = OrderBook.symbol b
  ∧ OrderBook.current_tick b' = OrderBook.current_tick b
  ∧ (∀ Q : Order.t → Prop, (∀ q o, Q o → Q (Order.set_quantity q o)) →
       (Forall Q (OrderBook.bids b) → Forall Q (OrderBook.bids b'))
       ∧ (Forall Q (OrderBook.asks b) → Forall Q (OrderBook.asks b')))
  ∧ (is_heap (OrderBook.bids b) → is_heap (OrderBook.bids b'))
  ∧ (is_heap (OrderBook.asks b) → is_heap (OrderBook.asks b'))
  ∧ (Forall (λ o, 0 < Order.quantity o) (OrderBook.bids b) →
     Forall (λ o, 0 < Order.quantity o) (OrderBook.bids b'))
  ∧ (Forall (λ o, 0 < Order.quantity o) (OrderBook.asks b) →
     Forall (λ o, 0 < Order.quantity o) (OrderBook.asks b'))
  ∧ (OrderBook.bids b' = [] ∨ OrderBook.asks b' = []
     ∨ ∃ bid ask, head (OrderBook.bids b') = Some bid
         ∧ head (OrderBook.asks b') = Some ask
         ∧ Order.price bid < Order.price ask)
  ∧ ∃ new,
      OrderBook.trades b' = OrderBook.trades b ++ new
      ∧ total_quantity (OrderBook.bids b')
        = total_quantity (OrderBook.bids b) - sum_volume new
      ∧ total_quantity (OrderBook.asks b')
        = total_quantity (OrderBook.asks b) - sum_volume new
      ∧ Forall (crossing_trade b) new
      ∧ (Forall (λ o, 0 < Order.quantity o)
           (OrderBook.bids b ++ OrderBook.asks b) →
         Forall (λ t, 0 < Trade.volume t) new).
Proof.
  revert b. induction fuel as [|fuel IH]; intros b Hloop; [done|].
  destruct b as [sym bids asks trades tick]. simpl in Hloop.
  assert (Hstop : ∀ P : Prop,
    (OrderBook.bids (OrderBook.mk sym bids asks trades tick) = []
     ∨ OrderBook.asks (OrderBook.mk sym bids asks trades tick) = [] ∨ P) →
    Some (OrderBook.mk sym bids asks trades tick) = Some b' →
    OrderBook.symbol b' = sym ∧ OrderBook.current_tick b' = tick
    ∧ (∀ Q : Order.t → Prop, (∀ q o, Q o → Q (Order.set_quantity q o)) →
         (Forall Q bids → Forall Q (OrderBook.bids b'))
         ∧ (Forall Q asks → Forall Q (OrderBook.asks b')))
    ∧ (is_heap bids → is_heap (OrderBook.bids b'))
    ∧ (is_heap asks → is_heap (OrderBook.asks b'))
    ∧ (Forall (λ o, 0 < Order.quantity o) bids →
       Forall (λ o, 0 < Order.quantity o) (OrderBook.bids b'))
    ∧ (Forall (λ o, 0 < Order.quantity o) asks →
       Forall (λ o, 0 < Order.quantity o) (OrderBook.asks b'))
    ∧ (OrderBook.bids b' = [] ∨ OrderBook.asks b' = [] ∨ P)
    ∧ ∃ new,
        OrderBook.trades b' = trades ++ new
        ∧ total_quantity (OrderBook.bids b') = total_quantity bids - sum_volume new
        ∧ total_quantity (OrderBook.asks b') = total_quantity asks - sum_volume new
        ∧ Forall (crossing_trade (OrderBook.mk sym bids asks trades tick)) new
        ∧ (Forall (λ o, 0 < Order.quantity o) (bids ++ asks) →
           Forall (λ t, 0 < Trade.volume t) new)).
  { intros P HP [= <-]. simpl in *.
    split_and!; try done.
    exists []. rewrite app_nil_r. simpl.
    split_and!; [done|lia|lia|constructor|by constructor]. }
  destruct bids as [|bid bids]; [eapply Hstop; [by left|done]|].
  destruct asks as [|ask asks]; [eapply Hstop; [right; by left|done]|].
  destruct (decide (Order.price bid < Order.price ask)) as [Hlt|Hge].
  { injection Hloop as Hb'. subst b'. eapply Hstop; [|done].
    right. right. exists bid, ask. by simpl. }
  clear Hstop. apply IH in Hloop. simpl in Hloop.
  set (vol := Z.min (Order.quantity bid) (Order.quantity ask)) in *.
  set (bid' := Order.set_quantity (Order.quantity bid - vol) bid) in *.
  set (ask' := Order.set_quantity (Order.quantity ask - vol) ask) in *.
  set (bids'' := if decide (0 < Order.quantity bid - vol)
                 then heappush bids bid' else bids) in *.
  set (asks'' := if decide (0 < Order.quantity ask - vol)
                 then heappush asks ask' else asks) in *.
  set (trade := Trade.mk (Order.price ask) vol sym (Order.agent_id bid)
                  (Order.agent_id ask) (Order.order_id bid)
                  (Order.order_id ask) tick) in *.
  destruct Hloop as (Hsym & Htick & HQ & Hhb & Hha & Hpb & Hpa & Hexit
                     & new & Htr & Hqb & Hqa & Hnew & Hvol).
  simpl.
  assert (HFb : ∀ Q : Order.t → Prop, (∀ q o, Q o → Q (Order.set_quantity q o)) →
            Forall Q (bid :: bids) → Forall Q bids'').
  { intros Q HQs [Hb Hbs]%Forall_cons. subst bids''.
    case_decide; [|done]. apply heappush_Forall. split; [|done].
    by apply HQs. }
  assert (HFa : ∀ Q : Order.t → Prop, (∀ q o, Q o → Q (Order.set_quantity q o)) →
            Forall Q (ask :: asks) → Forall Q asks'').
  { intros Q HQs [Hb Hbs]%Forall_cons. subst asks''.
    case_decide; [|done]. apply heappush_Forall. split; [|done].
    by apply HQs. }
  split; [done|]. split; [done|].
  split.
  { intros Q HQs. destruct (HQ Q HQs) as [H1 H2]. split; intros HF.
    - apply H1. by apply HFb.
    - apply H2. by apply HFa. }
  split.
  { intros [_ Hh]%StronglySorted_cons. apply Hhb. subst bids''.
    case_decide; [by apply heappush_is_heap|done]. }
  split.
  { intros [_ Hh]%StronglySorted_cons. apply Hha. subst asks''.
    case_decide; [by apply heappush_is_heap|done]. }
  split.
  { intros [_ Hh]%Forall_cons. apply Hpb. subst bids''.
    case_decide; [|done]. apply heappush_Forall. by split. }
  split.
  { intros [_ Hh]%Forall_cons. apply Hpa. subst asks''.
    case_decide; [|done]. apply heappush_Forall. by split. }
  split; [done|].
  exists (trade :: new). rewrite Htr, <- app_assoc. split; [done|].
  assert (Hbq : total_quantity bids''
                = Order.quantity bid + total_quantity bids - vol).
  { subst bids''. case_decide as Hd.
    - rewrite total_quantity_heappush. subst bid'. simpl. lia.
    - subst bid'. simpl in Hd. lia. }
  assert (Haq : total_quantity asks''
                = Order.quantity ask + total_quantity asks - vol).
  { subst asks''. case_decide as Hd.
    - rewrite total_quantity_heappush. subst ask'. simpl. lia.
    - subst ask'. simpl in Hd. lia. }
  split; [simpl; lia|]. split; [simpl; lia|].
  split.
  - constructor.
    + exists (Order.set_quantity 0 bid), (Order.set_quantity 0 ask).
      split; [by left|]. split; [by left|]. split; [simpl; lia|]. done.
    + eapply Forall_impl; [exact Hnew|].
      intros t (bd & ak & Hbd & Hak & Hpr & Ht). simpl in *.
      exists bd, ak. split_and!; try done.
      * subst bids''. case_decide.
        -- by eapply priorities_heappush.
        -- by apply priorities_tail.
      * subst asks''. case_decide.
        -- by eapply priorities_heappush.
        -- by apply priorities_tail.
  - intros Hpos. change (bid :: bids ++ ask :: asks)
      with ((bid :: bids) ++ ask :: asks) in Hpos.
    apply Forall_app in Hpos as [[Hb Hbs]%Forall_cons [Ha Has]%Forall_cons].
    constructor; [simpl; lia|]. apply Hvol. apply Forall_app. split.
    + subst bids''. case_decide; [|done]. apply heappush_Forall. by split.
    + subst asks''. case_decide; [|done]. apply heappush_Forall. by split.
Qed.

Lemma _match_orders_spec (b : OrderBook.t) :
  ∃ b', OrderBook.match_orders_loop
          (S (length (OrderBook.bids b) + length (OrderBook.asks b))) b
        = Some b'
    ∧ OrderBook._match_orders b
      = (OrderBook.set_trades [] b',
         Ret (OrderBook._trade_to_dict <$> OrderBook.trades b')).
Proof.
  destruct (match_orders_loop_terminates
    (S (length (OrderBook.bids b) + length (OrderBook.asks b))) b)
    as [b' Hloop]; [lia|].
  exists b'. split; [done|]. unfold OrderBook._match_orders. by rewrite Hloop.
Qed.

(** X12: [_match_orders] hands out the whole trade buffer.  For every book it
    returns (its loop ends), and what it returns is the serialised buffer:
    the trades that earlier [place_order] calls left there, in their order,
    followed by the trades it makes itself.  Each of these is between a
    resting bid and a resting ask with the ask's price not above the bid's,
    at the ask's price; both sides lose the traded volume.  Afterwards the
    buffer is empty. *)
Theorem match_orders_returns_buffer (b : OrderBook.t) :
  ∃ new,
    (OrderBook._match_orders b).2
    = Ret (OrderBook._trade_to_dict <$> (OrderBook.trades b ++ new))
    ∧ OrderBook.trades (OrderBook._match_orders b).1 = []
    ∧ OrderBook.symbol (OrderBook._match_orders b).1 = OrderBook.symbol b
    ∧ OrderBook.current_tick (OrderBook._match_orders b).1
      = OrderBook.current_tick b
    ∧ Forall (crossing_trade b) new
    ∧ total_quantity (OrderBook.bids (OrderBook._match_orders b).1)
      = total_quantity (OrderBook.bids b) - sum_volume new
    ∧ total_quantity (OrderBook.asks (OrderBook._match_orders b).1)
      = total_quantity (OrderBook.asks b) - sum_volume new.
Proof.
  destruct (_match_orders_spec b) as (b' & Hloop & ->).
  destruct (match_orders_loop_spec _ _ _ Hloop)
    as (Hsym & Htick & _ & _ & _ & _ & _ & _ & new & Htr & Hqb & Hqa & Hnew & _).
  exists new. simpl. rewrite Htr. by split_and!.
Qed.

Lemma strictly_uncrossed_heads (b : OrderBook.t) :
  wf b →
  (OrderBook.bids b = [] ∨ OrderBook.asks b = []
   ∨ ∃ bid ask, head (OrderBook.bids b) = Some bid
       ∧ head (OrderBook.asks b) = Some ask
       ∧ Order.price bid < Order.price ask) →
  strictly_uncrossed b.
Proof.
  intros (Hb & Ha & Hsb & Hsa) Hexit bid ask Hbid Hask.
  destruct Hexit as [Hnil|[Hnil|(tb & ta & Htb & Hta & Hlt)]].
  - rewrite Hnil in Hbid. by apply elem_of_nil in Hbid.
  - rewrite Hnil in Hask. by apply elem_of_nil in Hask.
  - destruct (OrderBook.bids b) as [|tb' rb] eqn:Eb; [done|].
    destruct (OrderBook.asks b) as [|ta' ra] eqn:Ea; [done|].
    simpl in Htb, Hta. simplify_eq.
    pose proof (bids_head_price tb rb bid Hb Hsb Hbid).
    pose proof (asks_head_price ta ra ask Ha Hsa Hask). lia.
Qed.

Lemma _match_orders_wf (b : OrderBook.t) :
  wf b →
  wf (OrderBook._match_orders b).1
  ∧ strictly_uncrossed (OrderBook._match_orders b).1.
Proof.
  intros (Hb & Ha & Hsb & Hsa).
  destruct (_match_orders_spec b) as (b' & Hloop & ->).
  destruct (match_orders_loop_spec _ _ _ Hloop)
    as (_ & _ & HQ & Hhb & Hha & _ & _ & Hexit & _).
  destruct (HQ (λ o, Order.side o = "buy")) as [Hb' _]; [by intros ? []|].
  destruct (HQ (λ o, Order.side o ≠ "buy")) as [_ Ha']; [by intros ? []|].
  assert (Hwf : wf b') by (repeat split; auto).
  split.
  - destruct Hwf as (? & ? & ? & ?). by repeat split.
  - pose proof (strictly_uncrossed_heads b' Hwf Hexit) as Hu.
    intros bid ask Hbid Hask. by apply Hu.
Qed.

(** X13: [_match_orders] leaves no crossed orders.  On a book whose two sides
    are in priority order, each holding orders of its own side, it matches
    until every resting bid is priced strictly below every resting ask, and
    it keeps the two sides in priority order. *)
Theorem match_orders_uncrosses (b : OrderBook.t) :
  wf b →
  wf (OrderBook._match_orders b).1
  ∧ strictly_uncrossed (OrderBook._match_orders b).1.
Proof. apply _match_orders_wf. Qed.

Lemma self_cross_book_wf :
  wf (place_all self_cross_calls (OrderBook.init None)).
Proof.
  destruct (init_inv None) as [Hwf Hcf].
  by destruct (place_all_inv self_cross_calls _ Hwf Hcf) as [? _].
Qed.

(** The book in which A's bid at 100 and A's ask at 99 rest. *)
Lemma match_orders_uncrosses_witness :
  wf (OrderBook._match_orders
        (place_all self_cross_calls (OrderBook.init None))).1
  ∧ strictly_uncrossed
      (OrderBook._match_orders
         (place_all self_cross_calls (OrderBook.init None))).1.
Proof.
  apply (match_orders_uncrosses
           (place_all self_cross_calls (OrderBook.init None))).
  exact self_cross_book_wf.
Defined.

Lemma priorities_elem_of (x : Order.t) (side : list Order.t) :
  x ∈ priorities side →
  ∃ o, o ∈ side ∧ Order.price o = Order.price x
       ∧ Order.agent_id o = Order.agent_id x.
Proof.
  unfold priorities. rewrite list_elem_of_fmap. intros (o & -> & Ho).
  exists o. by destruct o.
Qed.

(** X14: after [place_order] calls, [_match_orders] can only match a
    participant with itself.  In a book built by [place_order] calls the
    only orders left crossed are those same-participant avoidance kept
    apart, and [_match_orders] has no such avoidance: every trade it adds
    to the buffer has the same participant, with a name that is not empty,
    as buyer and as seller, and a positive volume.  It returns them after
    the trades of the earlier calls, and leaves every bid priced strictly
    below every ask. *)
Theorem match_orders_after_place_order (symbol : option string)
    (calls : list Call) :
  let b := place_all calls (OrderBook.init symbol) in
  ∃ new,
    (OrderBook._match_orders b).2
    = Ret (OrderBook._trade_to_dict <$> (OrderBook.trades b ++ new))
    ∧ Forall (λ t, self_trade t ∧ 0 < Trade.volume t) new
    ∧ strictly_uncrossed (OrderBook._match_orders b).1.
Proof.
  intros b.
  destruct (init_inv symbol) as [Hwf0 Hcf0].
  destruct (place_all_inv calls _ Hwf0 Hcf0) as [Hwf Hcf]. fold b in Hwf, Hcf.
  pose proof (place_all_resting_ok symbol calls) as Hok. fold b in Hok.
  destruct (_match_orders_wf b Hwf) as [_ Hu].
  destruct (_match_orders_spec b) as (b' & Hloop & Heq).
  rewrite Heq in Hu |- *. cbn [fst snd] in *.
  destruct (match_orders_loop_spec _ _ _ Hloop)
    as (_ & _ & _ & _ & _ & _ & _ & _ & new & Htr & _ & _ & Hnew & Hvol).
  exists new. rewrite Htr. split; [done|]. split; [|done].
  apply Forall_and. split.
  - eapply Forall_impl; [exact Hnew|].
    intros t (bd & ak & Hbd & Hak & Hpr & Ht).
    apply priorities_elem_of in Hbd as (bid & Hbid & Hpb & Hab).
    apply priorities_elem_of in Hak as (ask & Hask & Hpa & Haa).
    destruct (Hcf bid ask Hbid Hask) as [Hsame Hne]; [lia|].
    unfold self_trade. rewrite Ht. simpl. split; congruence.
  - apply Hvol. eapply Forall_impl; [exact Hok|]. by intros ? [? _].
Qed.

(** * The environment, tick after tick *)

(** ** Which ticks raise *)

Lemma place_order_outcome (price volume : Z)
    (side order_type agent_id order_id : string) (timestamp : Z)
    (b : OrderBook.t) :
  let r := OrderBook.place_order price volume side order_type agent_id
             order_id timestamp b in
  if decide (order_type = "limit") then ∃ trades, r.2 = Ret trades
  else if decide (order_type = "market") then ∃ trades, r.2 = Ret trades
  else r = (b, Raise (ValueError ("Unknown order type: " +:+ order_type))).
Proof.
  intros r.
  pose proof (place_order_terminates price volume side order_type agent_id
                order_id timestamp b) as Hterm. fold r in Hterm.
  subst r. unfold OrderBook.place_order in *.
  destruct (decide (order_type = "limit")) as [->|Hl].
  - unfold OrderBook._place_limit_order.
    match goal with
    | |- context [OrderBook._match_against ?o b] =>
        destruct (_match_against_run o b) as (inc' & opp' & sk & tr & _ & ->)
    end.
    exists tr. by destruct (decide (0 < Order.quantity inc')).
  - destruct (decide (order_type = "market")) as [->|Hm]; [|done].
    destruct (OrderBook._place_market_order _ b) as [[result b']|]; [|done].
    by eexists.
Qed.

Lemma first_error_ext (m1 m2 : gmap string Instrument.t)
    (pending : list OrderRequest.t) :
  (∀ sym, is_Some (m1 !! sym) ↔ is_Some (m2 !! sym)) →
  first_error m1 pending = first_error m2 pending.
Proof.
  intros Hdom. induction pending as [|order pending IH]; simpl; [done|].
  rewrite IH. specialize (Hdom (OrderRequest.symbol order)).
  destruct (m1 !! OrderRequest.symbol order) as [i1|],
           (m2 !! OrderRequest.symbol order) as [i2|]; try done.
  - destruct Hdom as [Hdom _]. by destruct Hdom.
  - destruct Hdom as [_ Hdom]. by destruct Hdom.
Qed.


Lemma insert_is_Some_same (m : gmap string Instrument.t) (k : string)
    (v w : Instrument.t) :
  m !! k = Some v → ∀ sym, is_Some (<[k := w]> m !! sym) ↔ is_Some (m !! sym).
Proof.
  intros Hk sym. rewrite lookup_insert_is_Some.
  split.
  - intros [<-|[_ ?]]; [by eexists|done].
  - intros Hs. destruct (decide (k = sym)); [by left|by right].
Qed.

Lemma process_loop_outcome (fresh : nat → string * Z) (i : nat)
    (pending : list OrderRequest.t) (all_trades : list Trade.t)
    (self : Environment.t) :
  let r := Environment.process_loop fresh i pending all_trades self in
  (∀ sym, is_Some (Environment.instruments r.1 !! sym)
          ↔ is_Some (Environment.instruments self !! sym))
  ∧ match first_error (Environment.instruments self) pending with
    | Some e => r.2 = Raise e
    | None => ∃ res, r.2 = Ret res
    end.
Proof.
  revert i all_trades self.
  induction pending as [|order pending IH]; intros i all_trades self; simpl.
  { split; [done|]. by eexists. }
  destruct (Environment.instruments self !! OrderRequest.symbol order)
    as [inst|] eqn:Hinst; [|done].
  pose proof (place_order_outcome
    (OrderRequest.price order) (OrderRequest.volume order)
    (OrderRequest.side order)
    (default "limit" (OrderRequest.order_type order))
    (default "unknown" (OrderRequest.agent_id order))
    (fresh i).1 (fresh i).2 (Instrument.order_book inst)) as Hout.
  simpl in Hout.
  destruct (OrderBook.place_order _ _ _ _ _ _ _ _) as [book result].
  assert (Hvalid : (∃ trades, result = Ret trades) →
    let r := match result with
             | Ret trades =>
                 let '(all_trades0, self0) :=
                   Environment.settle_trades trades all_trades
                     (Environment.set_instruments
                        (<[OrderRequest.symbol order :=
                             Instrument.set_order_book
                               (OrderBook.set_trades
                                  (Environment.stamp_last (length trades)
                                     (Environment.time self)
                                     (OrderBook.trades book)) book) inst]>
                           (Environment.instruments self)) self) in
                 Environment.process_loop fresh (S i) pending all_trades0 self0
             | Raise e =>
                 (Environment.set_instruments
                    (<[OrderRequest.symbol order :=
                         Instrument.set_order_book book inst]>
                       (Environment.instruments self)) self, Raise e)
             | OutOfFuel =>
                 (Environment.set_instruments
                    (<[OrderRequest.symbol order :=
                         Instrument.set_order_book book inst]>
                       (Environment.instruments self)) self, OutOfFuel)
             end in
    (∀ sym, is_Some (Environment.instruments r.1 !! sym)
            ↔ is_Some (Environment.instruments self !! sym))
    ∧ match first_error (Environment.instruments self) pending with
      | Some e => r.2 = Raise e
      | None => ∃ res, r.2 = Ret res
      end).
  { intros [trades ->].
    match goal with
    | |- context [Environment.settle_trades ?a ?b ?c] =>
        pose proof (settle_trades_spec a b c) as Hsettle;
          destruct (Environment.settle_trades a b c) as [all' self']
    end.
    simpl in Hsettle. destruct Hsettle as (_ & Hi & _).
    destruct (IH (S i) all' self') as [Hdom Hres].
    assert (Hdom' : ∀ sym, is_Some (Environment.instruments self' !! sym)
                           ↔ is_Some (Environment.instruments self !! sym)).
    { rewrite Hi. by eapply insert_is_Some_same. }
    simpl. split; [intros sym; by rewrite Hdom|].
    by rewrite <- (first_error_ext _ _ pending Hdom'). }
  destruct (decide (default "limit" (OrderRequest.order_type order) = "limit"));
    [by apply Hvalid|].
  destruct (decide (default "limit" (OrderRequest.order_type order) = "market"));
    [by apply Hvalid|].
  injection Hout as -> ->. simpl. split; [|done].
  by eapply insert_is_Some_same.
Qed.

Lemma update_prices_is_Some (self : Environment.t) (sym : string) :
  is_Some (Environment.instruments (Environment.update_prices self) !! sym)
  ↔ is_Some (Environment.instruments self !! sym).
Proof. rewrite update_prices_lookup. by rewrite fmap_is_Some. Qed.

Lemma tick_outcome_aux (fresh : nat → string * Z) (self : Environment.t) :
  let r := Environment.tick fresh self in
  (∀ sym, is_Some (Environment.instruments r.1 !! sym)
          ↔ is_Some (Environment.instruments self !! sym))
  ∧ match first_error (Environment.instruments self)
            (Environment.pending_orders self) with
    | Some e =>
        r.2 = Raise e
        ∧ Environment.pending_orders r.1 = Environment.pending_orders self
        ∧ Environment.trade_log r.1 = Environment.trade_log self
    | None =>
        ∃ res, r.2 = Ret res ∧ Environment.pending_orders r.1 = []
               ∧ Environment.trade_log r.1
                 = Environment.trade_log self ++ Environment.r_trades res
    end.
Proof.
  unfold Environment.tick.
  set (self1 := Environment.set_time (Environment.time self + 1) self).
  pose proof (process_orders_frame fresh self1) as (_ & _ & _ & Hret & Hraise).
  revert Hret Hraise. unfold Environment.process_orders.
  destruct (process_loop_outcome fresh 0 (Environment.pending_orders self1)
              [] self1) as [Hdom Hres].
  change (Environment.pending_orders self1)
    with (Environment.pending_orders self) in *.
  change (Environment.instruments self1)
    with (Environment.instruments self) in *.
  change (Environment.trade_log self1)
    with (Environment.trade_log self) in *.
  destruct (Environment.process_loop fresh 0 _ [] self1)
    as [self2 result]. cbn [fst snd] in *.
  destruct (first_error _ _) as [e|].
  - subst result. cbn [fst snd]. intros _ Hraise.
    destruct (Hraise e eq_refl) as [Hp Hl]. by split_and!.
  - destruct Hres as [res ->]. cbn [fst snd]. intros Hret _.
    destruct (Hret res eq_refl) as (Hp & Hl & _).
    unfold Environment.get_state. cbn [fst snd].
    split.
    + intros sym. rewrite update_prices_is_Some.
      by destruct (decide (res = [])).
    + eexists. split; [done|]. cbn [Environment.r_trades].
      split; [|done]. by destruct (decide (res = [])).
Qed.




(** ** The books of the environment *)

Lemma process_loop_books_ok (fresh : nat → string * Z) (i : nat)
    (pending : list OrderRequest.t) (all_trades : list Trade.t)
    (self : Environment.t) :
  books_ok self →
  books_ok (Environment.process_loop fresh i pending all_trades self).1.
Proof.
  revert i all_trades self.
  induction pending as [|order pending IH]; intros i all_trades self Hok;
    simpl; [done|].
  destruct (Environment.instruments self !! OrderRequest.symbol order)
    as [inst|] eqn:Hinst; [|done].
  destruct (Hok _ _ Hinst) as (Hwf & Hcf & Hrest).
  pose proof (place_order_inv
    (OrderRequest.price order) (OrderRequest.volume order)
    (OrderRequest.side order)
    (default "limit" (OrderRequest.order_type order))
    (default "unknown" (OrderRequest.agent_id order))
    (fresh i).1 (fresh i).2 (Instrument.order_book inst) Hwf Hcf)
    as [Hwf' Hcf'].
  pose proof (place_order_resting_ok
    (OrderRequest.price order) (OrderRequest.volume order)
    (OrderRequest.side order)
    (default "limit" (OrderRequest.order_type order))
    (default "unknown" (OrderRequest.agent_id order))
    (fresh i).1 (fresh i).2 (Instrument.order_book inst) Hrest) as Hrest'.
  destruct (OrderBook.place_order _ _ _ _ _ _ _ _) as [book result].
  cbn [fst] in Hwf', Hcf', Hrest'.
  assert (Hstore : ∀ buffer,
    books_ok (Environment.set_instruments
                (<[OrderRequest.symbol order :=
                     Instrument.set_order_book
                       (OrderBook.set_trades buffer book) inst]>
                   (Environment.instruments self)) self)).
  { intros buffer sym inst'. simpl.
    intros [[<- <-]|[_ Hl]]%lookup_insert_Some; [|by eapply Hok].
    simpl. done. }
  destruct result as [trades|e|]; simpl.
  - match goal with
    | |- context [Environment.settle_trades ?a ?b ?c] =>
        pose proof (settle_trades_spec a b c) as Hsettle;
          destruct (Environment.settle_trades a b c) as [all' self']
    end.
    simpl in Hsettle. destruct Hsettle as (_ & Hi & _).
    apply IH. intros sym inst'. rewrite Hi. apply Hstore.
  - intros sym inst'. simpl.
    intros [[<- <-]|[_ Hl]]%lookup_insert_Some; [done|by eapply Hok].
  - intros sym inst'. simpl.
    intros [[<- <-]|[_ Hl]]%lookup_insert_Some; [done|by eapply Hok].
Qed.

Lemma tick_books_ok (fresh : nat → string * Z) (self : Environment.t) :
  books_ok self → books_ok (Environment.tick fresh self).1.
Proof.
  intros Hok. unfold Environment.tick, Environment.process_orders.
  set (self1 := Environment.set_time (Environment.time self + 1) self).
  pose proof (process_loop_books_ok fresh 0 (Environment.pending_orders self1)
                [] self1 Hok) as Hloop.
  destruct (Environment.process_loop fresh 0 _ [] self1) as [self2 result].
  cbn [fst] in Hloop.
  destruct result as [res|e|]; cbn [fst snd]; [|done|done].
  unfold Environment.get_state. cbn [fst].
  intros sym inst. rewrite update_prices_lookup.
  assert (Hi : Environment.instruments
                 (if decide (res = [])
                  then Environment.set_pending_orders [] self2
                  else Environment.set_trade_log
                         (Environment.trade_log
                            (Environment.set_pending_orders [] self2) ++ res)
                         (Environment.set_pending_orders [] self2))
               = Environment.instruments self2) by (by case_decide).
  rewrite Hi. intros (inst0 & Hl & ->)%fmap_Some.
  specialize (Hloop _ _ Hl). by destruct (last _).
Qed.

Lemma init_books_ok (symbol : string) (initial_price : Z) :
  books_ok (Environment.init {[ symbol := Instrument.init symbol initial_price ]}).
Proof.
  intros sym inst. simpl. intros [<- <-]%lookup_singleton_Some. simpl.
  destruct (init_inv (Some symbol)) as [Hwf Hcf].
  split; [done|]. split; [done|]. unfold resting_ok. simpl. constructor.
Qed.

(** X17: ticks keep every book of the environment sound.  If every order
    book of the environment has its two sides in priority order (bids on
    the bid side, all others on the ask side), holds only limit orders with
    a positive remaining quantity, and has no crossing orders of different
    participants, then the same holds after [tick], whether it returns or
    raises. *)
Theorem tick_keeps_books_sound (fresh : nat → string * Z)
    (self : Environment.t) :
  books_ok self → books_ok (Environment.tick fresh self).1.
Proof. apply tick_books_ok. Qed.

Lemma tick_keeps_books_sound_witness :
  books_ok (Environment.tick example_fresh (example_submitted 100)).1.
Proof.
  apply (tick_keeps_books_sound example_fresh (example_submitted 100)).
  exact (init_books_ok "X" 100).
Defined.

(** ** Prices after a tick *)

Lemma tick_prices (fresh : nat → string * Z) (self : Environment.t)
    (res : Environment.TickResult) (sym : string) :
  (Environment.tick fresh self).2 = Ret res →
  Instrument.price
    <$> Environment.instruments (Environment.tick fresh self).1 !! sym
  = match last (filter (λ t, Trade.symbol t = sym
                             ∧ Trade.time t = Some (Environment.time self + 1))
                  (Environment.trade_log self ++ Environment.r_trades res))
    with
    | Some trade =>
        (λ _, Trade.price trade) <$> Environment.instruments self !! sym
    | None => Instrument.price <$> Environment.instruments self !! sym
    end.
Proof.
  unfold Environment.tick, Environment.get_state.
  set (self1 := Environment.set_time (Environment.time self + 1) self).
  destruct (process_orders_frame fresh self1) as (Ht & Hi & _ & Hret & _).
  destruct (Environment.process_orders fresh self1) as [self2 [trades|e|]];
    [|done|done].
  cbn [fst snd] in *. intros [= <-]. cbn [Environment.r_trades].
  destruct (Hret trades eq_refl) as (_ & Hl & _).
  rewrite update_prices_lookup, Hl, Ht.
  change (Environment.trade_log self1) with (Environment.trade_log self).
  change (Environment.time self1) with (Environment.time self + 1).
  assert (Hsym : Instrument.price <$> Environment.instruments self2 !! sym
                 = Instrument.price <$> Environment.instruments self !! sym).
  { rewrite <- !lookup_fmap. by rewrite Hi. }
  destruct (last _) as [trade|]; rewrite <- option_fmap_compose; [|done].
  destruct (Environment.instruments self2 !! sym) as [i2|];
    destruct (Environment.instruments self !! sym) as [i0|]; done.
Qed.

Lemma tick_log_ok (fresh : nat → string * Z) (self : Environment.t) :
  log_ok self → log_ok (Environment.tick fresh self).1.
Proof.
  unfold log_ok. intros Hok.
  destruct (tick_frame fresh self) as (Ht & _ & Hret).
  assert (Hold : Forall
    (λ t, ∃ k, Trade.time t = Some k
               ∧ k ≤ Environment.time (Environment.tick fresh self).1)
    (Environment.trade_log self)).
  { eapply Forall_impl; [exact Hok|]. simpl. intros t (k & Hk & Hle).
    exists k. split; [done|]. rewrite Ht. lia. }
  destruct (tick_outcome_aux fresh self) as [_ Hres].
  destruct (first_error _ _) as [e|].
  - destruct Hres as (_ & _ & ->). done.
  - destruct Hres as (res & Hr & _ & Hl).
    destruct (Hret res Hr) as (_ & _ & _ & Hst).
    rewrite Hl. apply Forall_app. split; [done|].
    eapply Forall_impl; [exact Hst|]. simpl. intros t Htime.
    eexists. split; [done|]. rewrite Ht. lia.
Qed.

(** X18: after a tick each instrument shows the price of its last trade of
    that tick.  In an environment whose log holds no trade stamped with a
    future tick, a [tick] that returns leaves each instrument at the price
    of the last of the returned trades in its symbol, and at the price it
    had when the tick traded nothing in it; and the log again holds no trade
    stamped with a future tick, whether the tick returned or raised. *)
Theorem tick_price_is_last_trade (fresh : nat → string * Z)
    (self : Environment.t) :
  log_ok self →
  log_ok (Environment.tick fresh self).1
  ∧ ∀ res, (Environment.tick fresh self).2 = Ret res →
      ∀ sym,
        Instrument.price
          <$> Environment.instruments (Environment.tick fresh self).1 !! sym
        = match last (filter (λ t, Trade.symbol t = sym)
                        (Environment.r_trades res)) with
          | Some trade =>
              (λ _, Trade.price trade) <$> Environment.instruments self !! sym
          | None => Instrument.price <$> Environment.instruments self !! sym
          end.
Proof.
  intros Hok. split; [by apply tick_log_ok|].
  intros res Hres sym. rewrite (tick_prices fresh self res sym Hres).
  destruct (tick_frame fresh self) as (_ & _ & Hret).
  destruct (Hret res Hres) as (_ & _ & _ & Hst).
  rewrite filter_app.
  assert (Hstale : filter
    (λ t, Trade.symbol t = sym
          ∧ Trade.time t = Some (Environment.time self + 1))
    (Environment.trade_log self) = []).
  { unfold log_ok in Hok. revert Hok.
    generalize (Environment.trade_log self).
    induction 1 as [|t l (k & Hk & Hle) _ IH]; [done|].
    rewrite filter_cons, IH. rewrite decide_False; [done|].
    intros [_ Ht]. rewrite Hk in Ht. injection Ht as ->. lia. }
  rewrite Hstale, app_nil_l.
  rewrite (filter_ext_Forall _ (λ t, Trade.symbol t = sym)); [done|].
  eapply Forall_impl; [exact Hst|]. simpl. intros t Htime. tauto.
Qed.

Lemma tick_price_is_last_trade_witness :
  log_ok (Environment.tick example_fresh (example_submitted 100)).1
  ∧ ∀ res,
      (Environment.tick example_fresh (example_submitted 100)).2 = Ret res →
      ∀ sym,
        Instrument.price
          <$> Environment.instruments
                (Environment.tick example_fresh (example_submitted 100)).1
              !! sym
        = match last (filter (λ t, Trade.symbol t = sym)
                        (Environment.r_trades res)) with
          | Some trade =>
              (λ _, Trade.price trade)
                <$> Environment.instruments (example_submitted 100) !! sym
          | None =>
              Instrument.price
                <$> Environment.instruments (example_submitted 100) !! sym
          end.
Proof.
  apply (tick_price_is_last_trade example_fresh (example_submitted 100)).
  unfold log_ok. simpl. constructor.
Defined.

(** ** Accounts that a trade does not concern *)

Lemma update_accounts_lookup_other (trade : Trade.t) (self : Environment.t)
    (a : string) :
  a ≠ Trade.buyer trade → a ≠ Trade.seller trade →
  Environment.agent_accounts (Environment.update_accounts trade self) !! a
  = Environment.agent_accounts self !! a.
Proof.
  intros Hb Hs. unfold Environment.update_accounts, Environment.set_position,
    Environment.add_cash, Environment.sub_cash.
  cbn [Environment.agent_accounts Environment.set_agent_accounts].
  rewrite !lookup_alter_ne by done.
  repeat case_decide; simpl; rewrite ?lookup_insert_ne by done; done.
Qed.

Lemma update_accounts_position_other (trade : Trade.t) (self : Environment.t)
    (a sym : string) :
  sym ≠ Trade.symbol trade →
  Environment.position a sym (Environment.update_accounts trade self)
  = Environment.position a sym self.
Proof.
  intros Hsym. rewrite update_accounts_steps.
  set (s1 := ensure (ensure self (Trade.buyer trade)) (Trade.seller trade)).
  assert (Hb1 : has_account (Trade.buyer trade) s1).
  { unfold s1.
    apply (proj2 (ensure_has_account _ (Trade.seller trade) (Trade.buyer trade))).
    exact (proj1 (ensure_has_account self (Trade.buyer trade) "")). }
  assert (Hs1 : has_account (Trade.seller trade) s1).
  { unfold s1. exact (proj1 (ensure_has_account _ (Trade.seller trade) "")). }
  rewrite set_position_position.
  2:{ apply add_cash_has_account, set_position_has_account,
        sub_cash_has_account. exact Hs1. }
  rewrite decide_False by (intros [_ ?]; congruence).
  rewrite add_cash_position, set_position_position.
  2:{ apply sub_cash_has_account. exact Hb1. }
  rewrite decide_False by (intros [_ ?]; congruence).
  rewrite sub_cash_position. unfold s1. by rewrite !ensure_position.
Qed.

(** X19: settlement touches nothing but the two parties' cash and their
    holding in the traded symbol.  [update_accounts] leaves the account of
    every other participant as it is (and creates none for them), leaves
    every holding in another symbol as it is, and changes neither the
    instruments, the clock, the trade log nor the queue. *)
Theorem settlement_touches_only_the_trade (trade : Trade.t)
    (self : Environment.t) :
  let self' := Environment.update_accounts trade self in
  (∀ a, a ≠ Trade.buyer trade → a ≠ Trade.seller trade →
     Environment.agent_accounts self' !! a
     = Environment.agent_accounts self !! a)
  ∧ (∀ a sym, sym ≠ Trade.symbol trade →
       Environment.position a sym self' = Environment.position a sym self)
  ∧ Environment.instruments self' = Environment.instruments self
  ∧ Environment.time self' = Environment.time self
  ∧ Environment.trade_log self' = Environment.trade_log self
  ∧ Environment.pending_orders self' = Environment.pending_orders self.
Proof.
  intros self'. split; [intros a; apply update_accounts_lookup_other|].
  split; [intros a sym; apply update_accounts_position_other|].
  apply update_accounts_frame.
Qed.

Lemma settle_trades_accounts (a : string) (trades all_trades : list Trade.t)
    (self : Environment.t) :
  let r := Environment.settle_trades trades all_trades self in
  (has_account a self → has_account a r.2)
  ∧ (Forall (λ t, a ≠ Trade.buyer t ∧ a ≠ Trade.seller t) trades →
     Environment.agent_accounts r.2 !! a
     = Environment.agent_accounts self !! a).
Proof.
  revert all_trades self.
  induction trades as [|t trades IH]; intros all_trades self; simpl; [done|].
  destruct (IH (all_trades ++ [Trade.set_time (Environment.time self) t])
              (Environment.update_accounts
                 (Trade.set_time (Environment.time self) t) self))
    as [Hhas Hsame].
  split.
  - intros Ha. apply Hhas. apply update_accounts_has_account. by right; right.
  - intros [[Hb Hs] Hrest]%Forall_cons. rewrite (Hsame Hrest).
    by apply update_accounts_lookup_other.
Qed.

Lemma process_loop_accounts (a : string) (fresh : nat → string * Z) (i : nat)
    (pending : list OrderRequest.t) (all_trades : list Trade.t)
    (self : Environment.t) :
  let r := Environment.process_loop fresh i pending all_trades self in
  (has_account a self → has_account a r.1)
  ∧ ∀ res, r.2 = Ret res →
      ∃ new, res = all_trades ++ new
        ∧ (Forall (λ t, a ≠ Trade.buyer t ∧ a ≠ Trade.seller t) new →
           Environment.agent_accounts r.1 !! a
           = Environment.agent_accounts self !! a).
Proof.
  revert i all_trades self.
  induction pending as [|order pending IH]; intros i all_trades self; simpl.
  { split; [done|]. intros res [= <-]. exists []. by rewrite app_nil_r. }
  destruct (Environment.instruments self !! OrderRequest.symbol order)
    as [inst|] eqn:Hinst; [|done].
  destruct (OrderBook.place_order _ _ _ _ _ _ _ _) as [book result].
  destruct result as [trades|e|]; simpl; [|done|done].
  match goal with
  | |- context [Environment.settle_trades ?x ?y ?z] =>
      pose proof (settle_trades_spec x y z) as Hspec;
        pose proof (settle_trades_accounts a x y z) as Hacc;
        destruct (Environment.settle_trades x y z) as [all' self']
  end.
  simpl in Hspec, Hacc. destruct Hspec as (-> & _). destruct Hacc as [Hhas Hsame].
  match goal with
  | |- context [Environment.process_loop ?f ?j ?p ?x ?s] =>
      destruct (IH j x s) as [IHhas IHres]
  end.
  split; [by intros ?; apply IHhas, Hhas|].
  intros res Hres. apply IHres in Hres as (new & -> & Hnew).
  eexists. rewrite <- app_assoc. split; [done|].
  intros [Hst Hn]%Forall_app. rewrite (Hnew Hn). apply Hsame.
  apply Forall_fmap in Hst. eapply Forall_impl; [exact Hst|]. by intros [].
Qed.

(** X20: a tick changes only the accounts of those who traded.  [tick] never
    removes an account, and when it returns, every participant who is
    neither buyer nor seller of a returned trade has the very account it
    had before (or still none). *)
Theorem tick_accounts_of_bystanders (fresh : nat → string * Z)
    (self : Environment.t) (a : string) :
  let r := Environment.tick fresh self in
  (has_account a self → has_account a r.1)
  ∧ ∀ res, r.2 = Ret res →
      Forall (λ t, a ≠ Trade.buyer t ∧ a ≠ Trade.seller t)
        (Environment.r_trades res) →
      Environment.agent_accounts r.1 !! a
      = Environment.agent_accounts self !! a.
Proof.
  unfold Environment.tick, Environment.process_orders, Environment.get_state.
  set (self1 := Environment.set_time (Environment.time self + 1) self).
  destruct (process_loop_accounts a fresh 0
              (Environment.pending_orders self1) [] self1) as [Hhas Hres].
  destruct (Environment.process_loop fresh 0 _ [] self1) as [self2 result].
  cbn [fst snd] in *.
  destruct result as [trades|e|]; cbn [fst snd]; [|by split|by split].
  destruct (Hres trades eq_refl) as (new & Hnew & Hsame).
  simpl in Hnew. subst new.
  assert (Hacc : Environment.agent_accounts
                   (Environment.update_prices
                      (if decide (trades = [])
                       then Environment.set_pending_orders [] self2
                       else Environment.set_trade_log
                              (Environment.trade_log
                                 (Environment.set_pending_orders [] self2)
                               ++ trades)
                              (Environment.set_pending_orders [] self2)))
                 = Environment.agent_accounts self2) by (by case_decide).
  split.
  - intros Ha. unfold has_account. rewrite Hacc. by apply Hhas.
  - intros res [= <-]. cbn [Environment.r_trades]. intros Hby.
    rewrite Hacc. by apply Hsame.
Qed.

(** * The server and the agents *)

(** X21: requests never change the market.  Whatever the message,
    [process_message] leaves the instruments, the clock, the trade log and
    the accounts as they are; a message that is no "PLACE_ORDER", and any
    message for which it raises, leaves the whole environment as it is; and
    the only change it ever makes is to queue one order, which it
    acknowledges with "queued". *)
Theorem process_message_only_queues (msg : MarketServer.Message)
    (addr : option string) (env : Environment.t) :
  let r := MarketServer.process_message msg addr env in
  Environment.instruments r.1 = Environment.instruments env
  ∧ Environment.time r.1 = Environment.time env
  ∧ Environment.trade_log r.1 = Environment.trade_log env
  ∧ Environment.agent_accounts r.1 = Environment.agent_accounts env
  ∧ (MarketServer.type msg ≠ Some "PLACE_ORDER" → r.1 = env)
  ∧ (∀ e, r.2 = Raise e → r.1 = env)
  ∧ (r.1 = env
     ∨ ∃ order, r.1 = Environment.submit_order order env
                ∧ r.2 = Ret (MarketServer.ACK "queued")).
Proof.
  unfold MarketServer.process_message.
  destruct (decide (MarketServer.type msg = Some "PLACE_ORDER")) as [Hp|Hp].
  - destruct (MarketServer.symbol msg), (MarketServer.price msg),
      (MarketServer.volume msg), (MarketServer.side msg); simpl;
      split_and!; try done; auto.
    right. by eexists.
  - repeat case_decide; simpl.
    + destruct (MarketServer.symbol msg) as [sym|]; simpl;
        [|split_and!; by auto].
      destruct (Environment.instruments env !! sym); simpl;
        split_and!; by auto.
    + split_and!; by auto.
    + split_and!; by auto.
    + split_and!; by auto.
Qed.

(** ** The two settlement routines *)

Lemma alter_position (k sym : string) (d : Z) (m : gmap string Account.t) :
  alter (λ acc,
           Account.set_portfolio
             (<[sym := default 0 (m !! k ≫= λ acc, Account.portfolio acc !! sym)
                       + d]> (Account.portfolio acc)) acc) k m
  = alter (λ acc,
             Account.set_portfolio
               (<[sym := default 0 (Account.portfolio acc !! sym) + d]>
                  (Account.portfolio acc)) acc) k m.
Proof.
  apply map_eq. intros k'. destruct (decide (k = k')) as [<-|Hne].
  - rewrite !lookup_alter_eq. by destruct (m !! k).
  - by rewrite !lookup_alter_ne.
Qed.

Lemma settle_leg_is_Some (agent symbol : string)
    (new_cash : Float.t → Float.t) (d_qty : Z)
    (agents : gmap string Account.t) (a : string) :
  is_Some (MarketServer.settle_leg agent symbol new_cash d_qty agents !! a)
  ↔ is_Some (agents !! a).
Proof.
  unfold MarketServer.settle_leg.
  destruct (decide (agent = a)) as [<-|Hne].
  - by rewrite !lookup_alter_eq, !fmap_is_Some.
  - by rewrite !lookup_alter_ne.
Qed.

(** X22: the server's [settle_trade] and the environment's [update_accounts]
    agree on participants who have accounts.  Applied to the same account
    table, they leave the same table whenever buyer and seller both have an
    account; but [settle_trade] never opens an account (a party without one
    is passed over), where [update_accounts] opens it. *)
Theorem server_settlement_agrees (trade : Trade.t) (self : Environment.t) :
  let agents := Environment.agent_accounts self in
  (∀ a, is_Some (MarketServer.settle_trade trade agents !! a)
        ↔ is_Some (agents !! a))
  ∧ (is_Some (agents !! Trade.buyer trade) →
     is_Some (agents !! Trade.seller trade) →
     Environment.agent_accounts (Environment.update_accounts trade self)
     = MarketServer.settle_trade trade agents).
Proof.
  intros agents. split.
  - intros a. unfold MarketServer.settle_trade.
    repeat case_bool_decide; rewrite ?settle_leg_is_Some; done.
  - intros Hb Hs. unfold MarketServer.settle_trade.
    rewrite !bool_decide_eq_true_2 by done.
    unfold Environment.update_accounts.
    fold agents.
    rewrite (decide_False (P := agents !! Trade.buyer trade = None))
      by (by apply not_eq_None_Some).
    rewrite (decide_False (P := agents !! Trade.seller trade = None))
      by (by apply not_eq_None_Some).
    unfold Environment.set_position, Environment.add_cash,
      Environment.sub_cash, Environment.position, Environment.trade_value,
      MarketServer.settle_leg.
    cbn [Environment.agent_accounts Environment.set_agent_accounts].
    fold agents. unfold Z.sub. by rewrite !alter_position.
Qed.

(** ** The agent's own books *)

(** Two identities of IEEE arithmetic: negation commutes with
    multiplication, and adding the negation is subtracting. *)
Lemma binary_round_aux_neg (s : bool) (m e : Z) (l : location) :
  Float.neg (binary_round_aux Float.prec Float.emax s m e l)
  = binary_round_aux Float.prec Float.emax (negb s) m e l.
Proof.
  unfold binary_round_aux.
  destruct (shr_fexp _ _ m e l) as [mrs' e'].
  destruct (shr_fexp _ _ _ e' loc_Exact) as [mrs'' e''].
  destruct (shr_m mrs''); [done| |done].
  by destruct (e'' <=? Float.emax - Float.prec)%Z.
Qed.

Lemma Float_mul_neg_l (x y : Float.t) :
  Float.mul (Float.neg x) y = Float.neg (Float.mul x y).
Proof.
  destruct x as [sx|sx| |sx mx ex], y as [sy|sy| |sy my ey];
    try reflexivity;
    try (destruct sx, sy; reflexivity).
  unfold Float.mul, SFmul. cbn [Float.neg SFopp].
  rewrite binary_round_aux_neg. by destruct sx, sy.
Qed.

Lemma Float_add_neg_r (x y : Float.t) :
  Float.add x (Float.neg y) = Float.sub x y.
Proof.
  destruct x as [sx|sx| |sx mx ex], y as [sy|sy| |sy my ey];
    try reflexivity;
    try (destruct sx, sy; reflexivity);
    try (destruct sx; reflexivity); try (destruct sy; reflexivity).
Qed.

Lemma update_accounts_lookup_buyer (trade : Trade.t) (self : Environment.t)
    (acc : Account.t) :
  Trade.buyer trade ≠ Trade.seller trade →
  Environment.agent_accounts self !! Trade.buyer trade = Some acc →
  Environment.agent_accounts (Environment.update_accounts trade self)
    !! Trade.buyer trade
  = Some (Account.mk
            (Float.sub (Account.cash acc) (Environment.trade_value trade))
            (<[Trade.symbol trade :=
                 default 0 (Account.portfolio acc !! Trade.symbol trade)
                 + Trade.volume trade]> (Account.portfolio acc))).
Proof.
  intros Hne Hacc. unfold Environment.update_accounts.
  rewrite (decide_False (P := _ !! Trade.buyer trade = None))
    by (by rewrite Hacc).
  unfold Environment.set_position, Environment.add_cash,
    Environment.sub_cash, Environment.position.
  cbn [Environment.agent_accounts Environment.set_agent_accounts].
  rewrite !(lookup_alter_ne _ _ (Trade.seller trade) (Trade.buyer trade))
    by done.
  rewrite !lookup_alter_eq.
  assert (Hl : Environment.agent_accounts
                 (if decide (Environment.agent_accounts self
                             !! Trade.seller trade = None)
                  then Environment.add_account (Trade.seller trade) self
                  else self) !! Trade.buyer trade = Some acc).
  { case_decide; simpl; [|done]. by rewrite lookup_insert_ne. }
  rewrite Hl. simpl. done.
Qed.

Lemma update_accounts_lookup_seller (trade : Trade.t) (self : Environment.t)
    (acc : Account.t) :
  Trade.buyer trade ≠ Trade.seller trade →
  Environment.agent_accounts self !! Trade.seller trade = Some acc →
  Environment.agent_accounts (Environment.update_accounts trade self)
    !! Trade.seller trade
  = Some (Account.mk
            (Float.add (Account.cash acc) (Environment.trade_value trade))
            (<[Trade.symbol trade :=
                 default 0 (Account.portfolio acc !! Trade.symbol trade)
                 - Trade.volume trade]> (Account.portfolio acc))).
Proof.
  intros Hne Hacc. unfold Environment.update_accounts.
  rewrite (decide_False (P := Environment.agent_accounts _
                              !! Trade.seller trade = None)).
  2:{ case_decide; simpl; [|by rewrite Hacc].
      rewrite lookup_insert_ne by done. by rewrite Hacc. }
  unfold Environment.set_position, Environment.add_cash,
    Environment.sub_cash, Environment.position.
  cbn [Environment.agent_accounts Environment.set_agent_accounts].
  rewrite !lookup_alter_eq.
  rewrite !(lookup_alter_ne _ _ (Trade.buyer trade) (Trade.seller trade))
    by done.
  assert (Hl : Environment.agent_accounts
                 (if decide (Environment.agent_accounts self
                             !! Trade.buyer trade = None)
                  then Environment.add_account (Trade.buyer trade) self
                  else self) !! Trade.seller trade = Some acc).
  { case_decide; simpl; [|done]. by rewrite lookup_insert_ne. }
  rewrite Hl. simpl. done.
Qed.

Lemma handle_trade_tracks (trade : Trade.t) (self : Environment.t)
    (ag : BaseAgent.t) :
  Trade.buyer trade ≠ Trade.seller trade →
  Environment.agent_accounts self !! BaseAgent.agent_id ag
  = Some (Account.mk (BaseAgent.cash ag) (BaseAgent.portfolio ag)) →
  let ag' := BaseAgent.handle_trade (OrderBook._trade_to_dict trade) ag in
  BaseAgent.agent_id ag' = BaseAgent.agent_id ag
  ∧ Environment.agent_accounts (Environment.update_accounts trade self)
      !! BaseAgent.agent_id ag
    = Some (Account.mk (BaseAgent.cash ag') (BaseAgent.portfolio ag')).
Proof.
  intros Hne Hacc ag'. subst ag'.
  unfold BaseAgent.handle_trade, OrderBook._trade_to_dict.
  cbn [TradeDict.buyer TradeDict.seller TradeDict.symbol TradeDict.volume
       TradeDict.price].
  destruct (decide (Trade.buyer trade = BaseAgent.agent_id ag)) as [Hb|Hb].
  - split; [done|]. rewrite <- Hb in *.
    rewrite (update_accounts_lookup_buyer _ _ _ Hne Hacc).
    unfold BaseAgent.update_portfolio, Environment.trade_value.
    cbn [BaseAgent.cash BaseAgent.portfolio Account.cash Account.portfolio].
    by rewrite Float_mul_neg_l, Float_add_neg_r.
  - destruct (decide (Trade.seller trade = BaseAgent.agent_id ag)) as [Hs|Hs].
    + split; [done|]. rewrite <- Hs in *.
      rewrite (update_accounts_lookup_seller _ _ _ Hne Hacc).
      unfold BaseAgent.update_portfolio, Environment.trade_value.
      cbn [BaseAgent.cash BaseAgent.portfolio Account.cash Account.portfolio].
      unfold Z.sub. done.
    + split; [done|]. by rewrite update_accounts_lookup_other.
Qed.

(** X23: an agent that books its own trades stays in step with the
    environment.  Take an agent that has set its cash and holdings from the
    account the environment keeps for it ([update_account]).  When a list of
    trades, each between two different participants, is settled by the
    environment ([update_accounts]) and booked by the agent
    ([handle_trade]), the agent's cash and holdings are again those of its
    account in the environment. *)
Theorem agent_tracks_settlement (trades : list Trade.t)
    (self : Environment.t) (ag : BaseAgent.t) (acc : Account.t) :
  Environment.agent_accounts self !! BaseAgent.agent_id ag = Some acc →
  Forall (λ t, Trade.buyer t ≠ Trade.seller t) trades →
  let synced :=
    (BaseAgent.update_account
       (Some (AccountDict.mk (Some (Account.cash acc))
                (Some (Account.portfolio acc)))) ag).1 in
  let ag' :=
    foldl (λ g t, BaseAgent.handle_trade (OrderBook._trade_to_dict t) g)
      synced trades in
  let self' := foldl (λ s t, Environment.update_accounts t s) self trades in
  Environment.agent_accounts self' !! BaseAgent.agent_id ag
  = Some (Account.mk (BaseAgent.cash ag') (BaseAgent.portfolio ag')).
Proof.
  intros Hacc Hall synced ag' self'. subst ag' self'.
  assert (Hid : BaseAgent.agent_id synced = BaseAgent.agent_id ag) by done.
  assert (Hsync : Environment.agent_accounts self !! BaseAgent.agent_id synced
                  = Some (Account.mk (BaseAgent.cash synced)
                            (BaseAgent.portfolio synced))).
  { rewrite Hid, Hacc. by destruct acc. }
  rewrite <- Hid. clearbody synced. clear Hid Hacc.
  revert self synced Hsync.
  induction Hall as [|t trades Ht _ IH]; intros self synced Hsync; [done|].
  simpl. destruct (handle_trade_tracks t self synced Ht Hsync) as [Hid Hnext].
  rewrite <- Hid. apply IH. by rewrite Hid.
Qed.

(** Participant A, whose account the environment opened, buys 5 from B at
    100. *)
Lemma agent_tracks_settlement_witness :
  let self := Environment.add_account "A" (example_env 100) in
  let ag := BaseAgent.init "A" None in
  let trades := [Trade.mk 100 5 "X" "A" "B" "u1" "u2" (Some 1)] in
  Environment.agent_accounts
    (foldl (λ s t, Environment.update_accounts t s) self trades) !! "A"
  = Some (Account.mk (Float.of_int 999500) {[ "X" := 5 ]}).
Proof.
  intros self ag trades.
  assert (Hacc : Environment.agent_accounts self !! BaseAgent.agent_id ag
                 = Some (Account.mk Environment.starting_cash ∅))
    by (vm_compute; reflexivity).
  assert (Hall : Forall (λ t, Trade.buyer t ≠ Trade.seller t) trades)
    by (repeat constructor; simpl; congruence).
  etrans; [exact (agent_tracks_settlement trades self ag
                    (Account.mk Environment.starting_cash ∅) Hacc Hall)|].
  vm_compute. reflexivity.
Defined.

(** * The instrument's price *)

Lemma fills_prices sym tick incoming trades matched :
  fills sym tick incoming trades matched →
  Forall (λ t, Trade.price t = Order.price incoming) trades.
Proof.
  revert incoming matched.
  induction trades as [|t trades IH]; intros incoming [|r matched]; simpl;
    try done.
  intros (Hp & _ & _ & _ & Hf). constructor; [done|].
  by apply IH in Hf.
Qed.

Lemma _add_to_book_trades (order : Order.t) (b : OrderBook.t) :
  OrderBook.trades (OrderBook._add_to_book order b) = OrderBook.trades b.
Proof. unfold OrderBook._add_to_book. by case_decide. Qed.

Lemma limit_order_buffer (price volume : Z)
    (side agent_id order_id : string) (timestamp : Z) (b : OrderBook.t) :
  let r := OrderBook.place_order price volume side "limit" agent_id order_id
             timestamp b in
  ∃ trades,
    r.2 = Ret trades
    ∧ OrderBook.trades r.1 = OrderBook.trades b ++ trades
    ∧ Forall (λ t, Trade.price t = price) trades.
Proof.
  intros r. subst r.
  unfold OrderBook.place_order, OrderBook._place_limit_order.
  destruct (decide ("limit" = "limit")) as [_|?]; [|done].
  match goal with
  | |- context [OrderBook._match_against ?o ?b] =>
      destruct (_match_against_run o b) as (inc' & opp' & sk & tr & Hrun & ->)
  end.
  apply match_run_fills in Hrun as (new & matched & Htr & _ & Hf).
  simpl in Htr. subst tr. apply fills_prices in Hf. simpl in Hf.
  exists new.
  destruct (decide (0 < Order.quantity inc')); cbn [fst snd];
    rewrite ?_add_to_book_trades; split_and!; try done;
    by destruct (decide (side = "buy")).
Qed.

(** X24: a limit order that trades sets the price.  When an instrument's book
    takes a limit order and [update_price] is called, the instrument's price
    becomes the limit price of that order if the order traded (the price of
    all its trades, whatever the resting orders asked or bid); if it did
    not trade, [update_price] gives what it would have given before the
    order. *)
Theorem update_price_follows_limit_order (inst : Instrument.t)
    (price volume : Z) (side agent_id order_id : string) (timestamp : Z) :
  let r := OrderBook.place_order price volume side "limit" agent_id order_id
             timestamp (Instrument.order_book inst) in
  let inst' := Instrument.update_price (Instrument.set_order_book r.1 inst) in
  ∃ trades,
    r.2 = Ret trades
    ∧ (trades ≠ [] → Instrument.price inst' = price)
    ∧ (trades = [] →
       Instrument.price inst' = Instrument.price (Instrument.update_price inst)).
Proof.
  intros r inst'. subst inst'.
  destruct (limit_order_buffer price volume side agent_id order_id timestamp
              (Instrument.order_book inst)) as (trades & Hr & Hbuf & Hp).
  fold r in Hr, Hbuf. exists trades. split; [done|].
  unfold Instrument.update_price.
  cbn [Instrument.order_book Instrument.set_order_book]. rewrite Hbuf.
  split.
  - intros Hne. destruct (exists_last Hne) as (front & t & ->).
    rewrite app_assoc, last_snoc. simpl.
    apply Forall_app in Hp as [_ Ht]. by inversion Ht.
  - intros ->. rewrite app_nil_r.
    by destruct (last (OrderBook.trades (Instrument.order_book inst))).
Qed.

(** * Every environment a program can build *)

(** X25: the books and the log of every reachable environment are sound.
    Start from [Environment(instruments)] over new instruments and call
    [submit_order], [add_account], [tick] (returning or raising) and [reset]
    in any order.  Then in every order book the two sides are in priority
    order, only limit orders with a positive remaining quantity rest, a
    resting bid and a resting ask cross only when they belong to one
    participant, and no logged trade is stamped with a tick later than the
    clock. *)
Theorem reachable_environment_sound (self : Environment.t) :
  reachable self → books_ok self ∧ log_ok self.
Proof.
  induction 1 as [instruments Hnew|order self _ [Hb Hl]|a self _ [Hb Hl]
                  |fresh self _ [Hb Hl]|self _ [Hb Hl]].
  - split; [|unfold log_ok; simpl; constructor].
    intros sym inst Hinst. simpl in Hinst. rewrite (Hnew _ _ Hinst).
    destruct (init_inv (Some (Instrument.symbol inst))) as [Hwf Hcf].
    split; [done|]. split; [done|]. unfold resting_ok. simpl. constructor.
  - by split.
  - by split.
  - split; [by apply tick_books_ok|by apply tick_log_ok].
  - split; [|unfold log_ok; simpl; constructor].
    intros sym inst. simpl. rewrite lookup_fmap.
    intros (inst0 & _ & ->)%fmap_Some. simpl.
    split; [repeat split; simpl; constructor|].
    split; [|unfold resting_ok; simpl; constructor].
    intros bid ask Hbid. simpl in Hbid. by apply elem_of_nil in Hbid.
Qed.

(** One instrument, two crossing orders, one tick. *)
Lemma reachable_environment_sound_witness :
  books_ok (Environment.tick example_fresh (example_submitted 100)).1
  ∧ log_ok (Environment.tick example_fresh (example_submitted 100)).1.
Proof.
  apply (reachable_environment_sound
           (Environment.tick example_fresh (example_submitted 100)).1).
  apply reach_tick. apply reach_submit_order. apply reach_submit_order.
  apply reach_init. intros sym inst.
  intros [<- <-]%lookup_singleton_Some. reflexivity.
Defined.
